(** * Speech Intelligence app: controller, analysis client and recorder

    A shallow embedding of the three source files of the application:
    - [src/services/geminiService.ts]: the response handling of
      [getSpeechAnalysis] (trim, fence regex, [JSON.parse], validation and
      the uniform error wrapper);
    - [src/App.tsx]: the controller state and its handlers
      ([handleFileChange], [handleAnalyze], [handleReset], the mode buttons);
    - the [AudioUploader] component: the recording refs, [cleanupRecording],
      [handleStartRecording], [handleStopRecording] and the recorder
      callbacks.

    Around them: [fileToGenerativePart] of the service, the recording clock
    and the size label of the uploader, the controls the two components
    render (the page, where App and its AudioUploader run together), the
    panels of App and the grammar tab of [AnalysisDisplay].

    JavaScript strings are sequences of 16-bit code units; they are lists of
    [N] here.  Asynchronous handlers are split at their [await]: the part
    that runs when the handler is invoked, and the part that runs when the
    awaited promise settles.  The browser (promises, timers, media streams)
    is an explicit part of the state. *)

From Stdlib Require Import List NArith ZArith QArith String Ascii Bool Lia.
From Stdlib Require Import DecimalNat Qround.
Import ListNotations.

Set Warnings "-register-all".

(* ================================================================== *)
(** * Part I: definitions *)
(* ================================================================== *)

(** ** JavaScript strings *)

Module JsString.

Definition codeunit := N.
Definition jsstring := list codeunit.

Open Scope N_scope.

(** A source literal (ASCII) as a JavaScript string. *)
Definition lit (s : string) : jsstring :=
  map N_of_ascii (list_ascii_of_string s).

(** The same, with every apostrophe standing for a double quote; used to
    write JSON texts. *)
Definition qlit (s : string) : jsstring :=
  map (fun c => if c =? 39 then 34 else c) (lit s).

Fixpoint eqb (a b : jsstring) : bool :=
  match a, b with
  | [], [] => true
  | x :: a', y :: b' => (x =? y) && eqb a' b'
  | _, _ => false
  end.

(** ECMAScript WhiteSpace and LineTerminator code points: the set that
    [String.prototype.trim] strips and that [\s] matches. *)
Definition is_space (c : codeunit) : bool :=
  ((9 <=? c) && (c <=? 13)) || (c =? 32) || (c =? 160) || (c =? 5760)
  || ((8192 <=? c) && (c <=? 8202)) || (c =? 8232) || (c =? 8233)
  || (c =? 8239) || (c =? 8287) || (c =? 12288) || (c =? 65279).

(** [\w] without the [i] and [u] flags: [A-Za-z0-9_]. *)
Definition is_word (c : codeunit) : bool :=
  ((65 <=? c) && (c <=? 90)) || ((97 <=? c) && (c <=? 122))
  || ((48 <=? c) && (c <=? 57)) || (c =? 95).

Fixpoint trimStart (s : jsstring) : jsstring :=
  match s with
  | c :: s' => if is_space c then trimStart s' else s
  | [] => []
  end.

Definition trimEnd (s : jsstring) : jsstring := rev (trimStart (rev s)).

(** [String.prototype.trim]. *)
Definition trim (s : jsstring) : jsstring := trimEnd (trimStart s).

(** Truthiness of a string: the empty string is the only falsy one. *)
Definition nonempty (s : jsstring) : bool :=
  match s with [] => false | _ :: _ => true end.

(** Only white space. *)
Definition all_space (w : jsstring) : Prop := Forall (fun c => is_space c = true) w.

End JsString.
Import JsString.

(** ** Regular expressions: a backtracking matcher

    The fragment of ECMAScript regular expressions that [fenceRegex] uses,
    matched the way the language defines it: every node takes a continuation,
    alternatives are tried in priority order (greedy: longest first, lazy:
    shortest first) and the first complete match wins. *)

Module Regex.

Inductive cls :=
| Word              (* \w *)
| Space             (* \s *)
| Any.              (* .  with the s flag: every code unit *)

Definition cls_test (k : cls) (c : codeunit) : bool :=
  match k with
  | Word => is_word c
  | Space => is_space c
  | Any => true
  end.

Inductive node :=
| Lit (l : jsstring)
| Star (k : cls)             (* k*   greedy *)
| StarLazy (k : cls)         (* k*?  lazy *)
| Opt (n : node)             (* n?   greedy *)
| Group (i : nat) (n : node) (* capturing parentheses number i *)
| Seq (a b : node)
| Eol.                       (* $ without the m flag: end of input *)

(** Captures: group number to captured text; a group that did not
    participate is absent. *)
Definition caps := list (nat * jsstring).

Fixpoint cap (i : nat) (cs : caps) : option jsstring :=
  match cs with
  | [] => None
  | (j, v) :: cs' => if Nat.eqb i j then Some v else cap i cs'
  end.

Fixpoint uncap (i : nat) (cs : caps) : caps :=
  match cs with
  | [] => []
  | (j, v) :: cs' => if Nat.eqb i j then uncap i cs' else (j, v) :: uncap i cs'
  end.

Definition setcap (i : nat) (v : jsstring) (cs : caps) : caps :=
  (i, v) :: uncap i cs.

Definition orelse {A} (a b : option A) : option A :=
  match a with Some _ => a | None => b end.

Fixpoint strip_prefix (l s : jsstring) : option jsstring :=
  match l, s with
  | [], _ => Some s
  | x :: l', y :: s' => if N.eqb x y then strip_prefix l' s' else None
  | _ :: _, [] => None
  end.

(** Greedy star of a character class: first consume one more, then fall
    back to stopping here. *)
Fixpoint star_greedy {A} (p : codeunit -> bool) (k : jsstring -> option A)
         (s : jsstring) : option A :=
  match s with
  | c :: s' => if p c then orelse (star_greedy p k s') (k s) else k s
  | [] => k s
  end.

(** Lazy star: first stop here, then consume one more. *)
Fixpoint star_lazy {A} (p : codeunit -> bool) (k : jsstring -> option A)
         (s : jsstring) : option A :=
  orelse (k s)
         match s with
         | c :: s' => if p c then star_lazy p k s' else None
         | [] => None
         end.

(** The text consumed between two positions of the same input. *)
Definition consumed (from to : jsstring) : jsstring :=
  firstn (List.length from - List.length to) from.

(** The groups inside a node. *)
Fixpoint groups (n : node) : list nat :=
  match n with
  | Group i n' => i :: groups n'
  | Opt n' => groups n'
  | Seq a b => groups a ++ groups b
  | _ => []
  end.

Fixpoint matchN (n : node) (k : jsstring -> caps -> option caps)
         (s : jsstring) (cs : caps) : option caps :=
  match n with
  | Lit l =>
      match strip_prefix l s with
      | Some s' => k s' cs
      | None => None
      end
  | Star c => star_greedy (cls_test c) (fun s' => k s' cs) s
  | StarLazy c => star_lazy (cls_test c) (fun s' => k s' cs) s
  | Opt n' =>
      (* RepeatMatcher with min 0 and max 1: the captures of the groups
         inside are cleared before the iteration, an iteration that matches
         the empty string is rejected, and skipping keeps the captures *)
      orelse
        (matchN n'
                (fun s' cs' =>
                   if Nat.eqb (List.length s') (List.length s) then None else k s' cs')
                s (fold_right uncap cs (groups n')))
        (k s cs)
  | Group i n' =>
      matchN n' (fun s' cs' => k s' (setcap i (consumed s s') cs')) s cs
  | Seq a b => matchN a (fun s' cs' => matchN b k s' cs') s cs
  | Eol => match s with [] => k s cs | _ :: _ => None end
  end.

(** [String.prototype.match] for a pattern that begins with [^] (no [m]
    and no [g] flag): the only start index that can match is 0. *)
Definition match_anchored (n : node) (s : jsstring) : option caps :=
  matchN n (fun _ cs => Some cs) s [].

End Regex.

(** ** geminiService.ts: sanitising the response text *)

Module Sanitize.
Import Regex.

Definition backticks : jsstring := lit "```".

(** The regular expression literal of line 89, node by node: start of
    input, three backticks, an optional group 1 of word characters, greedy
    white space, an optional line feed, group 2 as a lazy run of any
    characters (flag s), an optional line feed, greedy white space, three
    backticks, end of input. *)
Definition fenceRegex : node :=
  Seq (Lit backticks)
 (Seq (Opt (Group 1 (Star Word)))
 (Seq (Star Space)
 (Seq (Opt (Lit [10%N]))
 (Seq (Group 2 (StarLazy Any))
 (Seq (Opt (Lit [10%N]))
 (Seq (Star Space)
 (Seq (Lit backticks)
      Eol))))))).

(** The last four nodes of [fenceRegex], and its last five. *)
Definition fence_tail : node :=
  Seq (Opt (Lit [10%N])) (Seq (Star Space) (Seq (Lit backticks) Eol)).

Definition fence_body : node := Seq (Group 2 (StarLazy Any)) fence_tail.

(** The continuation of a complete match. *)
Definition K0 : jsstring -> caps -> option caps := fun _ c => Some c.

(** The text of a JSON object without the white space around it. *)
Definition braced (body : jsstring) : jsstring := 123%N :: body ++ [125%N].

(** Lines 86-93:
    [let jsonStr = response.text.trim();]
    [const match = jsonStr.match(fenceRegex);]
    [if (match && match[2]) jsonStr = match[2].trim();] *)
Definition sanitize (text : jsstring) : jsstring :=
  let jsonStr := trim text in
  match match_anchored fenceRegex jsonStr with
  | Some m =>
      match cap 2 m with
      | Some g => if nonempty g then trim g else jsonStr
      | None => jsonStr
      end
  | None => jsonStr
  end.

(** The fenced form of a text, as the model wraps its answer. *)
Definition fenced (t : jsstring) : jsstring :=
  lit "```json" ++ [10%N] ++ t ++ [10%N] ++ backticks.

End Sanitize.

(** ** JSON values and [JSON.parse]

    [JSON.parse] is a built-in of the language, not code of the repository;
    it is modelled after the JSON grammar (ECMA-404) that ECMA-262 prescribes
    for it.  A number keeps its decimal value; the only question ever asked
    of a number here is whether its Number value is zero. *)

Module Json.

Open Scope N_scope.

(** The decimal [(-1)^neg * mantissa * 10^exp10]. *)
Record decimal := { neg : bool; mantissa : N; exp10 : Z }.

(** An object keeps its members in source order, duplicates included;
    property lookup returns the last one, as [JSON.parse] overwrites. *)
Inductive json :=
| JNull
| JBool (b : bool)
| JNumber (d : decimal)
| JString (s : jsstring)
| JArray (l : list json)
| JObject (kvs : list (jsstring * json)).

Inductive presult (A : Type) :=
| POk (a : A) (rest : jsstring)
| PErr
| PFuel.
Arguments POk {A} a rest.
Arguments PErr {A}.
Arguments PFuel {A}.

(** JSON white space: tab, line feed, carriage return, space. *)
Definition is_json_ws (c : codeunit) : bool :=
  (c =? 9) || (c =? 10) || (c =? 13) || (c =? 32).

Fixpoint skip_ws (s : jsstring) : jsstring :=
  match s with
  | c :: s' => if is_json_ws c then skip_ws s' else s
  | [] => []
  end.

Definition is_digit (c : codeunit) : bool := (48 <=? c) && (c <=? 57).

Definition hex_value (c : codeunit) : option N :=
  if is_digit c then Some (c - 48)
  else if (97 <=? c) && (c <=? 102) then Some (c - 87)
  else if (65 <=? c) && (c <=? 70) then Some (c - 55)
  else None.

Definition hex4 (a b c d : codeunit) : option codeunit :=
  match hex_value a, hex_value b, hex_value c, hex_value d with
  | Some x, Some y, Some z, Some w => Some (((x * 16 + y) * 16 + z) * 16 + w)
  | _, _, _, _ => None
  end.

(** One-character escapes: quote, backslash, slash, b, f, n, r, t. *)
Definition simple_escape (e : codeunit) : option codeunit :=
  if e =? 34 then Some 34
  else if e =? 92 then Some 92
  else if e =? 47 then Some 47
  else if e =? 98 then Some 8
  else if e =? 102 then Some 12
  else if e =? 110 then Some 10
  else if e =? 114 then Some 13
  else if e =? 116 then Some 9
  else None.

(** The characters of a string, after its opening quote. *)
Fixpoint parse_chars (s : jsstring) (acc : jsstring) : presult jsstring :=
  match s with
  | [] => PErr
  | c :: s1 =>
      if c =? 34 then POk (rev acc) s1
      else if c =? 92 then
        match s1 with
        | [] => PErr
        | e :: s2 =>
            if e =? 117 then
              match s2 with
              | h1 :: h2 :: h3 :: h4 :: s3 =>
                  match hex4 h1 h2 h3 h4 with
                  | Some u => parse_chars s3 (u :: acc)
                  | None => PErr
                  end
              | _ => PErr
              end
            else
              match simple_escape e with
              | Some u => parse_chars s2 (u :: acc)
              | None => PErr
              end
        end
      else if c <? 32 then PErr
      else parse_chars s1 (c :: acc)
  end.

(** A run of digits: the number they extend [acc] to, how many there
    were, and the rest. *)
Fixpoint take_digits (s : jsstring) (acc : N) (n : nat)
  : N * nat * jsstring :=
  match s with
  | c :: s' =>
      if is_digit c then take_digits s' (acc * 10 + (c - 48)) (S n)
      else (acc, n, s)
  | [] => (acc, n, s)
  end.

(** The exponent part, if there is one. *)
Definition parse_exponent (s : jsstring) : presult Z :=
  match s with
  | c :: s1 =>
      if (c =? 101) || (c =? 69) then
        let '(sign, s2) :=
          match s1 with
          | d :: s2 =>
              if d =? 45 then (true, s2)
              else if d =? 43 then (false, s2)
              else (false, s1)
          | [] => (false, s1)
          end in
        match take_digits s2 0 0 with
        | (_, O, _) => PErr
        | (e, S _, s3) =>
            POk (if sign then (- Z.of_N e)%Z else Z.of_N e) s3
        end
      else POk 0%Z s
  | [] => POk 0%Z s
  end.

(** The fraction part, if there is one: the mantissa extended by the
    fraction digits and the number of those digits. *)
Definition parse_fraction (m : N) (s : jsstring) : presult (N * nat) :=
  match s with
  | c :: s1 =>
      if c =? 46 then
        match take_digits s1 m 0 with
        | (_, O, _) => PErr
        | (m', S k, s2) => POk (m', S k) s2
        end
      else POk (m, O) s
  | [] => POk (m, O) s
  end.

(** A number, after its optional minus sign. *)
Definition parse_unsigned (negative : bool) (s : jsstring) : presult json :=
  match s with
  | c :: s1 =>
      if is_digit c then
        let '(m, s2) :=
          if c =? 48 then (0, s1)
          else let '(m, _, s2) := take_digits s1 (c - 48) 0 in (m, s2) in
        match parse_fraction m s2 with
        | POk (m', k) s3 =>
            match parse_exponent s3 with
            | POk e s4 =>
                POk (JNumber {| neg := negative; mantissa := m';
                                exp10 := (e - Z.of_nat k)%Z |}) s4
            | PErr => PErr
            | PFuel => PFuel
            end
        | PErr => PErr
        | PFuel => PFuel
        end
      else PErr
  | [] => PErr
  end.

Definition parse_literal (word : string) (v : json) (s : jsstring)
  : presult json :=
  match Regex.strip_prefix (lit word) s with
  | Some rest => POk v rest
  | None => PErr
  end.

Fixpoint parse_value (fuel : nat) (s : jsstring) {struct fuel}
  : presult json :=
  match fuel with
  | O => PFuel
  | S f =>
      match skip_ws s with
      | [] => PErr
      | c :: s1 =>
          if c =? 123 then                     (* left brace *)
            match skip_ws s1 with
            | d :: s2 =>
                if d =? 125 then POk (JObject []) s2
                else parse_members f s1 []
            | [] => PErr
            end
          else if c =? 91 then                 (* left bracket *)
            match skip_ws s1 with
            | d :: s2 =>
                if d =? 93 then POk (JArray []) s2
                else parse_elements f s1 []
            | [] => PErr
            end
          else if c =? 34 then
            match parse_chars s1 [] with
            | POk str s2 => POk (JString str) s2
            | PErr => PErr
            | PFuel => PFuel
            end
          else if c =? 45 then parse_unsigned true s1
          else if is_digit c then parse_unsigned false (c :: s1)
          else if c =? 116 then parse_literal "true" (JBool true) (c :: s1)
          else if c =? 102 then parse_literal "false" (JBool false) (c :: s1)
          else if c =? 110 then parse_literal "null" JNull (c :: s1)
          else PErr
      end
  end

(** The elements of an array, after the left bracket or a comma. *)
with parse_elements (fuel : nat) (s : jsstring) (acc : list json)
     {struct fuel} : presult json :=
  match fuel with
  | O => PFuel
  | S f =>
      match parse_value f s with
      | POk v s1 =>
          match skip_ws s1 with
          | c :: s2 =>
              if c =? 44 then parse_elements f s2 (v :: acc)
              else if c =? 93 then POk (JArray (rev (v :: acc))) s2
              else PErr
          | [] => PErr
          end
      | PErr => PErr
      | PFuel => PFuel
      end
  end

(** The members of an object, after the left brace or a comma. *)
with parse_members (fuel : nat) (s : jsstring)
     (acc : list (jsstring * json)) {struct fuel} : presult json :=
  match fuel with
  | O => PFuel
  | S f =>
      match skip_ws s with
      | q :: s1 =>
          if q =? 34 then
            match parse_chars s1 [] with
            | POk key s2 =>
                match skip_ws s2 with
                | c :: s3 =>
                    if c =? 58 then
                      match parse_value f s3 with
                      | POk v s4 =>
                          match skip_ws s4 with
                          | d :: s5 =>
                              if d =? 44 then
                                parse_members f s5 ((key, v) :: acc)
                              else if d =? 125 then
                                POk (JObject (rev ((key, v) :: acc))) s5
                              else PErr
                          | [] => PErr
                          end
                      | PErr => PErr
                      | PFuel => PFuel
                      end
                    else PErr
                | [] => PErr
                end
            | PErr => PErr
            | PFuel => PFuel
            end
          else PErr
      | [] => PErr
      end
  end.

(** Fuel that never runs out: every recursive call comes after at least
    one consumed character or one step from a value into its container. *)
Definition parse_fuel (s : jsstring) : nat := 2 * List.length s + 1.

(** [JSON.parse text]: [None] is the SyntaxError it throws. *)
Definition JSON_parse (text : jsstring) : option json :=
  match parse_value (parse_fuel text) text with
  | POk v rest =>
      match skip_ws rest with
      | [] => Some v
      | _ :: _ => None
      end
  | PErr => None
  | PFuel => None
  end.

(** *** Positions in a text

    [rest] is what is left of [s] after a prefix was read, and after a
    non-empty prefix was read. *)

Definition extends (s rest : jsstring) : Prop := exists c, s = c ++ rest.
Definition consumes (s rest : jsstring) : Prop :=
  exists c, c <> [] /\ s = c ++ rest.

(** Only JSON white space. *)
Definition json_ws (w : jsstring) : Prop := Forall (fun c => is_json_ws c = true) w.

(** *** Reading a parsed value the way JavaScript does *)

(** The Number value of a non-zero decimal is zero exactly when the
    decimal is at most [2^-1075], half the least positive double (round to
    nearest, ties to even). *)
Definition number_is_zero (d : decimal) : bool :=
  (mantissa d =? 0)
  || ((exp10 d <? 0)%Z
      && (Z.of_N (mantissa d) * 2 ^ 1075 <=? 10 ^ (- exp10 d))%Z).

(** ToBoolean. *)
Definition truthy (v : json) : bool :=
  match v with
  | JNull => false
  | JBool b => b
  | JNumber d => negb (number_is_zero d)
  | JString s => nonempty s
  | JArray _ => true
  | JObject _ => true
  end.

(** The last member with the given key. *)
Fixpoint lookup (key : jsstring) (kvs : list (jsstring * json))
  : option json :=
  match kvs with
  | [] => None
  | (k, v) :: rest =>
      match lookup key rest with
      | Some x => Some x
      | None => if JsString.eqb key k then Some v else None
      end
  end.

(** [v.key] for one of the four keys the service reads, on a value other
    than [null]: an own property of an object, [undefined] ([None])
    otherwise (no prototype defines these names). *)
Definition get (v : json) (key : jsstring) : option json :=
  match v with
  | JObject kvs => lookup key kvs
  | _ => None
  end.

(** Truthiness of a property value that may be [undefined]. *)
Definition truthy_prop (o : option json) : bool :=
  match o with Some v => truthy v | None => false end.

(** [Array.isArray]. *)
Definition isArray (o : option json) : bool :=
  match o with Some (JArray _) => true | _ => false end.

End Json.

(** ** geminiService.ts: [getSpeechAnalysis] *)

Module GeminiService.
Import Json Sanitize.

(** A thrown value: an [Error] instance with its message, or anything
    else. *)
Inductive thrown :=
| ErrorObj (message : jsstring)
| NonError.

(** How an asynchronous function ends. *)
Inductive outcome :=
| Returns (v : json)
| Throws (e : thrown).

(** The messages of the errors the engine throws itself. *)
Record Engine := {
  (* the SyntaxError of JSON.parse on a text *)
  syntaxErrorMessage : jsstring -> jsstring;
  (* the TypeError of reading a property of null or undefined *)
  typeErrorMessage : jsstring -> jsstring -> jsstring
}.

(** What [ai.models.generateContent] does: it resolves with a response,
    whose text may be missing, or rejects. *)
Inductive api_outcome :=
| Responded (text : jsstring)
| RespondedWithoutText            (* response.text is undefined *)
| Rejected (e : thrown).

Definition incomplete_message : jsstring :=
  lit "API returned incomplete or malformed JSON data.".

(** Lines 97-102: the validation of the parsed structure. *)
Definition validate (E : Engine) (parsedData : json) : outcome :=
  match parsedData with
  | JNull =>
      Throws (ErrorObj (typeErrorMessage E (lit "null") (lit "transcript")))
  | _ =>
      if negb (truthy_prop (get parsedData (lit "transcript")))
         || negb (truthy_prop (get parsedData (lit "summary")))
         || negb (isArray (get parsedData (lit "grammarAnalysis")))
         || negb (truthy_prop (get parsedData (lit "sentiment")))
      then Throws (ErrorObj incomplete_message)
      else Returns parsedData
  end.

(** Lines 72-102: the body of the [try] block, from the settled API call
    on. *)
Definition try_block (E : Engine) (api : api_outcome) : outcome :=
  match api with
  | Rejected e => Throws e
  | RespondedWithoutText =>
      Throws (ErrorObj (typeErrorMessage E (lit "undefined") (lit "trim")))
  | Responded text =>
      let jsonStr := sanitize text in
      match JSON_parse jsonStr with
      | None => Throws (ErrorObj (syntaxErrorMessage E jsonStr))
      | Some parsedData => validate E parsedData
      end
  end.

(** Lines 104-110: the [catch] block. *)
Definition catch_block (error : thrown) : thrown :=
  match error with
  | ErrorObj message =>
      ErrorObj (lit "Gemini API Error: " ++ message
                ++ lit ". Please check your API key and network connection.")
  | NonError =>
      ErrorObj
        (lit "An unknown error occurred while communicating with the Gemini API.")
  end.

Definition getSpeechAnalysis (E : Engine) (api : api_outcome) : outcome :=
  match try_block E api with
  | Returns v => Returns v
  | Throws e => Throws (catch_block e)
  end.

(** The four checks of line 98, as one boolean. *)
Definition accepted (v : json) : bool :=
  truthy_prop (get v (lit "transcript"))
  && truthy_prop (get v (lit "summary"))
  && isArray (get v (lit "grammarAnalysis"))
  && truthy_prop (get v (lit "sentiment")).

(** Two values on which the four checks read the same. *)
Definition same_checks (v v' : json) : Prop :=
  truthy_prop (get v (lit "transcript")) = truthy_prop (get v' (lit "transcript"))
  /\ truthy_prop (get v (lit "summary")) = truthy_prop (get v' (lit "summary"))
  /\ isArray (get v (lit "grammarAnalysis"))
     = isArray (get v' (lit "grammarAnalysis"))
  /\ truthy_prop (get v (lit "sentiment")) = truthy_prop (get v' (lit "sentiment")).

(** *** The requirement in the words of the specification

    "transcript and summary are non-empty, grammarAnalysis is a sequence
    (possibly empty), and sentiment is present". *)

Definition filled (o : option json) : Prop :=
  exists x, o = Some x /\ x <> JNull /\ x <> JString [].

Definition present (o : option json) : Prop :=
  exists x, o = Some x /\ x <> JNull.

Definition spec_valid (v : json) : Prop :=
  filled (get v (lit "transcript"))
  /\ filled (get v (lit "summary"))
  /\ (exists l, get v (lit "grammarAnalysis") = Some (JArray l))
  /\ present (get v (lit "sentiment")).

(** The labels and the issue fields of types.ts. *)
Definition labels : list jsstring :=
  [lit "Positive"; lit "Negative"; lit "Neutral"; lit "Mixed"].

Definition issue_fields : list jsstring :=
  [lit "original"; lit "issue"; lit "suggestion"; lit "tip"].

(** *** Sample responses *)

(** Well-formed JSON without [sentiment]. *)
Definition missing_sentiment : jsstring :=
  qlit "{'transcript':'hi','summary':'s','grammarAnalysis':[]}".

(** A response with a label outside the four and with grammar entries that
    have none of the issue fields. *)
Definition off_schema_response : jsstring :=
  qlit "{'transcript':'um hello','summary':'A greeting.','grammarAnalysis':[{'note':'none'},7],'sentiment':{'label':'Furious'}}".

(** An engine with the messages of V8, for concrete runs. *)
Definition v8 : Engine := {|
  syntaxErrorMessage := fun _ => lit "Unexpected token in JSON";
  typeErrorMessage := fun base prop =>
    lit "Cannot read properties of " ++ base ++ lit " (reading '" ++ prop
    ++ lit "')"
|}.

End GeminiService.

(** ** Files *)

Record File := {
  file_name : jsstring;
  file_type : jsstring;
  file_bits : list N
}.

(** ** App.tsx: the controller *)

Module App.
Import Json GeminiService.

(** types.ts *)
Inductive AppState := IDLE | ANALYZING | SUCCESS | ERROR.

Inductive InputMode := upload | record.

(** The six [useState] cells of the component. *)
Record State := {
  file : option File;
  analysis : option json;
  appState : AppState;
  error : option jsstring;
  inputMode : InputMode;
  analysisTime : option Q
}.

Definition initial : State := {|
  file := None; analysis := None; appState := IDLE;
  error := None; inputMode := upload; analysisTime := None
|}.

Definition setFile (v : option File) (st : State) : State :=
  {| file := v; analysis := analysis st; appState := appState st;
     error := error st; inputMode := inputMode st;
     analysisTime := analysisTime st |}.

Definition setAnalysis (v : option json) (st : State) : State :=
  {| file := file st; analysis := v; appState := appState st;
     error := error st; inputMode := inputMode st;
     analysisTime := analysisTime st |}.

Definition setAppState (v : AppState) (st : State) : State :=
  {| file := file st; analysis := analysis st; appState := v;
     error := error st; inputMode := inputMode st;
     analysisTime := analysisTime st |}.

Definition setError (v : option jsstring) (st : State) : State :=
  {| file := file st; analysis := analysis st; appState := appState st;
     error := v; inputMode := inputMode st;
     analysisTime := analysisTime st |}.

Definition setInputMode (v : InputMode) (st : State) : State :=
  {| file := file st; analysis := analysis st; appState := appState st;
     error := error st; inputMode := v;
     analysisTime := analysisTime st |}.

Definition setAnalysisTime (v : option Q) (st : State) : State :=
  {| file := file st; analysis := analysis st; appState := appState st;
     error := error st; inputMode := inputMode st;
     analysisTime := v |}.

(** Lines 18-26. *)
Definition handleFileChange (selectedFile : option File) (st : State)
  : State :=
  let st := setFile selectedFile st in
  let st := setAnalysis None st in
  let st := setError None st in
  let st := setAnalysisTime None st in
  match selectedFile with
  | Some _ => setAppState IDLE st
  | None => st
  end.

(** A call of [getSpeechAnalysis] that has been dispatched and has not
    settled: the file it was given and the [startTime] its continuation
    holds. *)
Record Call := { call_file : File; startTime : Q }.

Definition no_file_message : jsstring :=
  lit "Please select or record a file first.".

(** Lines 28-41: [handleAnalyze] up to its [await].  [now] is the reading
    of [performance.now()] on line 39.  The second component is the call
    it dispatches, if any. *)
Definition handleAnalyze (now : Q) (st : State) : State * option Call :=
  match file st with
  | None => (setError (Some no_file_message) st, None)
  | Some f =>
      let st := setAppState ANALYZING st in
      let st := setError None st in
      let st := setAnalysis None st in
      let st := setAnalysisTime None st in
      (st, Some {| call_file := f; startTime := now |})
  end.

Definition unknown_message : jsstring :=
  lit "An unknown error occurred during analysis. Check the console for details.".

(** Lines 41-51: the rest of [handleAnalyze], run when the call settles.
    [endTime] is the reading of [performance.now()] on line 42. *)
Definition handleAnalyze_settled (c : Call) (r : outcome) (endTime : Q)
           (st : State) : State :=
  match r with
  | Returns result =>
      let st := setAnalysisTime (Some (endTime - startTime c)%Q) st in
      let st := setAnalysis (Some result) st in
      setAppState SUCCESS st
  | Throws e =>
      let errorMessage :=
        match e with
        | ErrorObj message => message
        | NonError => unknown_message
        end in
      let st := setError (Some (lit "Analysis Failed: " ++ errorMessage)) st in
      setAppState ERROR st
  end.

(** Lines 54-60. *)
Definition handleReset (st : State) : State :=
  let st := setFile None st in
  let st := setAnalysis None st in
  let st := setError None st in
  let st := setAnalysisTime None st in
  setAppState IDLE st.

(** Lines 105-108 and 114-117: the [onClick] of a mode button. *)
Definition modeClick (m : InputMode) (st : State) : State :=
  setInputMode m (handleReset st).

(** The controller together with the calls in flight.  JavaScript runs a
    handler up to its next [await] without interleaving, so the state is
    observed between such runs: one event is one handler invocation or one
    settlement. *)
Record World := { ui : State; calls : list Call }.

Definition start : World := {| ui := initial; calls := [] |}.

Inductive Event :=
| FileChange (selectedFile : option File)
| Analyze (now : Q)
| Settle (i : nat) (r : outcome) (now : Q)  (* the i-th call in flight settles *)
| Reset
| ModeClick (m : InputMode).

Fixpoint remove_nth {A} (i : nat) (l : list A) : list A :=
  match i, l with
  | _, [] => []
  | O, _ :: l' => l'
  | S j, x :: l' => x :: remove_nth j l'
  end.

Definition step (w : World) (e : Event) : World :=
  match e with
  | FileChange f => {| ui := handleFileChange f (ui w); calls := calls w |}
  | Analyze now =>
      match handleAnalyze now (ui w) with
      | (st, Some c) => {| ui := st; calls := calls w ++ [c] |}
      | (st, None) => {| ui := st; calls := calls w |}
      end
  | Settle i r now =>
      match nth_error (calls w) i with
      | Some c =>
          {| ui := handleAnalyze_settled c r now (ui w);
             calls := remove_nth i (calls w) |}
      | None => w
      end
  | Reset => {| ui := handleReset (ui w); calls := calls w |}
  | ModeClick m => {| ui := modeClick m (ui w); calls := calls w |}
  end.

Definition run (w : World) (es : list Event) : World := fold_left step es w.

(** *** Which events a run is made of

    The view gates the handlers: the analyze button of AudioUploader is
    [disabled={!file || isLoading || isRecording}], every other control
    stays usable while an analysis is loading. *)

Definition has_file (st : State) : bool :=
  match file st with Some _ => true | None => false end.

Definition is_analyzing (st : State) : bool :=
  match appState st with ANALYZING => true | _ => false end.

Definition idle_calls (w : World) : bool :=
  match calls w with [] => true | _ :: _ => false end.

(** [handleAnalyze] runs only with a file present. *)
Definition with_file (w : World) (e : Event) : bool :=
  match e with
  | Analyze _ => has_file (ui w)
  | _ => true
  end.

(** What the rendered controls allow: analyze only with a file present
    and while not loading. *)
Definition enabled (w : World) (e : Event) : bool :=
  match e with
  | Analyze _ => has_file (ui w) && negb (is_analyzing (ui w))
  | _ => true
  end.

(** [handleAnalyze] runs only with a file present and with no earlier
    call still in flight. *)
Definition orderly (w : World) (e : Event) : bool :=
  match e with
  | Analyze _ => has_file (ui w) && idle_calls w
  | _ => true
  end.

(** Every event of the run satisfies [p] in the state it arrives in. *)
Fixpoint all_along (p : World -> Event -> bool) (w : World)
         (es : list Event) : bool :=
  match es with
  | [] => true
  | e :: es' => p w e && all_along p (step w e) es'
  end.

(** The invariant of the data model: a result only in SUCCESS, an error
    message only in ERROR. *)
Definition result_error_invariant (st : State) : Prop :=
  (analysis st <> None -> appState st = SUCCESS)
  /\ (error st <> None -> appState st = ERROR).

(** The invariant that orderly runs keep: besides the data-model invariant,
    at most one call is in flight, and while one is, no result and no
    message are present. *)
Definition orderly_invariant (w : World) : Prop :=
  result_error_invariant (ui w)
  /\ (List.length (calls w) <= 1)%nat
  /\ (calls w <> [] -> analysis (ui w) = None /\ error (ui w) = None).

(** *** Sample values *)

Definition clip (n : jsstring) : File :=
  {| file_name := n; file_type := lit "audio/wav"; file_bits := [] |}.

Definition sample_result : json :=
  JObject [(lit "transcript", JString (lit "hello"));
           (lit "summary", JString (lit "a greeting"));
           (lit "grammarAnalysis", JArray []);
           (lit "sentiment", JObject [(lit "label", JString (lit "Neutral"))])].

(** A run the rendered controls allow: analyze a first file, remove it
    while the call is in flight, pick a second file and analyze it; the
    first call then resolves and the second one rejects. *)
Definition stale_run : list Event :=
  [ FileChange (Some (clip (lit "a.wav")));
    Analyze 0;
    Reset;
    FileChange (Some (clip (lit "b.wav")));
    Analyze 1;
    Settle 0 (Returns sample_result) 2;
    Settle 0 (Throws (ErrorObj (lit "Gemini API Error: timeout"))) 3 ].

(** [handleAnalyze] invoked again after the file was withdrawn during
    an analysis. *)
Definition withdrawn_run : list Event :=
  [ FileChange (Some (clip (lit "a.wav")));
    Analyze 0;
    FileChange None;
    Analyze 1 ].

End App.

(** ** The AudioUploader component: recording *)

Module AudioUploader.

Definition Blob := list N.

(** A media stream is known by its identity; it is live while at least
    one of its tracks has not been stopped.  Timer handles are positive
    integers, so the test [if (recordingIntervalRef.current)] is a test
    against [null]. *)
Definition stream := positive.
Definition handle := positive.

Record MediaRecorder := {
  recorder_stream : stream;
  mimeType : jsstring
}.

(** The four refs and the three state cells of the component. *)
Record Component := {
  mediaRecorderRef : option MediaRecorder;
  streamRef : option stream;
  audioChunksRef : list Blob;
  recordingIntervalRef : option handle;
  isRecording : bool;
  recordingSeconds : nat;
  micError : option jsstring
}.

(** The part of the browser the component acts on. *)
Record Browser := {
  liveStreams : list stream;       (* streams with a track still running *)
  activeIntervals : list handle;   (* intervals not yet cleared *)
  nextStream : stream;
  nextInterval : handle;
  supported : bool;                (* navigator.mediaDevices.getUserMedia *)
  pendingRequests : nat            (* getUserMedia promises not settled *)
}.

(** [emitted] lists the files handed to [onFileChange], latest first. *)
Record World := {
  comp : Component;
  browser : Browser;
  emitted : list File
}.

Definition initial : Component := {|
  mediaRecorderRef := None; streamRef := None; audioChunksRef := [];
  recordingIntervalRef := None; isRecording := false;
  recordingSeconds := 0; micError := None
|}.

Definition start (can_record : bool) : World := {|
  comp := initial;
  browser := {| liveStreams := []; activeIntervals := [];
                nextStream := 1%positive; nextInterval := 1%positive;
                supported := can_record; pendingRequests := 0 |};
  emitted := []
|}.

Definition remove_id (x : positive) (l : list positive) : list positive :=
  filter (fun y => negb (Pos.eqb x y)) l.

(** [clearInterval(h)]. *)
Definition clearInterval (h : handle) (b : Browser) : Browser :=
  {| liveStreams := liveStreams b;
     activeIntervals := remove_id h (activeIntervals b);
     nextStream := nextStream b; nextInterval := nextInterval b;
     supported := supported b; pendingRequests := pendingRequests b |}.

(** [s.getTracks().forEach(track => track.stop())]. *)
Definition stopTracks (s : stream) (b : Browser) : Browser :=
  {| liveStreams := remove_id s (liveStreams b);
     activeIntervals := activeIntervals b;
     nextStream := nextStream b; nextInterval := nextInterval b;
     supported := supported b; pendingRequests := pendingRequests b |}.

(** Lines 174-185. *)
Definition cleanupRecording (w : World) : World :=
  let b1 :=
    match recordingIntervalRef (comp w) with
    | Some h => clearInterval h (browser w)
    | None => browser w
    end in
  let b2 :=
    match streamRef (comp w) with
    | Some s => stopTracks s b1
    | None => b1
    end in
  {| comp := {| mediaRecorderRef := None;
                streamRef := None;
                audioChunksRef := [];
                recordingIntervalRef := None;
                isRecording := isRecording (comp w);
                recordingSeconds := recordingSeconds (comp w);
                micError := micError (comp w) |};
     browser := b2;
     emitted := emitted w |}.

Definition setMicError (m : option jsstring) (c : Component) : Component :=
  {| mediaRecorderRef := mediaRecorderRef c; streamRef := streamRef c;
     audioChunksRef := audioChunksRef c;
     recordingIntervalRef := recordingIntervalRef c;
     isRecording := isRecording c; recordingSeconds := recordingSeconds c;
     micError := m |}.

Definition with_pending (n : nat) (b : Browser) : Browser :=
  {| liveStreams := liveStreams b; activeIntervals := activeIntervals b;
     nextStream := nextStream b; nextInterval := nextInterval b;
     supported := supported b; pendingRequests := n |}.

Definition unsupported_message : jsstring :=
  lit "Audio recording is not supported by your browser.".

Definition denied_message : jsstring :=
  lit "Could not access microphone. Please check your browser permissions.".

(** Lines 187-191 and 219-221: [handleStartRecording] up to its [await]. *)
Definition handleStartRecording (w : World) : World :=
  let c := setMicError None (comp w) in
  if supported (browser w) then
    {| comp := c;
       browser := with_pending (S (pendingRequests (browser w))) (browser w);
       emitted := emitted w |}
  else
    {| comp := setMicError (Some unsupported_message) c;
       browser := browser w;
       emitted := emitted w |}.

(** Lines 191-192: [getUserMedia] has resolved with a fresh stream, which
    is stored in [streamRef]. *)
Definition take_stream (w : World) : World :=
  let b := browser w in
  let c := comp w in
  let s := nextStream b in
  {| comp := {| mediaRecorderRef := mediaRecorderRef c;
                streamRef := Some s;
                audioChunksRef := audioChunksRef c;
                recordingIntervalRef := recordingIntervalRef c;
                isRecording := isRecording c;
                recordingSeconds := recordingSeconds c;
                micError := micError c |};
     browser := {| liveStreams := s :: liveStreams b;
                   activeIntervals := activeIntervals b;
                   nextStream := Pos.succ s;
                   nextInterval := nextInterval b;
                   supported := supported b;
                   pendingRequests := pendingRequests b |};
     emitted := emitted w |}.

(** Lines 193-213: the rest of the [try] block, for the stream [s] just
    taken.  [mime] is the type the new recorder negotiates. *)
Definition start_recorder (s : stream) (mime : jsstring) (w : World)
  : World :=
  let b := browser w in
  let c := comp w in
  let h := nextInterval b in
  {| comp := {| mediaRecorderRef :=
                  Some {| recorder_stream := s; mimeType := mime |};
                streamRef := streamRef c;
                audioChunksRef := [];
                recordingIntervalRef := Some h;
                isRecording := true;
                recordingSeconds := 0;
                micError := micError c |};
     browser := {| liveStreams := liveStreams b;
                   activeIntervals := h :: activeIntervals b;
                   nextStream := nextStream b;
                   nextInterval := Pos.succ h;
                   supported := supported b;
                   pendingRequests := pendingRequests b |};
     emitted := emitted w |}.

(** Lines 191-213: the [try] block from the resolved [await] on. *)
Definition handleStartRecording_granted (mime : jsstring) (w : World)
  : World :=
  start_recorder (nextStream (browser w)) mime (take_stream w).

(** Lines 214-218: the [catch] block. *)
Definition handleStartRecording_catch (w : World) : World :=
  cleanupRecording
    {| comp := setMicError (Some denied_message) (comp w);
       browser := browser w;
       emitted := emitted w |}.

(** The same [catch] block reached from line 193 or 208: the stream was
    taken and stored, and the recorder could not be built or started. *)
Definition handleStartRecording_recorder_throws (w : World) : World :=
  handleStartRecording_catch (take_stream w).

(** Lines 196-198: [ondataavailable]. *)
Definition ondataavailable (data : Blob) (w : World) : World :=
  let c := comp w in
  {| comp := {| mediaRecorderRef := mediaRecorderRef c;
                streamRef := streamRef c;
                audioChunksRef := audioChunksRef c ++ [data];
                recordingIntervalRef := recordingIntervalRef c;
                isRecording := isRecording c;
                recordingSeconds := recordingSeconds c;
                micError := micError c |};
     browser := browser w;
     emitted := emitted w |}.

Definition default_mime : jsstring := lit "audio/webm".

(** Line 201: [mediaRecorderRef.current?.mimeType || 'audio/webm']. *)
Definition stop_mimeType (c : Component) : jsstring :=
  match mediaRecorderRef c with
  | Some r => if nonempty (mimeType r) then mimeType r else default_mime
  | None => default_mime
  end.

(** Lines 202-203: the file built from the buffered chunks.  [iso] is
    [new Date().toISOString()]. *)
Definition recording_file (iso : jsstring) (c : Component) : File :=
  {| file_name := lit "recording-" ++ iso ++ lit ".webm";
     file_type := stop_mimeType c;
     file_bits := List.concat (audioChunksRef c) |}.

(** Lines 200-206: [onstop]. *)
Definition onstop (iso : jsstring) (w : World) : World :=
  cleanupRecording
    {| comp := comp w;
       browser := browser w;
       emitted := recording_file iso (comp w) :: emitted w |}.

(** Lines 224-229.  [stop()] itself only makes the browser deliver
    [dataavailable] and [stop] later. *)
Definition handleStopRecording (w : World) : World :=
  match mediaRecorderRef (comp w) with
  | Some _ =>
      let c := comp w in
      {| comp := {| mediaRecorderRef := mediaRecorderRef c;
                    streamRef := streamRef c;
                    audioChunksRef := audioChunksRef c;
                    recordingIntervalRef := recordingIntervalRef c;
                    isRecording := false;
                    recordingSeconds := recordingSeconds c;
                    micError := micError c |};
         browser := browser w;
         emitted := emitted w |}
  | None => w
  end.

(** Lines 211-213: one firing of an interval callback. *)
Definition tick (w : World) : World :=
  let c := comp w in
  {| comp := {| mediaRecorderRef := mediaRecorderRef c;
                streamRef := streamRef c;
                audioChunksRef := audioChunksRef c;
                recordingIntervalRef := recordingIntervalRef c;
                isRecording := isRecording c;
                recordingSeconds := S (recordingSeconds c);
                micError := micError c |};
     browser := browser w;
     emitted := emitted w |}.

(** Lines 232-236: the effect cleanup run on unmount. *)
Definition unmount (w : World) : World := cleanupRecording w.

Inductive Event :=
| StartRecording                (* handleStartRecording is invoked *)
| Granted (mime : jsstring)     (* a getUserMedia promise resolves *)
| GrantedUnusable               (* it resolves, the recorder then throws *)
| Denied                        (* a getUserMedia promise rejects *)
| DataAvailable (data : Blob)
| StopRecording                 (* handleStopRecording is invoked *)
| Stopped (iso : jsstring)      (* the recorder fires its stop event *)
| Tick
| Unmount.

Definition step (w : World) (e : Event) : World :=
  match e with
  | StartRecording => handleStartRecording w
  | Granted mime =>
      match pendingRequests (browser w) with
      | S n =>
          handleStartRecording_granted mime
            {| comp := comp w; browser := with_pending n (browser w);
               emitted := emitted w |}
      | O => w
      end
  | GrantedUnusable =>
      match pendingRequests (browser w) with
      | S n =>
          handleStartRecording_recorder_throws
            {| comp := comp w; browser := with_pending n (browser w);
               emitted := emitted w |}
      | O => w
      end
  | Denied =>
      match pendingRequests (browser w) with
      | S n =>
          handleStartRecording_catch
            {| comp := comp w; browser := with_pending n (browser w);
               emitted := emitted w |}
      | O => w
      end
  | DataAvailable data => ondataavailable data w
  | StopRecording => handleStopRecording w
  | Stopped iso => onstop iso w
  | Tick =>
      match activeIntervals (browser w) with
      | _ :: _ => tick w
      | [] => w
      end
  | Unmount => unmount w
  end.

Definition run (w : World) (es : list Event) : World := fold_left step es w.

(** A recording session is active from the moment the stream is taken
    until [cleanupRecording]. *)
Definition session_active (w : World) : bool :=
  match streamRef (comp w) with Some _ => true | None => false end.

(** Nothing of a session is held and no request is pending. *)
Definition quiescent (w : World) : bool :=
  match streamRef (comp w), recordingIntervalRef (comp w),
        pendingRequests (browser w) with
  | None, None, O => true
  | _, _, _ => false
  end.

(** What the recorder view allows: it renders the start button only while
    [isRecording] is false and the stop button only while it is true. *)
Definition enabled (w : World) (e : Event) : bool :=
  match e with
  | StartRecording => negb (isRecording (comp w))
  | StopRecording => isRecording (comp w)
  | _ => true
  end.

(** [handleStartRecording] is invoked only from rest. *)
Definition orderly (w : World) (e : Event) : bool :=
  match e with
  | StartRecording => quiescent w
  | _ => true
  end.

Fixpoint all_along (p : World -> Event -> bool) (w : World)
         (es : list Event) : bool :=
  match es with
  | [] => true
  | e :: es' => p w e && all_along p (step w e) es'
  end.

(** At most one session: at most one live stream and one running timer. *)
Definition at_most_one_session (w : World) : Prop :=
  (List.length (liveStreams (browser w)) <= 1)%nat
  /\ (List.length (activeIntervals (browser w)) <= 1)%nat.

(** What an exit path owes the session that [before] held: the refs are
    cleared, the buffer is empty, the stream it held has no running track
    and the timer it held is cancelled. *)
Definition released (before after : World) : Prop :=
  streamRef (comp after) = None
  /\ recordingIntervalRef (comp after) = None
  /\ mediaRecorderRef (comp after) = None
  /\ audioChunksRef (comp after) = []
  /\ (forall s, streamRef (comp before) = Some s ->
                ~ In s (liveStreams (browser after)))
  /\ (forall h, recordingIntervalRef (comp before) = Some h ->
                ~ In h (activeIntervals (browser after))).

(** The live streams and running timers are exactly the ones the refs
    hold, and a pending request excludes a held session. *)
Definition held_exactly (w : World) : Prop :=
  liveStreams (browser w) =
    match streamRef (comp w) with Some s => [s] | None => [] end
  /\ activeIntervals (browser w) =
       match recordingIntervalRef (comp w) with Some h => [h] | None => [] end
  /\ (pendingRequests (browser w) <= 1)%nat
  /\ (pendingRequests (browser w) = 1%nat ->
      streamRef (comp w) = None /\ recordingIntervalRef (comp w) = None).

(** *** Sample runs *)

Definition opus : jsstring := lit "audio/webm;codecs=opus".

(** A session with one buffered chunk. *)
Definition recording : World :=
  run (start true) [StartRecording; Granted opus; DataAvailable [1%N; 2%N]].

(** Two clicks on the start button before the microphone is granted. *)
Definition double_click : list Event :=
  [StartRecording; StartRecording; Granted opus; DataAvailable [1%N; 2%N];
   Granted opus].

End AudioUploader.

(** ** AudioUploader: the recording clock *)

Module Formatting.

(** The decimal digits of a number, as [Number.prototype.toString] writes a
    non-negative integer below 1e21. *)
Fixpoint uint_codes (d : Decimal.uint) : jsstring :=
  match d with
  | Decimal.Nil => []
  | Decimal.D0 d' => 48%N :: uint_codes d'
  | Decimal.D1 d' => 49%N :: uint_codes d'
  | Decimal.D2 d' => 50%N :: uint_codes d'
  | Decimal.D3 d' => 51%N :: uint_codes d'
  | Decimal.D4 d' => 52%N :: uint_codes d'
  | Decimal.D5 d' => 53%N :: uint_codes d'
  | Decimal.D6 d' => 54%N :: uint_codes d'
  | Decimal.D7 d' => 55%N :: uint_codes d'
  | Decimal.D8 d' => 56%N :: uint_codes d'
  | Decimal.D9 d' => 57%N :: uint_codes d'
  end.

Definition toString (n : nat) : jsstring := uint_codes (Nat.to_uint n).

(** [s.padStart(target, pad)] for a one-character pad: nothing is cut. *)
Definition padStart (target : nat) (pad : codeunit) (s : jsstring) : jsstring :=
  repeat pad (target - List.length s) ++ s.

(** AudioUploader, lines 258-262. *)
Definition formatTime (seconds : nat) : jsstring :=
  let minutes := (seconds / 60)%nat in
  let secs := (seconds mod 60)%nat in
  padStart 2 48%N (toString minutes) ++ lit ":" ++ padStart 2 48%N (toString secs).

(** The number a run of decimal digits stands for. *)
Definition digit_value (c : codeunit) : nat := N.to_nat (c - 48).

Definition number_of (s : jsstring) : nat :=
  fold_left (fun acc c => (10 * acc + digit_value c)%nat) s 0%nat.

Definition all_digits (s : jsstring) : Prop :=
  Forall (fun c => Json.is_digit c = true) s.

End Formatting.

(** ** geminiService.ts: fences in general *)

Module Fences.
Import Sanitize.

(** Only word characters, as a language tag is. *)
Definition all_word (tag : jsstring) : Prop :=
  Forall (fun c => is_word c = true) tag.

(** A fenced block in general: three backticks, a tag, white space, the
    content, white space, three backticks. *)
Definition fenced_with (tag ws1 t ws2 : jsstring) : jsstring :=
  backticks ++ tag ++ ws1 ++ t ++ ws2 ++ backticks.

(** The first character of a text, if there is one, is not a word
    character. *)
Definition starts_off_word (t : jsstring) : Prop :=
  match t with
  | c :: _ => is_word c = false
  | [] => True
  end.

End Fences.

(** ** App.tsx with its AudioUploader: the page *)

Module Page.
Import Json GeminiService.

(** *** The right-hand column of App (lines 134-161)

    Four conditional blocks, rendered one after the other. *)
Inductive Panel :=
| Spinner
| ErrorPanel (message : option jsstring)
| Results (analysis : json) (analysisTime : option Q)
| Placeholder (mode : App.InputMode).

Definition panels (st : App.State) : list Panel :=
  (match App.appState st with
   | App.ANALYZING => [Spinner]
   | _ => []
   end)
  ++ (match App.appState st with
      | App.ERROR => [ErrorPanel (App.error st)]
      | _ => []
      end)
  ++ (match App.appState st, App.analysis st with
      | App.SUCCESS, Some a =>
          if truthy a then [Results a (App.analysisTime st)] else []
      | _, _ => []
      end)
  ++ (match App.appState st with
      | App.IDLE =>
          if truthy_prop (App.analysis st) then []
          else [Placeholder (App.inputMode st)]
      | _ => []
      end).

(** *** The two components together

    App owns the controller state and renders one AudioUploader, which
    lives as long as the page: its props are [file], [handleFileChange],
    [handleAnalyze], [handleReset], [isLoading] and [inputMode] (lines
    121-128). *)
Record World := {
  app : App.World;
  uploader : AudioUploader.World
}.

Definition start (can_record : bool) : World :=
  {| app := App.start; uploader := AudioUploader.start can_record |}.

(** What the user does with the rendered controls, and what the
    environment does. *)
Inductive Event :=
| ClickMode (m : App.InputMode)     (* a mode button *)
| PickFile (f : File)               (* handleDrop or handleFileSelect, with a file *)
| ClickStart                        (* the microphone button *)
| ClickStop                         (* the stop button *)
| ClickRemove                       (* the bin on the file card *)
| ClickAnalyze (now : Q)            (* the analyze button *)
| ApiSettles (i : nat) (api : api_outcome) (now : Q)
| MicGranted (mime : jsstring)
| MicUnusable
| MicDenied
| DataAvailable (data : AudioUploader.Blob)
| Tick
| RecorderStops (iso : jsstring).    (* the recorder fires its stop event *)

Definition in_app (w : World) (e : App.Event) : World :=
  {| app := App.step (app w) e; uploader := uploader w |}.

Definition in_uploader (w : World) (e : AudioUploader.Event) : World :=
  {| app := app w; uploader := AudioUploader.step (uploader w) e |}.

(** [getSpeechAnalysis] is what a call in flight settles with; [onstop]
    hands its file to [handleFileChange]. *)
Definition step (E : Engine) (w : World) (e : Event) : World :=
  match e with
  | ClickMode m => in_app w (App.ModeClick m)
  | PickFile f => in_app w (App.FileChange (Some f))
  | ClickStart => in_uploader w AudioUploader.StartRecording
  | ClickStop => in_uploader w AudioUploader.StopRecording
  | ClickRemove => in_app w App.Reset
  | ClickAnalyze now => in_app w (App.Analyze now)
  | ApiSettles i api now =>
      in_app w (App.Settle i (getSpeechAnalysis E api) now)
  | MicGranted mime => in_uploader w (AudioUploader.Granted mime)
  | MicUnusable => in_uploader w AudioUploader.GrantedUnusable
  | MicDenied => in_uploader w AudioUploader.Denied
  | DataAvailable data => in_uploader w (AudioUploader.DataAvailable data)
  | Tick => in_uploader w AudioUploader.Tick
  | RecorderStops iso =>
      let f := AudioUploader.recording_file
                 iso (AudioUploader.comp (uploader w)) in
      {| app := App.step (app w) (App.FileChange (Some f));
         uploader := AudioUploader.step (uploader w) (AudioUploader.Stopped iso) |}
  end.

Definition run (E : Engine) (w : World) (es : list Event) : World :=
  fold_left (step E) es w.

Definition recording_mode (st : App.State) : bool :=
  match App.inputMode st with App.record => true | App.upload => false end.

(** Which controls are rendered and enabled (lines 264-283, 286-295 and
    297-338): without a file the uploader or the recorder, by the input
    mode, and with a file the file card; the recorder shows the stop button
    while [isRecording] and the microphone button otherwise, disabled while
    loading; the analyze button is
    [disabled={!file || isLoading || isRecording}]. *)
Definition rendered (w : World) (e : Event) : bool :=
  let st := App.ui (app w) in
  let c := AudioUploader.comp (uploader w) in
  match e with
  | PickFile _ => negb (App.has_file st) && negb (recording_mode st)
  | ClickStart =>
      negb (App.has_file st) && recording_mode st
      && negb (AudioUploader.isRecording c) && negb (App.is_analyzing st)
  | ClickStop =>
      negb (App.has_file st) && recording_mode st
      && AudioUploader.isRecording c
  | ClickRemove => App.has_file st
  | ClickAnalyze _ =>
      App.has_file st && negb (App.is_analyzing st)
      && negb (AudioUploader.isRecording c)
  | _ => true
  end.

Fixpoint all_along (E : Engine) (p : World -> Event -> bool) (w : World)
         (es : list Event) : bool :=
  match es with
  | [] => true
  | e :: es' => p w e && all_along E p (step E w e) es'
  end.

(** The state after which no control can end a recording: the component
    shows a recording, holds no recorder, and no request is pending. *)
Definition stuck (w : World) : bool :=
  let c := AudioUploader.comp (uploader w) in
  AudioUploader.isRecording c
  && match AudioUploader.mediaRecorderRef c with None => true | Some _ => false end
  && Nat.eqb (AudioUploader.pendingRequests (AudioUploader.browser (uploader w))) 0.

(** What the browser delivers during a recording. *)
Definition is_capture (e : Event) : bool :=
  match e with
  | DataAvailable _ | Tick => true
  | _ => false
  end.

Fixpoint chunks (es : list Event) : list AudioUploader.Blob :=
  match es with
  | [] => []
  | DataAvailable d :: es' => d :: chunks es'
  | _ :: es' => chunks es'
  end.

Fixpoint ticks (es : list Event) : nat :=
  match es with
  | [] => 0
  | Tick :: es' => S (ticks es')
  | _ :: es' => ticks es'
  end.

(** One recording, from the click on the microphone to the file. *)
Definition take (mime : jsstring) (during after : list Event)
           (iso : jsstring) : list Event :=
  [ClickStart; MicGranted mime] ++ during ++ [ClickStop] ++ after
  ++ [RecorderStops iso].

(** What an error message of the controller looks like when it comes from
    a failed call. *)
Definition failure_message (m : jsstring) : Prop :=
  exists e inner,
    catch_block e = ErrorObj inner /\ m = lit "Analysis Failed: " ++ inner.

(** What the controller holds in the runs of the page. *)
Definition page_invariant (w : World) : Prop :=
  let st := App.ui (app w) in
  (App.appState st = App.IDLE \/ App.appState st = App.ANALYZING ->
   App.analysis st = None /\ App.error st = None)
  /\ (App.appState st = App.SUCCESS -> App.analysis st <> None)
  /\ (App.appState st = App.ERROR -> App.error st <> None)
  /\ (forall v, App.analysis st = Some v ->
                accepted v = true /\ exists t, App.analysisTime st = Some t)
  /\ (forall m, App.error st = Some m -> failure_message m).

(** The uploader after the browser delivered [es] to a running
    recorder. *)
Definition captured (es : list Event) (u : AudioUploader.World)
  : AudioUploader.World :=
  let c := AudioUploader.comp u in
  {| AudioUploader.comp :=
       {| AudioUploader.mediaRecorderRef := AudioUploader.mediaRecorderRef c;
          AudioUploader.streamRef := AudioUploader.streamRef c;
          AudioUploader.audioChunksRef :=
            AudioUploader.audioChunksRef c ++ chunks es;
          AudioUploader.recordingIntervalRef :=
            AudioUploader.recordingIntervalRef c;
          AudioUploader.isRecording := AudioUploader.isRecording c;
          AudioUploader.recordingSeconds :=
            AudioUploader.recordingSeconds c + ticks es;
          AudioUploader.micError := AudioUploader.micError c |};
     AudioUploader.browser := AudioUploader.browser u;
     AudioUploader.emitted := AudioUploader.emitted u |}.

(** While the spinner is shown, the latest call in flight is the one for
    the file on display. *)
Definition spinner_invariant (w : World) : Prop :=
  App.appState (App.ui (app w)) = App.ANALYZING ->
  exists cs c,
    App.calls (app w) = cs ++ [c]
    /\ App.file (App.ui (app w)) = Some (App.call_file c).

End Page.

(** ** geminiService.ts: [fileToGenerativePart] *)

Module Encoding.

Open Scope N_scope.

(** [window.btoa] on a binary string, after RFC 4648: the alphabet, and
    three bytes to four characters with [=] as padding. *)
Definition b64_char (n : N) : codeunit :=
  if n <? 26 then 65 + n
  else if n <? 52 then 97 + (n - 26)
  else if n <? 62 then 48 + (n - 52)
  else if n =? 62 then 43
  else 47.

Fixpoint btoa (bytes : list N) : jsstring :=
  match bytes with
  | [] => []
  | [a] => [b64_char (a / 4); b64_char ((a mod 4) * 16); 61; 61]
  | [a; b] =>
      [b64_char (a / 4); b64_char ((a mod 4) * 16 + b / 16);
       b64_char ((b mod 16) * 4); 61]
  | a :: b :: c :: rest =>
      b64_char (a / 4)
      :: b64_char ((a mod 4) * 16 + b / 16)
      :: b64_char ((b mod 16) * 4 + c / 64)
      :: b64_char (c mod 64)
      :: btoa rest
  end.

(** The inverse, to say what a base64 text stands for. *)
Definition b64_value (c : codeunit) : N :=
  if (65 <=? c) && (c <=? 90) then c - 65
  else if (97 <=? c) && (c <=? 122) then c - 97 + 26
  else if (48 <=? c) && (c <=? 57) then c - 48 + 52
  else if c =? 43 then 62
  else 63.

Fixpoint atob (s : jsstring) : list N :=
  match s with
  | a :: b :: c :: d :: rest =>
      let va := b64_value a in
      let vb := b64_value b in
      let vc := b64_value c in
      let vd := b64_value d in
      if c =? 61 then [va * 4 + vb / 16]
      else if d =? 61 then [va * 4 + vb / 16; (vb mod 16) * 16 + vc / 4]
      else va * 4 + vb / 16
           :: (vb mod 16) * 16 + vc / 4
           :: (vc mod 4) * 64 + vd
           :: atob rest
  | _ => []
  end.

(** The content of a file or of a typed array: bytes. *)
Definition bytes_ok (bytes : list N) : Prop := Forall (fun b => b < 256) bytes.

(** What [readAsDataURL] leaves in [reader.result] for a blob with the
    given media type (the File API writes a data URL after RFC 2397). *)
Definition data_url (media : jsstring) (bytes : list N) : jsstring :=
  lit "data:" ++ media ++ lit ";base64," ++ btoa bytes.

(** [s.split(sep)] for a separator of one character. *)
Fixpoint split_on (sep : codeunit) (s : jsstring) : list jsstring :=
  match s with
  | [] => [[]]
  | c :: s' =>
      if c =? sep then [] :: split_on sep s'
      else
        match split_on sep s' with
        | seg :: segs => (c :: seg) :: segs
        | [] => [[c]]
        end
  end.

(** [reader.result] when [onloadend] fires: a string, or something else,
    which the code reads as an ArrayBuffer. *)
Inductive reader_result :=
| AsString (s : jsstring)
| AsBuffer (bytes : list N).

(** [data] is [undefined] ([None]) when the split has no second part. *)
Record InlineData := {
  data : option jsstring;
  mimeType : jsstring
}.

(** Lines 13-38. *)
Definition fileToGenerativePart (file : File) (result : reader_result)
  : InlineData :=
  {| data :=
       match result with
       | AsString s => nth_error (split_on 44 s) 1
       | AsBuffer bytes => Some (btoa bytes)
       end;
     mimeType := file_type file |}.

Definition comma_free (s : jsstring) : Prop := ~ In 44 s.

End Encoding.

(** ** AudioUploader: the size on the file card *)

Module FileCard.
Import Formatting.

(** [Math.round]: the nearest integer, a tie going up. *)
Definition Math_round (x : Q) : Z := Qfloor (x + (1 # 2)).

(** Line 310: [{Math.round(file.size / 1024)} KB]. *)
Definition size_label (size : nat) : jsstring :=
  toString (Z.to_nat (Math_round (inject_Z (Z.of_nat size) / 1024)))
  ++ lit " KB".

End FileCard.

(** ** AnalysisDisplay: the grammar tab *)

Module AnalysisDisplay.
Import Json GeminiService.

(** What one card of the grammar tab shows of an entry. *)
Record Row := {
  original : option json;
  issue : option json;
  suggestion : option json;
  tip : option json
}.

Definition row_of (entry : json) : Row :=
  {| original := get entry (lit "original");
     issue := get entry (lit "issue");
     suggestion := get entry (lit "suggestion");
     tip := get entry (lit "tip") |}.

(** Lines 87-103: the callback of [grammarAnalysis.map], entry by entry.
    Its first read is [issue.original], which throws a TypeError on
    [null]; on any other value the four reads give the property or
    [undefined]. *)
Fixpoint rows (E : Engine) (l : list json) : thrown + list Row :=
  match l with
  | [] => inr []
  | JNull :: _ =>
      inl (ErrorObj (typeErrorMessage E (lit "null") (lit "original")))
  | entry :: l' =>
      match rows E l' with
      | inl e => inl e
      | inr rs => inr (row_of entry :: rs)
      end
  end.

Inductive GrammarView :=
| NoIssues                  (* "Excellent! No issues found." *)
| Issues (cards : list Row).

(** Lines 80-104, for the array in [analysis.grammarAnalysis]. *)
Definition grammar_view (E : Engine) (l : list json)
  : thrown + GrammarView :=
  match l with
  | [] => inr NoIssues
  | _ :: _ =>
      match rows E l with
      | inl e => inl e
      | inr rs => inr (Issues rs)
      end
  end.

(** A response that passes the validation with [null] as a grammar
    entry. *)
Definition null_issue_response : jsstring :=
  qlit "{'transcript':'hi','summary':'s','grammarAnalysis':[null],'sentiment':{}}".

End AnalysisDisplay.

(* ================================================================== *)
(** * Part II: properties *)
(* ================================================================== *)

(** ** The controller *)

Section Controller.
Import App GeminiService.

(** What the guard of [handleAnalyze] does in any state without a file:
    the message is stored, nothing else changes, no call is dispatched. *)
Lemma handleAnalyze_no_file (now : Q) (st : State) :
  file st = None ->
  handleAnalyze now st = (setError (Some no_file_message) st, None).
Proof.
  intros H. unfold handleAnalyze. rewrite H. reflexivity.
Qed.

Lemma handleAnalyze_file (now : Q) (st : State) (f : File) :
  file st = Some f ->
  handleAnalyze now st =
    ({| file := Some f; analysis := None; appState := ANALYZING;
        error := None; inputMode := inputMode st; analysisTime := None |},
     Some {| call_file := f; startTime := now |}).
Proof.
  intros H. destruct st; cbn in *. subst. reflexivity.
Qed.

Lemma nth_error_snoc {A} (l : list A) (x : A) :
  nth_error (l ++ [x]) (List.length l) = Some x.
Proof.
  induction l as [|y l IH]; cbn; auto.
Qed.

Lemma remove_nth_snoc {A} (l : list A) (x : A) :
  remove_nth (List.length l) (l ++ [x]) = l.
Proof.
  induction l as [|y l IH]; cbn; [reflexivity | now rewrite IH].
Qed.

Lemma run_app (w : World) (es1 es2 : list Event) :
  run w (es1 ++ es2) = run (run w es1) es2.
Proof. apply fold_left_app. Qed.

Lemma all_along_app p (w : World) (es1 es2 : list Event) :
  all_along p w (es1 ++ es2) =
  all_along p w es1 && all_along p (run w es1) es2.
Proof.
  revert w. induction es1 as [|e es1 IH]; intros w; cbn; [reflexivity|].
  rewrite IH, andb_assoc. reflexivity.
Qed.

(** An induction principle for runs, from the last event. *)
Lemma run_ind_along (p : World -> Event -> bool) (P : World -> Prop) :
  P start ->
  (forall w e, P w -> p w e = true -> P (step w e)) ->
  forall es, all_along p start es = true -> P (run start es).
Proof.
  intros H0 Hstep es. induction es as [|e es IH] using rev_ind; intros Hes.
  - exact H0.
  - rewrite all_along_app in Hes. apply andb_true_iff in Hes as [H1 H2].
    rewrite run_app. cbn in *. rewrite andb_true_r in H2.
    apply Hstep; auto.
Qed.


(** C7.  From every state of the controller, whatever calls are in flight,
    [handleReset] and a click on either mode button lead to IDLE with file,
    analysis, error and analysisTime all null. *)
Theorem reset_and_mode_switch_clear_everything (w : World) (m : InputMode) :
  (let st := ui (step w Reset) in
   appState st = IDLE /\ file st = None /\ analysis st = None
   /\ error st = None /\ analysisTime st = None)
  /\ (let st := ui (step w (ModeClick m)) in
      appState st = IDLE /\ file st = None /\ analysis st = None
      /\ error st = None /\ analysisTime st = None /\ inputMode st = m).
Proof.
  cbn. repeat split.
Qed.

(** In every state the controller can reach, by any run at all, the result
    and the duration are both present or both absent. *)
Lemma result_and_duration_together (es : list Event) :
  let st := ui (run start es) in
  analysis st = None <-> analysisTime st = None.
Proof.
  cbn. induction es as [|e es IH] using rev_ind.
  - cbn. tauto.
  - rewrite run_app. cbn. set (w := run start es) in *.
    destruct e as [f | now | i r now | | m]; cbn.
    + destruct f; cbn; tauto.
    + unfold handleAnalyze. destruct (file (ui w)); cbn; [tauto | exact IH].
    + destruct (nth_error (calls w) i); [|exact IH].
      destruct r; cbn; [split; discriminate | exact IH].
    + tauto.
    + tauto.
Qed.

(** C6.  With a file present, [handleAnalyze] at clock reading [t0] enters
    ANALYZING with result and duration null and dispatches one call; when
    that call resolves with [result] at clock reading [t1], the controller
    is in SUCCESS with the result and with analysisTime = t1 - t0, which is
    not negative on a clock that does not run backwards.  If the call
    rejects instead, no duration is recorded.  Result and duration are
    written by the same step, and in every reachable state they are both
    present or both absent. *)
Theorem successful_analysis_records_elapsed_time
        (w : World) (f : File) (t0 t1 : Q) (result : Json.json) :
  file (ui w) = Some f ->
  (t0 <= t1)%Q ->
  let w1 := step w (Analyze t0) in
  let k := List.length (calls w) in
  let w2 := step w1 (Settle k (Returns result) t1) in
  (appState (ui w1) = ANALYZING /\ analysis (ui w1) = None
   /\ analysisTime (ui w1) = None
   /\ calls w1 = calls w ++ [{| call_file := f; startTime := t0 |}])
  /\ (appState (ui w2) = SUCCESS /\ analysis (ui w2) = Some result
      /\ analysisTime (ui w2) = Some (t1 - t0)%Q /\ (0 <= t1 - t0)%Q
      /\ calls w2 = calls w)
  /\ (forall e, let w3 := step w1 (Settle k (Throws e) t1) in
                appState (ui w3) = ERROR /\ analysisTime (ui w3) = None
                /\ analysis (ui w3) = None)
  /\ (forall es, let st := ui (run start es) in
                 analysis st = None <-> analysisTime st = None).
Proof.
  intros Hf Ht. cbn zeta.
  assert (H1 : step w (Analyze t0) =
               {| ui := fst (handleAnalyze t0 (ui w));
                  calls := calls w ++ [{| call_file := f; startTime := t0 |}] |}).
  { cbn. rewrite (handleAnalyze_file t0 (ui w) f Hf). reflexivity. }
  rewrite H1, (handleAnalyze_file t0 (ui w) f Hf). cbn [fst].
  split; [cbn; auto|].
  split.
  - cbn [step calls ui]. rewrite nth_error_snoc, remove_nth_snoc. cbn.
    repeat split; auto.
    unfold Qminus. rewrite <- Qle_minus_iff. exact Ht.
  - split.
    + intros e. cbn [step calls ui]. rewrite nth_error_snoc. cbn. auto.
    + exact result_and_duration_together.
Qed.

Lemma successful_analysis_records_elapsed_time_witness :
  let w := run start [FileChange (Some (clip (lit "a.wav")))] in
  let w2 := run w [Analyze 10; Settle 0 (Returns sample_result) (25 # 2)] in
  appState (ui w2) = SUCCESS /\ analysisTime (ui w2) = Some ((25 # 2) - 10)%Q.
Proof.
  pose proof (@successful_analysis_records_elapsed_time
                (run start [FileChange (Some (clip (lit "a.wav")))])
                (clip (lit "a.wav")) 10 (25 # 2) sample_result
                eq_refl) as H.
  assert (Ht : (10 <= 25 # 2)%Q) by (unfold Qle; cbn; lia).
  specialize (H Ht). cbn zeta in H.
  destruct H as (_ & (Hs & _ & Hd & _) & _).
  split; [exact Hs | exact Hd].
Defined.

(** C2 as stated fails.  [stale_run] uses only what the rendered controls
    allow, and it ends in ERROR with the result of the first, stale call
    still present. *)
Lemma stale_settlement_breaks_invariant :
  all_along enabled start stale_run = true
  /\ appState (ui (run start stale_run)) = ERROR
  /\ analysis (ui (run start stale_run)) = Some sample_result
  /\ ~ result_error_invariant (ui (run start stale_run)).
Proof.
  split; [reflexivity|]. split; [reflexivity|]. split; [reflexivity|].
  intros [H _]. cbn in H.
  assert (E : ERROR = SUCCESS) by (apply H; discriminate).
  discriminate E.
Qed.

Lemma orderly_invariant_step (w : World) (e : Event) :
  orderly_invariant w -> orderly w e = true -> orderly_invariant (step w e).
Proof.
  unfold orderly_invariant, result_error_invariant.
  intros (Hinv & Hlen & Hfly) He.
  destruct e as [f | now | i r now | | m].
  - (* FileChange *)
    cbn [step calls ui]. repeat split; try assumption.
    all: destruct f; cbn; intros; try congruence; auto.
  - (* Analyze *)
    cbn in He. apply andb_true_iff in He as [Hf Hc].
    unfold has_file in Hf. destruct (file (ui w)) as [f|] eqn:Ef; [|discriminate].
    unfold idle_calls in Hc. destruct (calls w) eqn:Ec; [|discriminate].
    cbn [step]. rewrite (handleAnalyze_file now (ui w) f Ef), Ec. cbn.
    repeat split; intros; try congruence; auto.
  - (* Settle *)
    cbn [step]. destruct (nth_error (calls w) i) as [c|] eqn:En.
    + destruct (calls w) as [|c0 [|c1 l]] eqn:Ec.
      * destruct i; discriminate En.
      * destruct Hfly as [Ha Her]; [discriminate|].
        destruct i as [|i]; [|destruct i; discriminate En].
        destruct r; cbn; rewrite ?Ha, ?Her;
          repeat split; intros; try congruence; auto.
      * cbn in Hlen. lia.
    + tauto.
  - (* Reset *)
    cbn. repeat split; intros; try congruence; auto.
  - (* ModeClick *)
    cbn. repeat split; intros; try congruence; auto.
Qed.

(** C2, amended.  In every state reached by a run in which [handleAnalyze]
    is invoked only with a file present and only while no earlier call is
    in flight, the result is present only in SUCCESS and the error message
    only in ERROR. *)
Theorem orderly_runs_keep_result_error_invariant (es : list Event) :
  all_along orderly start es = true ->
  result_error_invariant (ui (run start es)).
Proof.
  intros H.
  apply (@run_ind_along orderly orderly_invariant); try assumption.
  - unfold orderly_invariant, result_error_invariant. cbn.
    repeat split; intros; try congruence; auto.
  - exact orderly_invariant_step.
Qed.

Lemma orderly_runs_keep_result_error_invariant_witness :
  result_error_invariant
    (ui (run start [FileChange (Some (clip (lit "a.wav")));
                    Analyze 0;
                    Settle 0 (Returns sample_result) 2])).
Proof.
  apply (@orderly_runs_keep_result_error_invariant
           [FileChange (Some (clip (lit "a.wav")));
            Analyze 0;
            Settle 0 (Returns sample_result) 2]).
  reflexivity.
Defined.

Lemma analyzing_step (w : World) (e : Event) :
  (appState (ui w) = ANALYZING ->
   analysis (ui w) = None /\ error (ui w) = None
   /\ analysisTime (ui w) = None) ->
  with_file w e = true ->
  appState (ui (step w e)) = ANALYZING ->
  analysis (ui (step w e)) = None /\ error (ui (step w e)) = None
  /\ analysisTime (ui (step w e)) = None.
Proof.
  intros Hinv He.
  destruct e as [f | now | i r now | | m].
  - cbn. destruct f; cbn; auto.
  - cbn in He. unfold has_file in He.
    destruct (file (ui w)) as [f|] eqn:Ef; [|discriminate].
    cbn [step]. rewrite (handleAnalyze_file now (ui w) f Ef). cbn. auto.
  - cbn [step]. destruct (nth_error (calls w) i); [|exact Hinv].
    destruct r; cbn; discriminate.
  - cbn. discriminate.
  - cbn. discriminate.
Qed.

(** C10.  In every state reached by a run in which [handleAnalyze] is
    invoked with a file present (the analyze button is disabled otherwise),
    whenever the workflow state is ANALYZING the result, the error message
    and the duration are all null. *)
Theorem analyzing_state_has_no_result (es : list Event) :
  all_along with_file start es = true ->
  appState (ui (run start es)) = ANALYZING ->
  analysis (ui (run start es)) = None
  /\ error (ui (run start es)) = None
  /\ analysisTime (ui (run start es)) = None.
Proof.
  intros H.
  apply (@run_ind_along with_file
           (fun w => appState (ui w) = ANALYZING ->
                     analysis (ui w) = None /\ error (ui w) = None
                     /\ analysisTime (ui w) = None)); try assumption.
  - cbn. discriminate.
  - exact analyzing_step.
Qed.

Lemma analyzing_state_has_no_result_witness :
  let w := run start [FileChange (Some (clip (lit "a.wav"))); Analyze 0] in
  appState (ui w) = ANALYZING
  /\ analysis (ui w) = None /\ error (ui w) = None
  /\ analysisTime (ui w) = None.
Proof.
  split; [reflexivity|].
  apply (@analyzing_state_has_no_result
           [FileChange (Some (clip (lit "a.wav"))); Analyze 0]);
    reflexivity.
Defined.

(** The guard of [handleAnalyze] is the one handler path outside that
    discipline: run in ANALYZING after the file was withdrawn, it stores its
    message and the state stays ANALYZING. *)
Remark guard_message_while_analyzing :
  all_along with_file start withdrawn_run = false
  /\ appState (ui (run start withdrawn_run)) = ANALYZING
  /\ error (ui (run start withdrawn_run)) = Some no_file_message.
Proof.
  repeat split.
Qed.

End Controller.


(** ** The recorder *)

Section Recorder.
Import AudioUploader.

Lemma remove_id_not_in (x : positive) (l : list positive) :
  ~ In x (remove_id x l).
Proof.
  unfold remove_id. intros H. apply filter_In in H as [_ H].
  rewrite Pos.eqb_refl in H. discriminate.
Qed.

Lemma remove_id_subset (x y : positive) (l : list positive) :
  In y (remove_id x l) -> In y l.
Proof.
  unfold remove_id. intros H. apply filter_In in H. tauto.
Qed.

Lemma remove_id_single (x : positive) : remove_id x [x] = [].
Proof.
  unfold remove_id. cbn. rewrite Pos.eqb_refl. reflexivity.
Qed.

(** [cleanupRecording] releases whatever the refs hold, in any state. *)
Lemma cleanupRecording_releases (w w' : World) :
  streamRef (comp w') = streamRef (comp w) ->
  recordingIntervalRef (comp w') = recordingIntervalRef (comp w) ->
  browser w' = browser w ->
  released w (cleanupRecording w').
Proof.
  intros Hs Hi Hb. unfold released, cleanupRecording. cbn.
  rewrite Hs, Hi, Hb. repeat split.
  - intros s E. rewrite E.
    destruct (recordingIntervalRef (comp w)); cbn; apply remove_id_not_in.
  - intros h E. rewrite E.
    destruct (streamRef (comp w)); cbn; apply remove_id_not_in.
Qed.

Lemma stop_mimeType_nonempty (c : Component) : stop_mimeType c <> [].
Proof.
  unfold stop_mimeType.
  destruct (mediaRecorderRef c) as [r|]; [|discriminate].
  destruct (mimeType r); cbn; discriminate.
Qed.

Lemma handleStopRecording_keeps (w : World) :
  streamRef (comp (handleStopRecording w)) = streamRef (comp w)
  /\ recordingIntervalRef (comp (handleStopRecording w))
     = recordingIntervalRef (comp w)
  /\ mediaRecorderRef (comp (handleStopRecording w))
     = mediaRecorderRef (comp w)
  /\ audioChunksRef (comp (handleStopRecording w)) = audioChunksRef (comp w)
  /\ browser (handleStopRecording w) = browser w
  /\ emitted (handleStopRecording w) = emitted w.
Proof.
  unfold handleStopRecording.
  destruct (mediaRecorderRef (comp w)) eqn:E; cbn; rewrite ?E; repeat split.
Qed.

(** C8.  The stop handler, in any state and so also with an empty chunk
    buffer, hands over one file made of the buffered chunks (no bytes when
    there are none) whose type is the recorder's MIME type, or audio/webm
    when the recorder is gone or reports none; and each exit path (the stop
    handler, the catch block of the start handler before and after the
    stream was taken, the unmount cleanup) clears the refs and the buffer,
    stops the tracks of the stream the session held and cancels its
    timer. *)
Theorem every_exit_path_releases_session (w : World) (iso : jsstring) :
  (let f := recording_file iso (comp w) in
   emitted (onstop iso w) = f :: emitted w
   /\ emitted (run w [StopRecording; Stopped iso]) = f :: emitted w
   /\ file_bits f = List.concat (audioChunksRef (comp w))
   /\ (audioChunksRef (comp w) = [] -> file_bits f = [])
   /\ file_type f <> []
   /\ (forall r, mediaRecorderRef (comp w) = Some r ->
                 mimeType r <> [] -> file_type f = mimeType r)
   /\ (forall r, mediaRecorderRef (comp w) = Some r ->
                 mimeType r = [] -> file_type f = default_mime)
   /\ (mediaRecorderRef (comp w) = None -> file_type f = default_mime))
  /\ released w (onstop iso w)
  /\ released w (run w [StopRecording; Stopped iso])
  /\ released w (handleStartRecording_catch w)
  /\ released (take_stream w) (handleStartRecording_recorder_throws w)
  /\ released w (unmount w).
Proof.
  destruct (handleStopRecording_keeps w) as (Ks & Ki & Kr & Kc & Kb & Ke).
  split; [|split; [|split; [|split; [|split]]]].
  - cbn zeta. split; [reflexivity|]. split.
    { cbn. rewrite Ke. unfold recording_file, stop_mimeType.
      rewrite Kr, Kc. reflexivity. }
    split; [reflexivity|]. split; [intros H; cbn; now rewrite H|].
    split; [apply stop_mimeType_nonempty|].
    cbn. unfold stop_mimeType. repeat split.
    + intros r Hr Hm. rewrite Hr.
      destruct (mimeType r); [congruence | reflexivity].
    + intros r Hr Hm. rewrite Hr, Hm. reflexivity.
    + intros Hr. rewrite Hr. reflexivity.
  - apply cleanupRecording_releases; reflexivity.
  - cbn. apply cleanupRecording_releases; cbn; assumption.
  - apply cleanupRecording_releases; reflexivity.
  - apply cleanupRecording_releases; reflexivity.
  - apply cleanupRecording_releases; reflexivity.
Qed.

(** C5 as stated fails.  [handleStartRecording] has no guard: invoked while
    the session [recording] is active it is not rejected, and when its
    request is granted the buffered chunk is dropped and a second stream and
    a second timer run beside the first ones, which no ref holds any more.
    Two clicks before the first grant, which the recorder view allows, end
    in the same state. *)
Lemma second_start_replaces_session :
  (session_active recording = true
   /\ audioChunksRef (comp recording) = [[1%N; 2%N]]
   /\ let w := run recording [StartRecording; Granted opus] in
      audioChunksRef (comp w) = []
      /\ streamRef (comp w) = Some 2%positive
      /\ liveStreams (browser w) = [2%positive; 1%positive]
      /\ activeIntervals (browser w) = [2%positive; 1%positive]
      /\ ~ at_most_one_session w)
  /\ (all_along enabled (start true) double_click = true
      /\ ~ at_most_one_session (run (start true) double_click)).
Proof.
  unfold at_most_one_session.
  repeat split; try reflexivity; cbn; intros [H _]; lia.
Qed.

Lemma recorder_run_app (w : World) (es1 es2 : list Event) :
  run w (es1 ++ es2) = run (run w es1) es2.
Proof. apply fold_left_app. Qed.

Lemma recorder_all_along_app p (w : World) (es1 es2 : list Event) :
  all_along p w (es1 ++ es2) =
  all_along p w es1 && all_along p (run w es1) es2.
Proof.
  revert w. induction es1 as [|e es1 IH]; intros w; cbn; [reflexivity|].
  rewrite IH, andb_assoc. reflexivity.
Qed.

Lemma cleanupRecording_held (w : World) :
  held_exactly w -> held_exactly (cleanupRecording w).
Proof.
  unfold held_exactly, cleanupRecording. cbn.
  intros (Hl & Ha & Hp & Hq).
  destruct (recordingIntervalRef (comp w)) as [h|],
           (streamRef (comp w)) as [s|]; cbn; rewrite ?Hl, ?Ha;
    cbn; rewrite ?Pos.eqb_refl; cbn; repeat split; auto.
Qed.

(** A settled request finds the refs empty: compute the continuation. *)
Ltac settle_request Hl Ha Es Ei :=
  rewrite Es in Hl; rewrite Ei in Ha;
  unfold held_exactly; cbn; rewrite ?Es, ?Ei; cbn; rewrite ?Hl, ?Ha;
  unfold remove_id; cbn; rewrite ?Pos.eqb_refl; cbn;
  repeat split; auto; discriminate.

Lemma held_exactly_step (w : World) (e : Event) :
  held_exactly w -> orderly w e = true -> held_exactly (step w e).
Proof.
  intros H He. pose proof H as (Hl & Ha & Hp & Hq).
  destruct e as [ | mime | | | data | | iso | | ]; cbn [step].
  - (* StartRecording *)
    cbn in He. unfold quiescent in He.
    destruct (streamRef (comp w)) eqn:Es; [discriminate|].
    destruct (recordingIntervalRef (comp w)) eqn:Ei; [discriminate|].
    destruct (pendingRequests (browser w)) eqn:Ep; [|discriminate].
    unfold handleStartRecording, held_exactly.
    destruct (supported (browser w)); cbn; rewrite ?Es, ?Ei, ?Ep;
      repeat split; auto; lia.
  - (* Granted *)
    destruct (pendingRequests (browser w)) as [|n] eqn:Ep; [exact H|].
    assert (n = 0%nat) by lia. subst n.
    destruct (Hq eq_refl) as [Es Ei].
    settle_request Hl Ha Es Ei.
  - (* GrantedUnusable *)
    destruct (pendingRequests (browser w)) as [|n] eqn:Ep; [exact H|].
    assert (n = 0%nat) by lia. subst n.
    destruct (Hq eq_refl) as [Es Ei].
    settle_request Hl Ha Es Ei.
  - (* Denied *)
    destruct (pendingRequests (browser w)) as [|n] eqn:Ep; [exact H|].
    assert (n = 0%nat) by lia. subst n.
    destruct (Hq eq_refl) as [Es Ei].
    settle_request Hl Ha Es Ei.
  - (* DataAvailable *)
    exact H.
  - (* StopRecording *)
    unfold handleStopRecording.
    destruct (mediaRecorderRef (comp w)); exact H.
  - (* Stopped *)
    apply (cleanupRecording_held
             {| comp := comp w; browser := browser w;
                emitted := recording_file iso (comp w) :: emitted w |}).
    exact H.
  - (* Tick *)
    destruct (activeIntervals (browser w)); exact H.
  - (* Unmount *)
    apply cleanupRecording_held. exact H.
Qed.

Lemma orderly_recorder_runs_held (can_record : bool) (es : list Event) :
  all_along orderly (start can_record) es = true ->
  held_exactly (run (start can_record) es).
Proof.
  induction es as [|e es IH] using rev_ind; intros Hes.
  - unfold held_exactly. cbn. repeat split; auto; discriminate.
  - rewrite recorder_all_along_app in Hes.
    apply andb_true_iff in Hes as [H1 H2].
    rewrite recorder_run_app. cbn in *. rewrite andb_true_r in H2.
    apply held_exactly_step; auto.
Qed.

(** C5, amended.  In every run in which [handleStartRecording] is invoked
    only from rest (no stream and no timer held, no microphone request
    pending), at most one stream is live and at most one timer is running,
    and they are the ones the refs hold. *)
Theorem orderly_runs_have_one_session (can_record : bool) (es : list Event) :
  all_along orderly (start can_record) es = true ->
  at_most_one_session (run (start can_record) es)
  /\ held_exactly (run (start can_record) es).
Proof.
  intros H. pose proof (orderly_recorder_runs_held can_record es H) as Hh.
  split; [|exact Hh].
  destruct Hh as (Hl & Ha & _). unfold at_most_one_session.
  rewrite Hl, Ha.
  destruct (streamRef _), (recordingIntervalRef _); cbn; lia.
Qed.

Lemma orderly_runs_have_one_session_witness :
  at_most_one_session
    (run (start true)
         [StartRecording; Granted opus; DataAvailable [7%N];
          StopRecording; Stopped (lit "2024-01-01T00:00:00.000Z");
          StartRecording; Granted opus]).
Proof.
  apply (@orderly_runs_have_one_session true
           [StartRecording; Granted opus; DataAvailable [7%N];
            StopRecording; Stopped (lit "2024-01-01T00:00:00.000Z");
            StartRecording; Granted opus]).
  reflexivity.
Defined.

(** After the stop handler or the unmount cleanup, an orderly run has no
    live stream and no running timer at all. *)
Corollary orderly_exit_leaves_nothing_running
          (can_record : bool) (es : list Event) (e : Event) :
  all_along orderly (start can_record) es = true ->
  (exists iso, e = Stopped iso) \/ e = Unmount ->
  let w := run (start can_record) (es ++ [e]) in
  liveStreams (browser w) = [] /\ activeIntervals (browser w) = [].
Proof.
  intros H He. cbn zeta. rewrite recorder_run_app.
  pose proof (orderly_recorder_runs_held can_record es H) as Hh.
  set (w0 := run (start can_record) es) in *.
  assert (Hc : forall w1, held_exactly w1 ->
                 liveStreams (browser (cleanupRecording w1)) = []
                 /\ activeIntervals (browser (cleanupRecording w1)) = []).
  { intros w1 Hw1. apply cleanupRecording_held in Hw1.
    destruct Hw1 as (Hl & Ha & _). cbn in Hl, Ha. auto. }
  destruct He as [[iso ->] | ->]; cbn.
  - apply (Hc {| comp := comp w0; browser := browser w0;
                 emitted := recording_file iso (comp w0) :: emitted w0 |}).
    exact Hh.
  - apply Hc. exact Hh.
Qed.

End Recorder.


(** ** Fence stripping *)

Section Fence.
Import Regex Sanitize.

Lemma star_greedy_max {A} (p : codeunit -> bool) (k : jsstring -> option A)
      (pre rest : jsstring) (r : A) :
  Forall (fun c => p c = true) pre ->
  star_greedy p k rest = Some r ->
  star_greedy p k (pre ++ rest) = Some r.
Proof.
  intros Hp Hr. induction Hp as [|c pre Hc _ IH]; cbn; [exact Hr|].
  rewrite Hc, IH. reflexivity.
Qed.

Lemma star_greedy_sound {A} (p : codeunit -> bool) (k : jsstring -> option A)
      (s : jsstring) (r : A) :
  star_greedy p k s = Some r ->
  exists pre rest, s = pre ++ rest /\ Forall (fun c => p c = true) pre
                   /\ k rest = Some r.
Proof.
  induction s as [|c s IH]; cbn.
  - intros H. exists [], []. auto.
  - destruct (p c) eqn:Hc.
    + destruct (star_greedy p k s) as [r'|] eqn:Hs; cbn.
      * intros [= ->]. destruct (IH eq_refl) as (pre & rest & -> & Hp & Hk).
        exists (c :: pre), rest. auto.
      * intros H. exists [], (c :: s). auto.
    + intros H. exists [], (c :: s). auto.
Qed.

Lemma star_lazy_first {A} (p : codeunit -> bool) (k : jsstring -> option A)
      (pre rest : jsstring) (r : A) :
  Forall (fun c => p c = true) pre ->
  (forall pre1 pre2, pre = pre1 ++ pre2 -> pre2 <> [] -> k (pre2 ++ rest) = None) ->
  k rest = Some r ->
  star_lazy p k (pre ++ rest) = Some r.
Proof.
  intros Hp. induction Hp as [|c pre Hc _ IH]; intros Hnone Hr.
  - cbn. destruct rest; cbn; rewrite Hr; reflexivity.
  - assert (H0 : k (c :: pre ++ rest) = None)
      by (apply (Hnone [] (c :: pre)); [reflexivity | discriminate]).
    cbn. rewrite H0. cbn. rewrite Hc. apply IH; [|exact Hr].
    intros pre1 pre2 -> Hne. apply (Hnone (c :: pre1) pre2); auto.
Qed.

Lemma strip_prefix_sound (l s rest : jsstring) :
  strip_prefix l s = Some rest -> s = l ++ rest.
Proof.
  revert s. induction l as [|x l IH]; intros [|y s]; cbn; try congruence.
  destruct (N.eqb_spec x y); [|discriminate]. subst. intros H. f_equal. auto.
Qed.

Lemma strip_prefix_app (l rest : jsstring) : strip_prefix l (l ++ rest) = Some rest.
Proof. induction l; cbn; [reflexivity|]. now rewrite N.eqb_refl. Qed.

Lemma closing_sound (s : jsstring) (cs r : caps) :
  matchN (Seq (Lit backticks) Eol) (fun _ c => Some c) s cs = Some r ->
  s = backticks /\ r = cs.
Proof.
  cbn [matchN]. destruct (strip_prefix backticks s) as [x|] eqn:E; [|discriminate].
  destruct x; [|discriminate]. intros [= <-].
  apply strip_prefix_sound in E. rewrite app_nil_r in E. auto.
Qed.

Lemma spaces_closing_sound (s : jsstring) (cs r : caps) :
  matchN (Seq (Star Space) (Seq (Lit backticks) Eol)) (fun _ c => Some c) s cs
  = Some r ->
  exists w, s = w ++ backticks /\ all_space w /\ r = cs.
Proof.
  intros H. cbn [matchN] in H.
  apply star_greedy_sound in H as (pre & rest & -> & Hp & H).
  apply (closing_sound rest cs r) in H as [-> ->]. eauto.
Qed.

Lemma opt_lf_unfold (rest : node) (K : jsstring -> caps -> option caps)
      (s : jsstring) (cs : caps) :
  matchN (Seq (Opt (Lit [10%N])) rest) K s cs =
  orelse
    match strip_prefix [10%N] s with
    | Some s' =>
        if Nat.eqb (List.length s') (List.length s) then None
        else matchN rest K s' cs
    | None => None
    end
    (matchN rest K s cs).
Proof. reflexivity. Qed.

Lemma fence_tail_sound (s : jsstring) (cs r : caps) :
  matchN fence_tail (fun _ c => Some c) s cs = Some r ->
  exists w, s = w ++ backticks /\ all_space w /\ r = cs.
Proof.
  unfold fence_tail. rewrite opt_lf_unfold.
  destruct (strip_prefix [10%N] s) as [s1|] eqn:E1; cbn [orelse].
  - destruct (Nat.eqb _ _); cbn [orelse]; [apply spaces_closing_sound|].
    destruct (matchN _ _ s1 cs) as [r1|] eqn:E2; cbn [orelse];
      [|apply spaces_closing_sound].
    intros [= ->].
    apply spaces_closing_sound in E2 as (w & -> & Hw & ->).
    apply strip_prefix_sound in E1.
    exists (10%N :: w). repeat split; auto. constructor; auto.
  - apply spaces_closing_sound.
Qed.

Lemma spaces_closing_complete (w : jsstring) (cs : caps) :
  all_space w ->
  matchN (Seq (Star Space) (Seq (Lit backticks) Eol)) (fun _ c => Some c)
         (w ++ backticks) cs = Some cs.
Proof.
  intros Hw. cbn [matchN]. apply star_greedy_max; [exact Hw|]. reflexivity.
Qed.

Lemma eqb_succ (n : nat) : Nat.eqb n (S n) = false.
Proof. apply Nat.eqb_neq. lia. Qed.

Lemma fence_tail_complete (w : jsstring) (cs : caps) :
  all_space w ->
  matchN fence_tail (fun _ c => Some c) (w ++ backticks) cs = Some cs.
Proof.
  intros Hw. unfold fence_tail. rewrite opt_lf_unfold.
  destruct w as [|c w].
  - reflexivity.
  - cbn [app strip_prefix]. destruct (N.eqb 10 c).
    + cbn [List.length]. rewrite eqb_succ.
      inversion Hw; subst. rewrite spaces_closing_complete by assumption.
      reflexivity.
    + cbn [orelse]. apply (spaces_closing_complete (c :: w)). exact Hw.
Qed.

Lemma braced_suffix_ends (body pre1 pre2 : jsstring) :
  braced body = pre1 ++ pre2 -> pre2 <> [] ->
  exists pre2', pre2 = pre2' ++ [125%N].
Proof.
  intros H Hne. destruct (exists_last Hne) as (l & a & ->).
  exists l. f_equal. f_equal.
  unfold braced in H. rewrite app_comm_cons, app_assoc in H.
  apply app_inj_tail in H as [_ H]. congruence.
Qed.

Lemma fence_tail_rejects (y : jsstring) (cs : caps) :
  ~ all_space y ->
  matchN fence_tail (fun _ c => Some c) (y ++ backticks) cs = None.
Proof.
  intros Hy. destruct (matchN _ _ _ cs) as [r|] eqn:E; [|reflexivity].
  apply fence_tail_sound in E as (w & E & Hw & _).
  apply app_inv_tail in E. subst w. contradiction.
Qed.

Lemma consumed_app (a b : jsstring) : consumed (a ++ b) b = a.
Proof.
  unfold consumed. rewrite length_app, Nat.add_sub.
  rewrite firstn_app, Nat.sub_diag, firstn_all. cbn. apply app_nil_r.
Qed.

Lemma cap_setcap (i : nat) (v : jsstring) (cs : caps) :
  cap i (setcap i v cs) = Some v.
Proof. cbn. now rewrite Nat.eqb_refl. Qed.

Lemma fence_body_unfold (s : jsstring) (cs : caps) :
  matchN fence_body K0 s cs =
  star_lazy (cls_test Any)
            (fun s' => matchN fence_tail K0 s' (setcap 2 (consumed s s') cs)) s.
Proof. reflexivity. Qed.

Lemma braced_not_space (body pre1 pre2 rest : jsstring) :
  braced body = pre1 ++ pre2 -> pre2 <> [] -> ~ all_space (pre2 ++ rest).
Proof.
  intros H Hne Hs.
  destruct (braced_suffix_ends body pre1 pre2 H Hne) as [x ->].
  apply Forall_app in Hs as [Hs _]. apply Forall_app in Hs as [_ Hs].
  inversion Hs as [|? ? H125 _]. discriminate H125.
Qed.

Lemma fence_body_match (body ws2 : jsstring) (cs : caps) :
  all_space ws2 ->
  matchN fence_body K0 (braced body ++ ws2 ++ [10%N] ++ backticks) cs
  = Some (setcap 2 (braced body) cs).
Proof.
  intros H2. rewrite fence_body_unfold.
  apply star_lazy_first.
  - apply Forall_forall. reflexivity.
  - intros pre1 pre2 E Hne.
    replace (pre2 ++ ws2 ++ [10%N] ++ backticks)
      with ((pre2 ++ ws2 ++ [10%N]) ++ backticks)
      by (now rewrite <- !app_assoc).
    apply fence_tail_rejects. eapply braced_not_space; eauto.
  - rewrite consumed_app.
    replace (ws2 ++ [10%N] ++ backticks) with ((ws2 ++ [10%N]) ++ backticks)
      by (now rewrite <- !app_assoc).
    apply fence_tail_complete. apply Forall_app. split; [exact H2|].
    repeat constructor.
Qed.

Lemma fence_after_spaces (ws body ws2 : jsstring) (cs : caps) :
  all_space ws -> all_space ws2 ->
  matchN (Seq (Star Space) (Seq (Opt (Lit [10%N])) fence_body)) K0
         (ws ++ braced body ++ ws2 ++ [10%N] ++ backticks) cs
  = Some (setcap 2 (braced body) cs).
Proof.
  intros H1 H2.
  change (matchN (Seq (Star Space) (Seq (Opt (Lit [10%N])) fence_body)) K0
                 (ws ++ braced body ++ ws2 ++ [10%N] ++ backticks) cs)
    with (star_greedy (cls_test Space)
            (fun s' => matchN (Seq (Opt (Lit [10%N])) fence_body) K0 s' cs)
            (ws ++ braced body ++ ws2 ++ [10%N] ++ backticks)).
  apply star_greedy_max; [exact H1|].
  unfold braced at 1. cbn [app star_greedy cls_test].
  change (is_space 123) with false. cbv iota.
  rewrite opt_lf_unfold. cbn [strip_prefix].
  change (N.eqb 10 123) with false. cbv iota. cbn [orelse].
  apply (fence_body_match body ws2 cs H2).
Qed.

Lemma star_greedy_stop {A} (p : codeunit -> bool) (k : jsstring -> option A)
      (c : codeunit) (s : jsstring) :
  p c = false -> star_greedy p k (c :: s) = k (c :: s).
Proof. intros H. cbn. now rewrite H. Qed.

Lemma shorter_than_tagged (s : jsstring) :
  Nat.eqb (List.length s) (List.length (lit "json" ++ s)) = false.
Proof.
  apply Nat.eqb_neq. rewrite length_app.
  change (List.length (lit "json")) with 4%nat. lia.
Qed.

Lemma fence_match (ws1 body ws2 : jsstring) :
  all_space ws1 -> all_space ws2 ->
  exists cs,
    match_anchored fenceRegex (fenced (ws1 ++ braced body ++ ws2)) = Some cs
    /\ cap 2 cs = Some (braced body).
Proof.
  intros H1 H2.
  remember (ws1 ++ braced body ++ ws2 ++ [10%N] ++ backticks) as tl eqn:Etl.
  assert (E : fenced (ws1 ++ braced body ++ ws2)
              = backticks ++ lit "json" ++ 10%N :: tl).
  { unfold fenced. subst tl.
    change (lit "```json") with (backticks ++ lit "json").
    now rewrite <- !app_assoc. }
  rewrite E. clear E.
  exists (setcap 2 (braced body) (setcap 1 (lit "json") [])).
  split; [|apply cap_setcap].
  unfold match_anchored.
  change (matchN fenceRegex (fun _ c => Some c)
                 (backticks ++ lit "json" ++ 10%N :: tl) [])
    with (match strip_prefix backticks (backticks ++ lit "json" ++ 10%N :: tl) with
          | Some s' =>
              orelse
                (star_greedy (cls_test Word)
                   (fun s'' =>
                      if Nat.eqb (List.length s'') (List.length s') then None
                      else matchN (Seq (Star Space) (Seq (Opt (Lit [10%N])) fence_body))
                                  K0 s'' (setcap 1 (consumed s' s'') []))
                   s')
                (matchN (Seq (Star Space) (Seq (Opt (Lit [10%N])) fence_body))
                        K0 s' [])
          | None => None
          end).
  rewrite strip_prefix_app.
  rewrite (@star_greedy_max _ (cls_test Word) _ (lit "json") (10%N :: tl)
             (setcap 2 (braced body) (setcap 1 (lit "json") []))).
  - reflexivity.
  - repeat constructor.
  - rewrite star_greedy_stop by reflexivity.
    match goal with
    | |- (if ?b then _ else _) = _ =>
        replace b with false by (symmetry; apply shorter_than_tagged)
    end.
    rewrite consumed_app. subst tl.
    apply (fence_after_spaces (10%N :: ws1)); auto.
    constructor; auto.
Qed.

Lemma trimStart_stop (c : codeunit) (s : jsstring) :
  is_space c = false -> trimStart (c :: s) = c :: s.
Proof. intros H. cbn. now rewrite H. Qed.

Lemma trimStart_spaces (w s : jsstring) :
  all_space w -> trimStart (w ++ s) = trimStart s.
Proof.
  intros H. induction H as [|c w Hc _ IH]; cbn; [reflexivity|].
  now rewrite Hc.
Qed.

Lemma trimEnd_spaces (s w : jsstring) :
  all_space w -> trimEnd (s ++ w) = trimEnd s.
Proof.
  intros H. unfold trimEnd. rewrite rev_app_distr, trimStart_spaces; auto.
  now apply Forall_rev.
Qed.

Lemma trimEnd_stop (s : jsstring) (c : codeunit) :
  is_space c = false -> trimEnd (s ++ [c]) = s ++ [c].
Proof.
  intros H. unfold trimEnd. rewrite rev_app_distr. cbn [rev app].
  rewrite trimStart_stop by assumption. cbn [rev].
  now rewrite rev_involutive.
Qed.

(** A text that neither starts nor ends with white space is its own trim. *)
Lemma trim_id (b e : codeunit) (mid : jsstring) :
  is_space b = false -> is_space e = false ->
  trim (b :: mid ++ [e]) = b :: mid ++ [e].
Proof.
  intros Hb He. unfold trim. rewrite trimStart_stop by assumption.
  apply (trimEnd_stop (b :: mid) e He).
Qed.

Lemma trim_braced (ws1 body ws2 : jsstring) :
  all_space ws1 -> all_space ws2 ->
  trim (ws1 ++ braced body ++ ws2) = braced body.
Proof.
  intros H1 H2. unfold trim.
  rewrite trimStart_spaces by assumption.
  unfold braced at 1. cbn [app]. rewrite trimStart_stop by reflexivity.
  change (123%N :: (body ++ [125%N]) ++ ws2) with (braced body ++ ws2).
  rewrite trimEnd_spaces by assumption.
  apply (trimEnd_stop (123%N :: body) 125%N). reflexivity.
Qed.

Lemma fenced_shape (t : jsstring) :
  fenced t =
  96%N :: (lit "``json" ++ [10%N] ++ t ++ [10%N] ++ [96%N; 96%N]) ++ [96%N].
Proof.
  unfold fenced.
  change (lit "```json") with (96%N :: lit "``json").
  change backticks with ([96%N; 96%N] ++ [96%N]).
  rewrite <- !app_assoc. reflexivity.
Qed.

Lemma trim_fenced (t : jsstring) : trim (fenced t) = fenced t.
Proof.
  rewrite fenced_shape. apply trim_id; reflexivity.
Qed.

Lemma sanitize_bare (ws1 body ws2 : jsstring) :
  all_space ws1 -> all_space ws2 ->
  sanitize (ws1 ++ braced body ++ ws2) = braced body.
Proof.
  intros H1 H2. unfold sanitize. rewrite trim_braced by assumption.
  reflexivity.
Qed.

Lemma sanitize_fenced (ws1 body ws2 : jsstring) :
  all_space ws1 -> all_space ws2 ->
  sanitize (fenced (ws1 ++ braced body ++ ws2)) = braced body.
Proof.
  intros H1 H2. unfold sanitize. rewrite trim_fenced.
  destruct (fence_match ws1 body ws2 H1 H2) as (cs & -> & ->).
  cbn [nonempty braced].
  apply (trim_id 123%N 125%N body); reflexivity.
Qed.

End Fence.

(** ** The JSON parser *)

Section Parser.
Import Regex Sanitize Json.

Lemma extends_refl s : extends s s.
Proof. now exists []. Qed.

Lemma consumes_extends s r : consumes s r -> extends s r.
Proof. intros (c & _ & ->). now exists c. Qed.

Lemma extends_cons c s r : extends s r -> consumes (c :: s) r.
Proof. intros (x & ->). exists (c :: x). split; [discriminate | reflexivity]. Qed.

Lemma extends_trans s r t : extends s r -> extends r t -> extends s t.
Proof. intros (a & ->) (b & ->). exists (a ++ b). now rewrite app_assoc. Qed.

Lemma extends_consumes s r t : extends s r -> consumes r t -> consumes s t.
Proof.
  intros (a & ->) (b & Hb & ->). exists (a ++ b). split.
  - destruct a; [exact Hb | discriminate].
  - now rewrite app_assoc.
Qed.

Lemma consumes_then_extends s r t : consumes s r -> extends r t -> consumes s t.
Proof.
  intros (a & Ha & ->) (b & ->). exists (a ++ b). split.
  - destruct a; [contradiction | discriminate].
  - now rewrite app_assoc.
Qed.

Lemma consumes_length s r : consumes s r -> (List.length r < List.length s)%nat.
Proof.
  intros (c & Hc & ->). rewrite length_app. destruct c; [contradiction|]. cbn. lia.
Qed.

Lemma extends_length s r : extends s r -> (List.length r <= List.length s)%nat.
Proof. intros (c & ->). rewrite length_app. lia. Qed.

Lemma skip_ws_split (s : jsstring) :
  exists w, s = w ++ skip_ws s /\ Forall (fun c => is_json_ws c = true) w.
Proof.
  induction s as [|c s (w & E & Hw)]; cbn.
  - exists []. auto.
  - destruct (is_json_ws c) eqn:Hc.
    + exists (c :: w). split; [cbn; congruence | now constructor].
    + exists []. auto.
Qed.

Lemma skip_ws_extends (s : jsstring) : extends s (skip_ws s).
Proof. destruct (skip_ws_split s) as (w & E & _). now exists w. Qed.

Lemma skip_ws_cons (s s1 : jsstring) (c : codeunit) :
  skip_ws s = c :: s1 -> consumes s s1.
Proof.
  intros H. eapply extends_consumes; [apply skip_ws_extends|].
  rewrite H. apply extends_cons, extends_refl.
Qed.

Lemma parse_chars_consumes_n (n : nat) :
  forall s acc v rest, (List.length s <= n)%nat ->
    parse_chars s acc = POk v rest -> consumes s rest.
Proof.
  induction n as [|n IH]; intros s acc v rest Hn.
  - destruct s; [discriminate | cbn in Hn; lia].
  - destruct s as [|c s1]; [discriminate|]. cbn [parse_chars].
    destruct (N.eqb c 34).
    { intros [= _ <-]. apply extends_cons, extends_refl. }
    destruct (N.eqb c 92).
    { destruct s1 as [|e s2]; [discriminate|].
      destruct (N.eqb e 117).
      - destruct s2 as [|h1 [|h2 [|h3 [|h4 s3]]]]; try discriminate.
        destruct (hex4 h1 h2 h3 h4); [|discriminate].
        intros H. apply IH in H; [|cbn in Hn |- *; lia].
        do 6 (apply extends_cons, consumes_extends). exact H.
      - destruct (simple_escape e); [|discriminate].
        intros H. apply IH in H; [|cbn in Hn |- *; lia].
        do 2 (apply extends_cons, consumes_extends). exact H. }
    destruct (N.ltb c 32); [discriminate|].
    intros H. apply IH in H; [|cbn in Hn |- *; lia].
    apply extends_cons, consumes_extends. exact H.
Qed.

Lemma parse_chars_consumes s acc v rest :
  parse_chars s acc = POk v rest -> consumes s rest.
Proof. apply (parse_chars_consumes_n (List.length s)). lia. Qed.

Lemma parse_chars_no_fuel_n (n : nat) :
  forall s acc, (List.length s <= n)%nat -> parse_chars s acc <> PFuel.
Proof.
  induction n as [|n IH]; intros s acc Hn.
  - destruct s; [discriminate | cbn in Hn; lia].
  - destruct s as [|c s1]; [discriminate|]. cbn [parse_chars].
    destruct (N.eqb c 34); [discriminate|].
    destruct (N.eqb c 92).
    { destruct s1 as [|e s2]; [discriminate|].
      destruct (N.eqb e 117).
      - destruct s2 as [|h1 [|h2 [|h3 [|h4 s3]]]]; try discriminate.
        destruct (hex4 h1 h2 h3 h4); [|discriminate].
        apply IH. cbn in Hn |- *; lia.
      - destruct (simple_escape e); [|discriminate].
        apply IH. cbn in Hn |- *; lia. }
    destruct (N.ltb c 32); [discriminate|].
    apply IH. cbn in Hn |- *; lia.
Qed.

Lemma parse_chars_no_fuel s acc : parse_chars s acc <> PFuel.
Proof. apply (parse_chars_no_fuel_n (List.length s)). lia. Qed.

Lemma take_digits_extends s : forall acc n m k rest,
  take_digits s acc n = (m, k, rest) -> extends s rest.
Proof.
  induction s as [|c s IH]; intros acc n m k rest; cbn.
  - intros [= _ _ <-]. apply extends_refl.
  - destruct (is_digit c).
    + intros H. apply IH in H. apply consumes_extends, extends_cons, H.
    + intros [= _ _ <-]. apply extends_refl.
Qed.

Lemma parse_exponent_extends s e rest :
  parse_exponent s = POk e rest -> extends s rest.
Proof.
  unfold parse_exponent. destruct s as [|c s1]; [intros [= _ <-]; apply extends_refl|].
  destruct (_ || _); [|intros [= _ <-]; apply extends_refl].
  assert (Hs : forall s2 m k s3, extends s1 s2 -> take_digits s2 0 0 = (m, k, s3) ->
                                 extends (c :: s1) s3).
  { intros s2 m k s3 H1 H2. apply take_digits_extends in H2.
    apply consumes_extends, extends_cons. eapply extends_trans; eauto. }
  destruct s1 as [|d s2].
  - cbn. discriminate.
  - destruct (N.eqb d 45); [|destruct (N.eqb d 43)].
    + destruct (take_digits s2 0 0) as [[m k] s3] eqn:E. destruct k; [discriminate|].
      intros [= _ <-]. eapply Hs; [|exact E]. apply consumes_extends, extends_cons, extends_refl.
    + destruct (take_digits s2 0 0) as [[m k] s3] eqn:E. destruct k; [discriminate|].
      intros [= _ <-]. eapply Hs; [|exact E]. apply consumes_extends, extends_cons, extends_refl.
    + destruct (take_digits (d :: s2) 0 0) as [[m k] s3] eqn:E. destruct k; [discriminate|].
      intros [= _ <-]. eapply Hs; [|exact E]. apply extends_refl.
Qed.

Lemma parse_exponent_no_fuel s : parse_exponent s <> PFuel.
Proof.
  unfold parse_exponent. destruct s as [|c s1]; [discriminate|].
  destruct (_ || _); [|discriminate].
  destruct s1 as [|d s2].
  - cbn. discriminate.
  - destruct (N.eqb d 45); [|destruct (N.eqb d 43)];
      destruct (take_digits _ 0 0) as [[m k] s3]; destruct k; discriminate.
Qed.

Lemma parse_fraction_extends m s r rest :
  parse_fraction m s = POk r rest -> extends s rest.
Proof.
  unfold parse_fraction. destruct s as [|c s1]; [intros [= _ <-]; apply extends_refl|].
  destruct (N.eqb c 46); [|intros [= _ <-]; apply extends_refl].
  destruct (take_digits s1 m 0) as [[m' k] s2] eqn:E. destruct k; [discriminate|].
  intros [= _ <-]. apply take_digits_extends in E.
  apply consumes_extends, extends_cons, E.
Qed.

Lemma parse_fraction_no_fuel m s : parse_fraction m s <> PFuel.
Proof.
  unfold parse_fraction. destruct s as [|c s1]; [discriminate|].
  destruct (N.eqb c 46); [|discriminate].
  destruct (take_digits s1 m 0) as [[m' k] s2]. destruct k; discriminate.
Qed.

Lemma parse_unsigned_spec b s v rest :
  parse_unsigned b s = POk v rest ->
  consumes s rest /\ exists d, v = JNumber d.
Proof.
  unfold parse_unsigned. destruct s as [|c s1]; [discriminate|].
  destruct (is_digit c); [|discriminate].
  destruct (if N.eqb c 48 then _ else _) as [m s2] eqn:E0.
  assert (H0 : extends s1 s2).
  { destruct (N.eqb c 48).
    - injection E0 as _ <-. apply extends_refl.
    - destruct (take_digits s1 (c - 48) 0) as [[m0 k0] s0] eqn:E.
      injection E0 as _ <-. eapply take_digits_extends; eauto. }
  destruct (parse_fraction m s2) as [[m' k] s3| |] eqn:E1; try discriminate.
  destruct (parse_exponent s3) as [e s4| |] eqn:E2; try discriminate.
  intros [= <- <-]. split; [|eauto].
  apply extends_cons. eapply extends_trans; [exact H0|].
  eapply extends_trans; [eapply parse_fraction_extends; eauto|].
  eapply parse_exponent_extends; eauto.
Qed.

Lemma parse_unsigned_no_fuel b s : parse_unsigned b s <> PFuel.
Proof.
  unfold parse_unsigned. destruct s as [|c s1]; [discriminate|].
  destruct (is_digit c); [|discriminate].
  destruct (if N.eqb c 48 then _ else _) as [m s2].
  destruct (parse_fraction m s2) as [[m' k] s3| |] eqn:E1; try discriminate.
  - destruct (parse_exponent s3) as [e s4| |] eqn:E2; try discriminate.
    now apply parse_exponent_no_fuel in E2.
  - now apply parse_fraction_no_fuel in E1.
Qed.

Lemma parse_literal_spec word v s r rest :
  lit word <> [] ->
  parse_literal word v s = POk r rest -> consumes s rest /\ r = v.
Proof.
  unfold parse_literal. intros Hw.
  destruct (strip_prefix (lit word) s) as [x|] eqn:E; [|discriminate].
  intros [= <- <-]. apply strip_prefix_sound in E. split; [|reflexivity].
  exists (lit word). auto.
Qed.

Lemma parse_literal_no_fuel word v s : parse_literal word v s <> PFuel.
Proof.
  unfold parse_literal. destruct (strip_prefix _ _); discriminate.
Qed.

Lemma skip_ws_cons_split (s s1 : jsstring) (c : codeunit) :
  skip_ws s = c :: s1 -> exists w, s = w ++ c :: s1 /\ json_ws w.
Proof.
  intros H. destruct (skip_ws_split s) as (w & E & Hw).
  rewrite H in E. eauto.
Qed.

Lemma parse_shape (f : nat) :
  (forall s v rest, parse_value f s = POk v rest ->
     consumes s rest
     /\ (forall kvs, v = JObject kvs ->
           exists w body, s = w ++ braced body ++ rest /\ json_ws w))
  /\ (forall s acc v rest, parse_elements f s acc = POk v rest ->
        consumes s rest /\ exists l, v = JArray l)
  /\ (forall s acc v rest, parse_members f s acc = POk v rest ->
        exists body, s = body ++ 125%N :: rest).
Proof.
  induction f as [|f (IHv & IHe & IHm)].
  - repeat split; discriminate.
  - split; [|split].
    + (* parse_value *)
      intros s v rest. cbn [parse_value].
      destruct (skip_ws s) as [|c s1] eqn:Es; [discriminate|].
      pose proof (skip_ws_cons _ _ _ Es) as Hs1.
      destruct (skip_ws_cons_split _ _ _ Es) as (w & Ew & Hw).
      destruct (N.eqb_spec c 123) as [->|_].
      { destruct (skip_ws s1) as [|d s2] eqn:Es1; [discriminate|].
        destruct (skip_ws_cons_split _ _ _ Es1) as (w1 & Ew1 & _).
        destruct (N.eqb_spec d 125) as [->|_].
        - intros [= <- <-]. split.
          + eapply consumes_then_extends; [exact Hs1|].
            apply consumes_extends, (skip_ws_cons _ _ _ Es1).
          + intros kvs _. exists w, w1. split; [|exact Hw].
            rewrite Ew, Ew1. unfold braced. cbn. now rewrite <- app_assoc.
        - intros H. apply IHm in H as (body & Eb). split.
          + eapply consumes_then_extends; [exact Hs1|].
            exists (body ++ [125%N]). now rewrite <- app_assoc.
          + intros kvs _. exists w, body. split; [|exact Hw].
            rewrite Ew, Eb. unfold braced. cbn. now rewrite <- app_assoc. }
      destruct (N.eqb_spec c 91) as [->|_].
      { destruct (skip_ws s1) as [|d s2] eqn:Es1; [discriminate|].
        destruct (N.eqb_spec d 93) as [->|_].
        - intros [= <- <-]. split; [|discriminate].
          eapply consumes_then_extends; [exact Hs1|].
          apply consumes_extends, (skip_ws_cons _ _ _ Es1).
        - intros H. apply IHe in H as (Hc & l & ->). split; [|discriminate].
          eapply consumes_then_extends; [exact Hs1|].
          apply consumes_extends, Hc. }
      destruct (N.eqb_spec c 34) as [->|_].
      { destruct (parse_chars s1 []) as [str s2| |] eqn:Ec; try discriminate.
        intros [= <- <-]. split; [|discriminate].
        eapply consumes_then_extends; [exact Hs1|].
        apply consumes_extends, (parse_chars_consumes _ _ _ _ Ec). }
      destruct (N.eqb_spec c 45) as [->|_].
      { intros H. apply parse_unsigned_spec in H as (Hc & d & ->).
        split; [|discriminate].
        eapply consumes_then_extends; [exact Hs1|].
        apply consumes_extends, Hc. }
      assert (Hx : forall r, consumes (c :: s1) r -> consumes s r).
      { intros ? Hc. eapply extends_consumes; [|exact Hc].
        rewrite <- Es. apply skip_ws_extends. }
      destruct (is_digit c).
      { intros H. apply parse_unsigned_spec in H as (Hc & d & ->).
        split; [|discriminate]. eauto. }
      destruct (N.eqb c 116).
      { intros H. apply parse_literal_spec in H as (Hc & ->); [|discriminate].
        split; [|discriminate]. eauto. }
      destruct (N.eqb c 102).
      { intros H. apply parse_literal_spec in H as (Hc & ->); [|discriminate].
        split; [|discriminate]. eauto. }
      destruct (N.eqb c 110).
      { intros H. apply parse_literal_spec in H as (Hc & ->); [|discriminate].
        split; [|discriminate]. eauto. }
      discriminate.
    + (* parse_elements *)
      intros s acc v rest. cbn [parse_elements].
      destruct (parse_value f s) as [x s1| |] eqn:Ev; try discriminate.
      apply IHv in Ev as [Hc _].
      destruct (skip_ws s1) as [|c s2] eqn:Es1; [discriminate|].
      pose proof (skip_ws_cons _ _ _ Es1) as Hs2.
      destruct (N.eqb c 44).
      { intros H. apply IHe in H as (Hc' & l & ->). split; [|eauto].
        eapply consumes_then_extends; [exact Hc|].
        eapply extends_trans; apply consumes_extends; eauto. }
      destruct (N.eqb c 93); [|discriminate].
      intros [= <- <-]. split; [|eauto].
      eapply consumes_then_extends; [exact Hc|].
      apply consumes_extends; eauto.
    + (* parse_members *)
      intros s acc v rest. cbn [parse_members].
      destruct (skip_ws s) as [|q s1] eqn:Es; [discriminate|].
      destruct (N.eqb q 34); [|discriminate].
      destruct (parse_chars s1 []) as [key s2| |] eqn:Ec; try discriminate.
      destruct (skip_ws s2) as [|c s3] eqn:Es2; [discriminate|].
      destruct (N.eqb c 58); [|discriminate].
      destruct (parse_value f s3) as [x s4| |] eqn:Ev; try discriminate.
      destruct (skip_ws s4) as [|d s5] eqn:Es4; [discriminate|].
      assert (Hpre : extends s (d :: s5)).
      { eapply extends_trans; [apply consumes_extends, (skip_ws_cons _ _ _ Es)|].
        eapply extends_trans; [apply consumes_extends, (parse_chars_consumes _ _ _ _ Ec)|].
        eapply extends_trans; [apply consumes_extends, (skip_ws_cons _ _ _ Es2)|].
        apply IHv in Ev as [Hc _].
        eapply extends_trans; [apply consumes_extends, Hc|].
        rewrite <- Es4. apply skip_ws_extends. }
      destruct Hpre as (pre & Epre).
      destruct (N.eqb d 44).
      { intros H. apply IHm in H as (body & Eb).
        exists (pre ++ d :: body). rewrite Epre, Eb, <- app_assoc. reflexivity. }
      destruct (N.eqb_spec d 125) as [->|_]; [|discriminate].
      intros [= <- <-]. exists pre. exact Epre.
Qed.

Lemma parse_no_fuel (f : nat) :
  (forall s, (2 * List.length s + 1 <= f)%nat -> parse_value f s <> PFuel)
  /\ (forall s acc, (2 * List.length s + 2 <= f)%nat ->
                    parse_elements f s acc <> PFuel)
  /\ (forall s acc, (2 * List.length s + 2 <= f)%nat ->
                    parse_members f s acc <> PFuel).
Proof.
  induction f as [|f (IHv & IHe & IHm)].
  - repeat split; intros; lia.
  - split; [|split].
    + intros s Hf. cbn [parse_value].
      destruct (skip_ws s) as [|c s1] eqn:Es; [discriminate|].
      pose proof (consumes_length _ _ (skip_ws_cons _ _ _ Es)) as L1.
      destruct (N.eqb c 123).
      { destruct (skip_ws s1) as [|d s2]; [discriminate|].
        destruct (N.eqb d 125); [discriminate|]. apply IHm. lia. }
      destruct (N.eqb c 91).
      { destruct (skip_ws s1) as [|d s2]; [discriminate|].
        destruct (N.eqb d 93); [discriminate|]. apply IHe. lia. }
      destruct (N.eqb c 34).
      { destruct (parse_chars s1 []) eqn:Ec; try discriminate.
        now apply parse_chars_no_fuel in Ec. }
      destruct (N.eqb c 45); [apply parse_unsigned_no_fuel|].
      destruct (is_digit c); [apply parse_unsigned_no_fuel|].
      destruct (N.eqb c 116); [apply parse_literal_no_fuel|].
      destruct (N.eqb c 102); [apply parse_literal_no_fuel|].
      destruct (N.eqb c 110); [apply parse_literal_no_fuel|].
      discriminate.
    + intros s acc Hf. cbn [parse_elements].
      destruct (parse_value f s) as [x s1| |] eqn:Ev; try discriminate.
      * apply (proj1 (parse_shape f)) in Ev as [Hc _].
        apply consumes_length in Hc.
        destruct (skip_ws s1) as [|c s2] eqn:Es1; [discriminate|].
        pose proof (consumes_length _ _ (skip_ws_cons _ _ _ Es1)) as L2.
        destruct (N.eqb c 44); [apply IHe; lia|].
        destruct (N.eqb c 93); discriminate.
      * exfalso. revert Ev. apply IHv. lia.
    + intros s acc Hf. cbn [parse_members].
      destruct (skip_ws s) as [|q s1] eqn:Es; [discriminate|].
      pose proof (consumes_length _ _ (skip_ws_cons _ _ _ Es)) as L1.
      destruct (N.eqb q 34); [|discriminate].
      destruct (parse_chars s1 []) as [key s2| |] eqn:Ec; try discriminate.
      * pose proof (consumes_length _ _ (parse_chars_consumes _ _ _ _ Ec)) as L2.
        destruct (skip_ws s2) as [|c s3] eqn:Es2; [discriminate|].
        pose proof (consumes_length _ _ (skip_ws_cons _ _ _ Es2)) as L3.
        destruct (N.eqb c 58); [|discriminate].
        destruct (parse_value f s3) as [x s4| |] eqn:Ev; try discriminate.
        -- apply (proj1 (parse_shape f)) in Ev as [Hc _].
           apply consumes_length in Hc.
           destruct (skip_ws s4) as [|d s5] eqn:Es4; [discriminate|].
           pose proof (consumes_length _ _ (skip_ws_cons _ _ _ Es4)) as L5.
           destruct (N.eqb d 44); [apply IHm; lia|].
           destruct (N.eqb d 125); discriminate.
        -- exfalso. revert Ev. apply IHv. lia.
      * now apply parse_chars_no_fuel in Ec.
Qed.

(** [JSON_parse] never answers for lack of fuel: [None] is a syntax error. *)
Lemma JSON_parse_fuel (text : jsstring) :
  parse_value (parse_fuel text) text <> PFuel.
Proof.
  apply (proj1 (parse_no_fuel (parse_fuel text))). unfold parse_fuel. lia.
Qed.

Lemma json_ws_all_space (w : jsstring) : json_ws w -> all_space w.
Proof.
  apply Forall_impl. intros c. unfold is_json_ws.
  destruct (N.eqb_spec c 9) as [->|_]; [reflexivity|].
  destruct (N.eqb_spec c 10) as [->|_]; [reflexivity|].
  destruct (N.eqb_spec c 13) as [->|_]; [reflexivity|].
  destruct (N.eqb_spec c 32) as [->|_]; [reflexivity|].
  discriminate.
Qed.

Lemma skip_ws_nil (s : jsstring) : skip_ws s = [] -> json_ws s.
Proof.
  intros H. destruct (skip_ws_split s) as (w & E & Hw).
  rewrite H, app_nil_r in E. now subst.
Qed.

(** More fuel does not change an answer. *)
Lemma parse_fuel_mono (f : nat) :
  (forall f' s, (f <= f')%nat -> parse_value f s <> PFuel ->
                parse_value f' s = parse_value f s)
  /\ (forall f' s acc, (f <= f')%nat -> parse_elements f s acc <> PFuel ->
                       parse_elements f' s acc = parse_elements f s acc)
  /\ (forall f' s acc, (f <= f')%nat -> parse_members f s acc <> PFuel ->
                       parse_members f' s acc = parse_members f s acc).
Proof.
  induction f as [|f (IHv & IHe & IHm)].
  - repeat split; intros; cbn in *; congruence.
  - split; [|split].
    + intros [|f'] s Hf; [lia|]. cbn [parse_value].
      destruct (skip_ws s) as [|c s1]; [reflexivity|].
      destruct (N.eqb c 123).
      { destruct (skip_ws s1) as [|d s2]; [reflexivity|].
        destruct (N.eqb d 125); [reflexivity|]. apply IHm. lia. }
      destruct (N.eqb c 91).
      { destruct (skip_ws s1) as [|d s2]; [reflexivity|].
        destruct (N.eqb d 93); [reflexivity|]. apply IHe. lia. }
      reflexivity.
    + intros [|f'] s acc Hf; [lia|]. cbn [parse_elements].
      destruct (parse_value f s) as [x s1| |] eqn:Ev.
      * rewrite (IHv f' s) by (try lia; congruence). rewrite Ev.
        destruct (skip_ws s1) as [|c s2]; [reflexivity|].
        destruct (N.eqb c 44); [|reflexivity]. apply IHe. lia.
      * rewrite (IHv f' s) by (try lia; congruence). now rewrite Ev.
      * congruence.
    + intros [|f'] s acc Hf; [lia|]. cbn [parse_members].
      destruct (skip_ws s) as [|q s1]; [reflexivity|].
      destruct (N.eqb q 34); [|reflexivity].
      destruct (parse_chars s1 []) as [key s2| |]; try reflexivity.
      destruct (skip_ws s2) as [|c s3]; [reflexivity|].
      destruct (N.eqb c 58); [|reflexivity].
      destruct (parse_value f s3) as [x s4| |] eqn:Ev.
      * rewrite (IHv f' s3) by (try lia; congruence). rewrite Ev.
        destruct (skip_ws s4) as [|d s5]; [reflexivity|].
        destruct (N.eqb d 44); [|reflexivity]. apply IHm. lia.
      * rewrite (IHv f' s3) by (try lia; congruence). now rewrite Ev.
      * congruence.
Qed.

Section Locality.
Variables r r' : jsstring.

Lemma suffix_not_longer (s y : jsstring) :
  extends r s -> extends s (y ++ r) -> y = [] /\ s = r.
Proof.
  intros (a & Ea) (b & Eb).
  assert (L : List.length a = 0%nat /\ List.length b = 0%nat /\ List.length y = 0%nat).
  { apply (f_equal (@List.length _)) in Ea, Eb.
    rewrite !length_app in *. lia. }
  destruct L as (La & Lb & Ly).
  apply length_zero_iff_nil in La, Lb, Ly. subst. auto.
Qed.

Lemma no_overrun (s y : jsstring) :
  extends r s -> consumes s (y ++ r) -> False.
Proof.
  intros (a & Ea) H. apply consumes_length in H.
  apply (f_equal (@List.length _)) in Ea. rewrite !length_app in *. lia.
Qed.

Lemma skip_ws_head (s s1 : jsstring) (c : codeunit) :
  skip_ws s = c :: s1 -> is_json_ws c = false.
Proof.
  induction s as [|d s IH]; cbn; [discriminate|].
  destruct (is_json_ws d) eqn:E; [exact IH|]. now intros [= <- _].
Qed.

Lemma skip_ws_local (x y : jsstring) :
  skip_ws (x ++ r) = y ++ r -> y <> [] -> skip_ws (x ++ r') = y ++ r'.
Proof.
  induction x as [|c x IH]; cbn [app]; intros H Hy.
  - exfalso. destruct (suffix_not_longer (skip_ws r) y) as [-> _]; auto.
    + apply skip_ws_extends.
    + rewrite H. apply extends_refl.
  - cbn in *. destruct (is_json_ws c); [auto|].
    change (c :: x ++ r) with ((c :: x) ++ r) in H.
    apply app_inv_tail in H. now subst.
Qed.

Lemma take_digits_local (x y : jsstring) : forall acc n m k,
  take_digits (x ++ r) acc n = (m, k, y ++ r) -> y <> [] ->
  take_digits (x ++ r') acc n = (m, k, y ++ r').
Proof.
  induction x as [|c x IH]; cbn [app]; intros acc n m k H Hy.
  - exfalso. destruct (suffix_not_longer r y) as [-> _]; auto.
    + apply extends_refl.
    + eapply take_digits_extends; eauto.
  - cbn in *. destruct (is_digit c); [auto|].
    injection H as <- <- H.
    change (c :: x ++ r) with ((c :: x) ++ r) in H.
    apply app_inv_tail in H. now subst.
Qed.

Lemma strip_prefix_local (l x y : jsstring) :
  strip_prefix l (x ++ r) = Some (y ++ r) ->
  strip_prefix l (x ++ r') = Some (y ++ r').
Proof.
  intros H. apply strip_prefix_sound in H. rewrite app_assoc in H.
  apply app_inv_tail in H. subst. rewrite <- app_assoc.
  apply strip_prefix_app.
Qed.

Lemma parse_chars_local_n (n : nat) : forall x acc v y,
  (List.length x <= n)%nat ->
  parse_chars (x ++ r) acc = POk v (y ++ r) ->
  parse_chars (x ++ r') acc = POk v (y ++ r').
Proof.
  induction n as [|n IH]; intros x acc v y Hn H.
  - destruct x; [|cbn in Hn; lia]. exfalso.
    apply parse_chars_consumes in H. eapply no_overrun; [apply extends_refl | exact H].
  - destruct x as [|c x1].
    { exfalso. apply parse_chars_consumes in H.
      eapply no_overrun; [apply extends_refl | exact H]. }
    cbn [app parse_chars] in H |- *.
    destruct (N.eqb c 34).
    { injection H as <- H. apply app_inv_tail in H. now subst. }
    assert (Hc : forall s3 a, extends r s3 ->
                   parse_chars s3 a = POk v (y ++ r) -> False).
    { intros s3 a Hs3 Hp. apply parse_chars_consumes in Hp.
      eapply no_overrun; eauto. }
    destruct (N.eqb c 92).
    { destruct x1 as [|e x2].
      - (* the escape would start in [r] *)
        exfalso. cbn [app] in H. clear IH.
        destruct r as [|e s2]; [discriminate|].
        destruct (N.eqb e 117).
        + destruct s2 as [|h1 [|h2 [|h3 [|h4 s3]]]]; try discriminate.
          destruct (hex4 h1 h2 h3 h4); [|discriminate].
          eapply Hc; [|exact H]. now exists [e; h1; h2; h3; h4].
        + destruct (simple_escape e); [|discriminate].
          eapply Hc; [|exact H]. now exists [e].
      - cbn [app] in H |- *. destruct (N.eqb e 117).
        + destruct x2 as [|h1 [|h2 [|h3 [|h4 x6]]]]; cbn [app] in H |- *.
          * exfalso. clear IH.
            destruct r as [|h1 [|h2 [|h3 [|h4 s3]]]]; try discriminate.
            destruct (hex4 h1 h2 h3 h4); [|discriminate].
            eapply (Hc s3); [|exact H]. now exists [h1; h2; h3; h4].
          * exfalso. clear IH.
            destruct r as [|h2 [|h3 [|h4 s3]]]; try discriminate.
            destruct (hex4 h1 h2 h3 h4); [|discriminate].
            eapply (Hc s3); [|exact H]. now exists [h2; h3; h4].
          * exfalso. clear IH.
            destruct r as [|h3 [|h4 s3]]; try discriminate.
            destruct (hex4 h1 h2 h3 h4); [|discriminate].
            eapply (Hc s3); [|exact H]. now exists [h3; h4].
          * exfalso. clear IH.
            destruct r as [|h4 s3]; try discriminate.
            destruct (hex4 h1 h2 h3 h4); [|discriminate].
            eapply (Hc s3); [|exact H]. now exists [h4].
          * destruct (hex4 h1 h2 h3 h4); [|discriminate].
            apply IH; [cbn in Hn; lia | exact H].
        + destruct (simple_escape e); [|discriminate].
          apply IH; [cbn in Hn; lia | exact H]. }
    destruct (N.ltb c 32); [discriminate|].
    apply IH; [cbn in Hn; lia | exact H].
Qed.

Lemma parse_chars_local (x : jsstring) acc v y :
  parse_chars (x ++ r) acc = POk v (y ++ r) ->
  parse_chars (x ++ r') acc = POk v (y ++ r').
Proof. apply (parse_chars_local_n (List.length x)). lia. Qed.


(** A run of digits read from inside [r] cannot stop before [r]. *)
Lemma digits_overrun (s2 y : jsstring) (acc : N) (n : nat) m k s3 :
  extends r s2 -> take_digits s2 acc n = (m, k, s3) -> s3 = y ++ r ->
  y = [].
Proof.
  intros H1 H2 ->. apply take_digits_extends in H2.
  now destruct (suffix_not_longer s2 y H1 H2).
Qed.

Lemma parse_exponent_local (x y : jsstring) e :
  parse_exponent (x ++ r) = POk e (y ++ r) -> y <> [] ->
  parse_exponent (x ++ r') = POk e (y ++ r').
Proof.
  intros H Hy. destruct x as [|c x1].
  { exfalso. apply parse_exponent_extends in H.
    destruct (suffix_not_longer r y (extends_refl r) H). contradiction. }
  unfold parse_exponent in *. cbn [app] in *.
  destruct (_ || _).
  - destruct x1 as [|d x2].
    + exfalso. cbn [app] in H.
      assert (Hc : forall s2 acc n m k s3,
                 extends r s2 -> take_digits s2 acc n = (m, k, s3) ->
                 s3 = y ++ r -> False).
      { intros. apply Hy. eapply digits_overrun; eauto. }
      destruct r as [|d t]; [discriminate|].
      destruct (N.eqb d 45); [|destruct (N.eqb d 43)];
        match type of H with
        | context [take_digits ?s 0 0] =>
            destruct (take_digits s 0 0) as [[m k] s3] eqn:Ed
        end;
        (destruct k; [discriminate|]); injection H as _ H;
        (eapply Hc; [|exact Ed|exact H]).
      * now exists [d].
      * now exists [d].
      * apply extends_refl.
    + cbn [app] in *.
      destruct (N.eqb d 45); [|destruct (N.eqb d 43)].
      * destruct (take_digits (x2 ++ r) 0 0) as [[m k] s3] eqn:Ed.
        destruct k; [discriminate|]. injection H as <- ->.
        now rewrite (take_digits_local x2 y _ _ _ _ Ed Hy).
      * destruct (take_digits (x2 ++ r) 0 0) as [[m k] s3] eqn:Ed.
        destruct k; [discriminate|]. injection H as <- ->.
        now rewrite (take_digits_local x2 y _ _ _ _ Ed Hy).
      * destruct (take_digits (d :: x2 ++ r) 0 0) as [[m k] s3] eqn:Ed.
        destruct k; [discriminate|]. injection H as <- ->.
        pose proof (take_digits_local (d :: x2) y _ _ _ _ Ed Hy) as Hd.
        cbn [app] in Hd. now rewrite Hd.
  - injection H as <- H. change (c :: x1 ++ r) with ((c :: x1) ++ r) in H.
    apply app_inv_tail in H. now subst.
Qed.

Lemma parse_fraction_local (x y : jsstring) m res :
  parse_fraction m (x ++ r) = POk res (y ++ r) -> y <> [] ->
  parse_fraction m (x ++ r') = POk res (y ++ r').
Proof.
  intros H Hy. destruct x as [|c x1].
  { exfalso. apply parse_fraction_extends in H.
    destruct (suffix_not_longer r y (extends_refl r) H). contradiction. }
  unfold parse_fraction in *. cbn [app] in *.
  destruct (N.eqb c 46).
  - destruct (take_digits (x1 ++ r) m 0) as [[m' k] s2] eqn:Ed.
    destruct k; [discriminate|]. injection H as <- ->.
    now rewrite (take_digits_local x1 y _ _ _ _ Ed Hy).
  - injection H as <- H. change (c :: x1 ++ r) with ((c :: x1) ++ r) in H.
    apply app_inv_tail in H. now subst.
Qed.


(** What is left before [y ++ r] was reached also lies before [r]. *)
Lemma before_rest (s y : jsstring) :
  extends s (y ++ r) -> y <> [] -> exists z, s = z ++ r /\ z <> [].
Proof.
  intros (a & ->) Hy. exists (a ++ y). split; [now rewrite app_assoc|].
  destruct a; [exact Hy | discriminate].
Qed.

Lemma parse_unsigned_local (b : bool) (x y : jsstring) v :
  parse_unsigned b (x ++ r) = POk v (y ++ r) -> y <> [] ->
  parse_unsigned b (x ++ r') = POk v (y ++ r').
Proof.
  intros H Hy. destruct x as [|c x1].
  { exfalso. apply parse_unsigned_spec in H as [H _].
    eapply no_overrun; [apply extends_refl | exact H]. }
  unfold parse_unsigned in *. cbn [app] in *.
  destruct (is_digit c); [|discriminate].
  destruct (if N.eqb c 48 then _ else _) as [m s2] eqn:E0 in H.
  destruct (parse_fraction m s2) as [[m' k] s3| |] eqn:E1; try discriminate.
  destruct (parse_exponent s3) as [e s4| |] eqn:E2; try discriminate.
  injection H as <- ->.
  destruct (before_rest s3 y (parse_exponent_extends _ _ _ E2) Hy)
    as (z3 & -> & Hz3).
  destruct (before_rest s2 z3 (parse_fraction_extends _ _ _ _ E1) Hz3)
    as (z2 & -> & Hz2).
  assert (E0' : (if N.eqb c 48 then (0%N, x1 ++ r')
                 else let '(m0, _, s0) := take_digits (x1 ++ r') (c - 48) 0 in
                      (m0, s0)) = (m, z2 ++ r')).
  { destruct (N.eqb c 48).
    - injection E0 as <- E0. apply app_inv_tail in E0. now subst.
    - destruct (take_digits (x1 ++ r) (c - 48) 0) as [[m0 k0] s0] eqn:Ed.
      injection E0 as <- ->.
      now rewrite (take_digits_local x1 z2 _ _ _ _ Ed Hz2). }
  rewrite E0'.
  rewrite (parse_fraction_local z2 z3 _ _ E1 Hz3).
  now rewrite (parse_exponent_local z3 y _ E2 Hy).
Qed.


Lemma lift_extends (s z : jsstring) :
  extends s (z ++ r) -> exists z', s = z' ++ r.
Proof. intros (a & ->). exists (a ++ z). now rewrite app_assoc. Qed.

Lemma lift_skip_ws (s z : jsstring) (c : codeunit) :
  skip_ws s = c :: z ++ r ->
  exists z', s = z' ++ r /\ z' <> []
             /\ skip_ws (z' ++ r') = c :: z ++ r'.
Proof.
  intros H.
  destruct (lift_extends s (c :: z)) as (z' & ->).
  { change ((c :: z) ++ r) with (c :: z ++ r). rewrite <- H.
    apply skip_ws_extends. }
  exists z'. split; [reflexivity|]. split.
  - intros ->. cbn [app] in H.
    destruct (suffix_not_longer (skip_ws r) (c :: z)) as [E _];
      [apply skip_ws_extends | rewrite H; apply extends_refl | discriminate E].
  - apply (skip_ws_local z' (c :: z)); [exact H | discriminate].
Qed.

End Locality.

Lemma consumes_cons_extends (c : codeunit) (s rest : jsstring) :
  consumes (c :: s) rest -> extends s rest.
Proof.
  intros ([|d a] & Ha & E); [contradiction|]. injection E as _ ->. now exists a.
Qed.

(** A value begins at the first character that is not white space, and
    what it leaves starts after that character. *)
Lemma parse_value_first (f : nat) (s : jsstring) v rest :
  parse_value f s = POk v rest ->
  exists c s1, skip_ws s = c :: s1 /\ extends s1 rest.
Proof.
  destruct f as [|f]; [discriminate|]. cbn [parse_value].
  destruct (skip_ws s) as [|c s1]; [discriminate|].
  intros H. exists c, s1. split; [reflexivity|]. revert H.
  destruct (N.eqb c 123).
  { destruct (skip_ws s1) as [|d s2] eqn:E; [discriminate|].
    destruct (N.eqb d 125).
    - intros [= _ <-]. apply consumes_extends, (skip_ws_cons _ _ _ E).
    - intros H. apply (proj2 (proj2 (parse_shape f))) in H as (b & ->).
      now exists (b ++ [125%N]); rewrite <- app_assoc. }
  destruct (N.eqb c 91).
  { destruct (skip_ws s1) as [|d s2] eqn:E; [discriminate|].
    destruct (N.eqb d 93).
    - intros [= _ <-]. apply consumes_extends, (skip_ws_cons _ _ _ E).
    - intros H. apply (proj1 (proj2 (parse_shape f))) in H as [H _].
      now apply consumes_extends. }
  destruct (N.eqb c 34).
  { destruct (parse_chars s1 []) as [str s2| |] eqn:E; try discriminate.
    intros [= _ <-]. apply consumes_extends, (parse_chars_consumes _ _ _ _ E). }
  destruct (N.eqb c 45).
  { intros H. apply parse_unsigned_spec in H as [H _]. now apply consumes_extends. }
  destruct (is_digit c).
  { intros H. apply parse_unsigned_spec in H as [H _].
    now apply consumes_cons_extends in H. }
  destruct (N.eqb c 116).
  { intros H. apply parse_literal_spec in H as [H _]; [|discriminate].
    now apply consumes_cons_extends in H. }
  destruct (N.eqb c 102).
  { intros H. apply parse_literal_spec in H as [H _]; [|discriminate].
    now apply consumes_cons_extends in H. }
  destruct (N.eqb c 110).
  { intros H. apply parse_literal_spec in H as [H _]; [|discriminate].
    now apply consumes_cons_extends in H. }
  discriminate.
Qed.

Lemma parse_elements_first (f : nat) (s : jsstring) acc v rest :
  parse_elements f s acc = POk v rest ->
  exists c s1, skip_ws s = c :: s1 /\ extends s1 rest.
Proof.
  destruct f as [|f]; [discriminate|]. cbn [parse_elements].
  destruct (parse_value f s) as [v1 s3| |] eqn:Ev; try discriminate.
  destruct (parse_value_first _ _ _ _ Ev) as (c & s1 & Es & Hs).
  destruct (skip_ws s3) as [|c3 s4] eqn:E3; [discriminate|].
  apply skip_ws_cons, consumes_extends in E3.
  intros H. exists c, s1. split; [exact Es|].
  eapply extends_trans; [exact Hs|]. eapply extends_trans; [exact E3|].
  revert H. destruct (N.eqb c3 44).
  - intros H. apply (proj1 (proj2 (parse_shape _))) in H as [H _].
    now apply consumes_extends.
  - destruct (N.eqb c3 93); [|discriminate].
    intros [= _ <-]. apply extends_refl.
Qed.

Lemma parse_members_first (f : nat) (s : jsstring) acc v rest :
  parse_members f s acc = POk v rest ->
  exists c s1, skip_ws s = c :: s1 /\ extends s1 rest.
Proof.
  destruct f as [|f]; [discriminate|]. cbn [parse_members].
  destruct (skip_ws s) as [|q s1] eqn:Es; [discriminate|].
  destruct (N.eqb q 34); [|discriminate].
  destruct (parse_chars s1 []) as [key s2| |] eqn:Ec; try discriminate.
  apply parse_chars_consumes, consumes_extends in Ec.
  destruct (skip_ws s2) as [|c s3] eqn:E2; [discriminate|].
  apply skip_ws_cons, consumes_extends in E2.
  destruct (N.eqb c 58); [|discriminate].
  destruct (parse_value f s3) as [v1 s4| |] eqn:Ev; try discriminate.
  apply (proj1 (parse_shape _)) in Ev as [Ev _]. apply consumes_extends in Ev.
  destruct (skip_ws s4) as [|d s5] eqn:E4; [discriminate|].
  apply skip_ws_cons, consumes_extends in E4.
  intros H. exists q, s1. split; [reflexivity|].
  repeat (eapply extends_trans; [eassumption|]).
  revert H. destruct (N.eqb d 44).
  - intros H. apply (proj2 (proj2 (parse_shape _))) in H as (b & ->).
    now exists (b ++ [125%N]); rewrite <- app_assoc.
  - destruct (N.eqb d 125); [|discriminate].
    intros [= _ <-]. apply extends_refl.
Qed.

Section LocalityOfValues.
Variables r r' : jsstring.

Lemma parse_local (f : nat) :
  (forall x y v,
      parse_value f (x ++ r) = POk v (y ++ r) ->
      y <> [] \/ (exists kvs, v = JObject kvs) ->
      parse_value f (x ++ r') = POk v (y ++ r'))
  /\ (forall x y acc v,
         parse_elements f (x ++ r) acc = POk v (y ++ r) ->
         parse_elements f (x ++ r') acc = POk v (y ++ r'))
  /\ (forall x y acc v,
         parse_members f (x ++ r) acc = POk v (y ++ r) ->
         parse_members f (x ++ r') acc = POk v (y ++ r')).
Proof.
  induction f as [|f (IHv & IHe & IHm)]; [repeat split; discriminate|].
  split; [|split].
  - (* parse_value *)
    intros x y v H Hy.
    destruct (parse_value_first _ _ _ _ H) as (c & s1 & Es & Hs1).
    destruct (lift_extends r s1 y Hs1) as (x1 & ->).
    pose proof (skip_ws_local r r' x (c :: x1) Es ltac:(discriminate)) as Es'.
    cbn [parse_value] in H |- *. rewrite Es in H. rewrite Es'. cbn [app] in *.
    clear Es Es' Hs1.
    destruct (N.eqb c 123).
    { destruct (skip_ws (x1 ++ r)) as [|d s2] eqn:E; [discriminate|].
      destruct (N.eqb_spec d 125) as [->|Hd].
      - injection H as <- ->.
        destruct (lift_skip_ws r r' _ _ _ E) as (z & Ez & _ & E').
        apply app_inv_tail in Ez. subst z. now rewrite E'.
      - assert (Hx : exists z, d :: s2 = d :: z ++ r).
        { destruct (parse_members_first _ _ _ _ _ H) as (c' & s1' & Es' & Hs').
          rewrite E in Es'. injection Es' as <- <-.
          destruct (lift_extends r s2 y Hs') as (z & ->). eauto. }
        destruct Hx as (z & Ez). rewrite Ez in E.
        destruct (lift_skip_ws r r' _ _ _ E) as (z0 & Ez0 & _ & E').
        apply app_inv_tail in Ez0. subst z0. rewrite E'.
        destruct (N.eqb_spec d 125); [contradiction|].
        now apply IHm. }
    destruct (N.eqb c 91).
    { destruct (skip_ws (x1 ++ r)) as [|d s2] eqn:E; [discriminate|].
      destruct (N.eqb_spec d 93) as [->|Hd].
      - injection H as <- ->.
        destruct (lift_skip_ws r r' _ _ _ E) as (z & Ez & _ & E').
        apply app_inv_tail in Ez. subst z. now rewrite E'.
      - assert (Hx : exists z, d :: s2 = d :: z ++ r).
        { destruct (parse_elements_first _ _ _ _ _ H) as (c' & s1' & Es' & Hs').
          rewrite E in Es'. injection Es' as <- <-.
          destruct (lift_extends r s2 y Hs') as (z & ->). eauto. }
        destruct Hx as (z & Ez). rewrite Ez in E.
        destruct (lift_skip_ws r r' _ _ _ E) as (z0 & Ez0 & _ & E').
        apply app_inv_tail in Ez0. subst z0. rewrite E'.
        destruct (N.eqb_spec d 93); [contradiction|].
        now apply IHe. }
    assert (Hy' : forall d, v = JNumber d -> y <> []).
    { intros d -> . destruct Hy as [Hy|[kvs Hk]]; [exact Hy | discriminate Hk]. }
    destruct (N.eqb c 34).
    { destruct (parse_chars (x1 ++ r) []) as [str s2| |] eqn:E; try discriminate.
      injection H as <- ->. now rewrite (parse_chars_local r r' x1 _ _ _ E). }
    destruct (N.eqb c 45).
    { destruct (parse_unsigned_spec _ _ _ _ H) as (_ & d & ->).
      apply (parse_unsigned_local r r' true x1 y _ H). now apply (Hy' d). }
    destruct (is_digit c).
    { destruct (parse_unsigned_spec _ _ _ _ H) as (_ & d & ->).
      apply (parse_unsigned_local r r' false (c :: x1) y _ H). now apply (Hy' d). }
    assert (Hl : forall word v0,
               parse_literal word v0 (c :: x1 ++ r) = POk v (y ++ r) ->
               parse_literal word v0 (c :: x1 ++ r') = POk v (y ++ r')).
    { intros word v0. unfold parse_literal.
      destruct (strip_prefix (lit word) (c :: x1 ++ r)) as [rest|] eqn:E;
        [|discriminate].
      intros [= <- ->].
      pose proof (strip_prefix_local r r' (lit word) (c :: x1) y E) as E'.
      cbn [app] in E'. now rewrite E'. }
    destruct (N.eqb c 116); [now apply Hl|].
    destruct (N.eqb c 102); [now apply Hl|].
    destruct (N.eqb c 110); [now apply Hl|].
    discriminate.
  - (* parse_elements *)
    intros x y acc v H. revert H. cbn [parse_elements].
    destruct (parse_value f (x ++ r)) as [v1 s1| |] eqn:Ev; try discriminate.
    destruct (skip_ws s1) as [|c s2] eqn:Es; [discriminate|].
    intros H.
    assert (Hs2 : extends s2 (y ++ r)).
    { revert H. destruct (N.eqb c 44).
      - intros H. apply (proj1 (proj2 (parse_shape _))) in H as [H _].
        now apply consumes_extends.
      - destruct (N.eqb c 93); [|discriminate].
        intros [= _ <-]. apply extends_refl. }
    destruct (lift_extends r s2 y Hs2) as (x2 & ->).
    destruct (lift_skip_ws r r' _ _ _ Es) as (z1 & -> & Hz1 & Es').
    rewrite (IHv x z1 v1 Ev (or_introl Hz1)), Es'.
    destruct (N.eqb c 44); [now apply IHe|].
    destruct (N.eqb c 93); [|discriminate].
    injection H as <- H. apply app_inv_tail in H. now subst.
  - (* parse_members *)
    intros x y acc v H. revert H. cbn [parse_members].
    destruct (skip_ws (x ++ r)) as [|q s1] eqn:Es; [discriminate|].
    destruct (N.eqb q 34) eqn:Eq; [|discriminate].
    destruct (parse_chars s1 []) as [key s2| |] eqn:Ec; try discriminate.
    destruct (skip_ws s2) as [|c s3] eqn:E2; [discriminate|].
    destruct (N.eqb c 58) eqn:Ecol; [|discriminate].
    destruct (parse_value f s3) as [v1 s4| |] eqn:Ev; try discriminate.
    destruct (skip_ws s4) as [|d s5] eqn:E4; [discriminate|].
    intros H.
    assert (Hs5 : extends s5 (y ++ r)).
    { revert H. destruct (N.eqb d 44).
      - intros H. apply (proj2 (proj2 (parse_shape _))) in H as (b & ->).
        now exists (b ++ [125%N]); rewrite <- app_assoc.
      - destruct (N.eqb d 125); [|discriminate].
        intros [= _ <-]. apply extends_refl. }
    destruct (lift_extends r s5 y Hs5) as (x5 & ->).
    destruct (lift_skip_ws r r' _ _ _ E4) as (z4 & -> & Hz4 & E4').
    destruct (lift_extends r s3 z4) as (x3 & ->).
    { apply consumes_extends, (proj1 (proj1 (parse_shape _) _ _ _ Ev)). }
    destruct (lift_skip_ws r r' _ _ _ E2) as (z2 & -> & Hz2 & E2').
    destruct (lift_extends r s1 z2) as (x1 & ->).
    { apply consumes_extends, (parse_chars_consumes _ _ _ _ Ec). }
    pose proof (skip_ws_local r r' x (q :: x1) Es ltac:(discriminate)) as Es'.
    cbn [app] in Es'. rewrite Es', Eq.
    rewrite (parse_chars_local r r' x1 _ _ _ Ec), E2', Ecol.
    rewrite (IHv x3 z4 v1 Ev (or_introl Hz4)), E4'.
    destruct (N.eqb d 44); [now apply IHm|].
    destruct (N.eqb d 125); [|discriminate].
    injection H as <- H. apply app_inv_tail in H. now subst.
Qed.
End LocalityOfValues.

Lemma skip_ws_app_ws (w s : jsstring) :
  json_ws w -> skip_ws (w ++ s) = skip_ws s.
Proof.
  intros H. induction H as [|c w Hc _ IH]; cbn; [reflexivity|]. now rewrite Hc.
Qed.

Lemma parse_value_leading_ws (f : nat) (w s : jsstring) :
  json_ws w -> parse_value f (w ++ s) = parse_value f s.
Proof.
  intros H. destruct f; [reflexivity|]. cbn [parse_value].
  now rewrite skip_ws_app_ws.
Qed.

(** The text of an object parses to the same object once the white space
    around it is removed. *)
Lemma object_text_core (t : jsstring) (kvs : list (jsstring * json)) :
  JSON_parse t = Some (JObject kvs) ->
  exists ws1 body ws2,
    t = ws1 ++ braced body ++ ws2 /\ all_space ws1 /\ all_space ws2
    /\ JSON_parse (braced body) = Some (JObject kvs).
Proof.
  unfold JSON_parse at 1.
  destruct (parse_value (parse_fuel t) t) as [v rest| |] eqn:Ev; try discriminate.
  destruct (skip_ws rest) eqn:Er; [|discriminate].
  intros [= ->].
  destruct (proj1 (parse_shape _) _ _ _ Ev) as [_ H].
  destruct (H kvs eq_refl) as (w & body & E & Hw). clear H.
  exists w, body, rest.
  split; [exact E|]. split; [now apply json_ws_all_space|].
  split; [now apply json_ws_all_space, skip_ws_nil|].
  rewrite E, parse_value_leading_ws in Ev by assumption.
  apply (proj1 (parse_local rest [] _) (braced body) [] _) in Ev; [|eauto].
  rewrite app_nil_r in Ev. cbn [app] in Ev.
  assert (Hf : (parse_fuel (braced body)
                <= parse_fuel (w ++ braced body ++ rest))%nat).
  { unfold parse_fuel. rewrite !length_app. lia. }
  unfold JSON_parse.
  rewrite <- (proj1 (parse_fuel_mono _) _ _ Hf (JSON_parse_fuel _)), Ev.
  reflexivity.
Qed.

End Parser.

(** ** The analysis client *)

Section Service.
Import Json Sanitize GeminiService.

Lemma truthy_filled (o : option json) : truthy_prop o = true -> filled o.
Proof.
  destruct o as [x|]; [|discriminate]. intros H. exists x.
  split; [reflexivity|]. split; intros ->; discriminate H.
Qed.

Lemma truthy_present (o : option json) : truthy_prop o = true -> present o.
Proof.
  destruct o as [x|]; [|discriminate]. intros H. exists x.
  split; [reflexivity|]. intros ->; discriminate H.
Qed.

Lemma isArray_array (o : option json) :
  isArray o = true -> exists l, o = Some (JArray l).
Proof.
  destruct o as [[]|]; try discriminate. intros _. eauto.
Qed.

Lemma accepted_spec_valid (v : json) : accepted v = true -> spec_valid v.
Proof.
  unfold accepted, spec_valid. intros H.
  apply andb_true_iff in H as [H H4]. apply andb_true_iff in H as [H H3].
  apply andb_true_iff in H as [H1 H2].
  auto using truthy_filled, truthy_present, isArray_array.
Qed.

(** The validation as one case distinction. *)
Lemma validate_cases (E : Engine) (v : json) :
  validate E v =
    match v with
    | JNull =>
      Throws (ErrorObj (typeErrorMessage E (lit "null") (lit "transcript")))
    | _ => if accepted v then Returns v else Throws (ErrorObj incomplete_message)
    end.
Proof.
  unfold validate, accepted.
  destruct v; try reflexivity;
    destruct (truthy_prop _), (truthy_prop _), (isArray _), (truthy_prop _);
    reflexivity.
Qed.

Lemma validate_returns (E : Engine) (v r : json) :
  validate E v = Returns r -> r = v /\ accepted v = true.
Proof.
  rewrite validate_cases. destruct v; try discriminate;
    destruct (accepted _); try discriminate; intros [= <-]; auto.
Qed.

Lemma validate_rejects (E : Engine) (v : json) :
  accepted v = false -> exists m, validate E v = Throws (ErrorObj m).
Proof.
  rewrite validate_cases. intros H. destruct v; rewrite ?H; eauto.
Qed.

(** C3.  For every response text: when [getSpeechAnalysis] returns a value,
    that value is exactly what [JSON.parse] made of the sanitised text, it
    passed the four checks, and so it has a non-empty transcript and
    summary, an array as grammarAnalysis and a sentiment; when the sanitised
    text is not valid JSON, or the parsed value fails the requirement, an
    Error is thrown and nothing is returned.  Well-formed JSON without
    sentiment is such a case. *)
Theorem only_validated_results_are_returned (E : Engine) (text : jsstring) :
  (forall v, getSpeechAnalysis E (Responded text) = Returns v ->
             JSON_parse (sanitize text) = Some v
             /\ accepted v = true /\ spec_valid v)
  /\ (JSON_parse (sanitize text) = None ->
      getSpeechAnalysis E (Responded text) =
        Throws (catch_block (ErrorObj (syntaxErrorMessage E (sanitize text)))))
  /\ (forall v, JSON_parse (sanitize text) = Some v -> ~ spec_valid v ->
                exists m, getSpeechAnalysis E (Responded text)
                          = Throws (ErrorObj m))
  /\ (JSON_parse (sanitize missing_sentiment) <> None
      /\ getSpeechAnalysis E (Responded missing_sentiment)
         = Throws (catch_block (ErrorObj incomplete_message))).
Proof.
  unfold getSpeechAnalysis, try_block.
  split; [|split; [|split]].
  - intros v H. destruct (JSON_parse (sanitize text)) as [p|]; [|discriminate].
    destruct (validate E p) as [r|e] eqn:Ev; [|discriminate].
    injection H as ->. apply validate_returns in Ev as [-> Ha].
    auto using accepted_spec_valid.
  - intros ->. reflexivity.
  - intros v -> Hv. destruct (accepted v) eqn:Ea.
    + elim Hv. now apply accepted_spec_valid.
    + destruct (validate_rejects E v Ea) as [m ->].
      destruct (catch_block (ErrorObj m)) eqn:Ec; [eauto|].
      discriminate Ec.
  - split; [vm_compute; discriminate | vm_compute; reflexivity].
Qed.

(** C9.  The validation reads neither [sentiment.label] nor the fields of
    the grammar entries.  [off_schema_response], whose label is none of the
    four and whose grammar entries have none of the four issue fields, is
    returned as a result; and in general the outcome is the same for any
    two objects on which the truthiness of transcript, summary and sentiment
    and the array test of grammarAnalysis agree. *)
Theorem validation_reads_no_label_and_no_issue_fields (E : Engine) :
  (exists v s entries,
      getSpeechAnalysis E (Responded off_schema_response) = Returns v
      /\ get v (lit "sentiment") = Some s
      /\ get s (lit "label") = Some (JString (lit "Furious"))
      /\ ~ In (lit "Furious") labels
      /\ get v (lit "grammarAnalysis") = Some (JArray entries)
      /\ entries <> []
      /\ Forall (fun entry => Forall (fun k => get entry k = None) issue_fields)
                entries)
  /\ (forall kvs kvs',
         same_checks (JObject kvs) (JObject kvs') ->
         (validate E (JObject kvs) = Returns (JObject kvs)
          <-> validate E (JObject kvs') = Returns (JObject kvs'))).
Proof.
  split.
  - do 3 eexists.
    split; [vm_compute; reflexivity|].
    split; [vm_compute; reflexivity|].
    split; [vm_compute; reflexivity|].
    split.
    { cbv. intros [H|[H|[H|[H|[]]]]]; discriminate H. }
    split; [vm_compute; reflexivity|].
    split; [discriminate|].
    repeat constructor.
  - intros kvs kvs' (H1 & H2 & H3 & H4).
    rewrite !validate_cases. unfold accepted.
    rewrite H1, H2, H3, H4.
    destruct (_ && _ && _ && _); split; intros; try discriminate; reflexivity.
Qed.

(** Fence stripping on any text made of one pair of braces with white
    space around it: the fenced and the bare text are sanitised to the same
    string, the braces and what they enclose. *)
Lemma sanitize_fenced_braced (ws1 body ws2 : jsstring) :
  all_space ws1 -> all_space ws2 ->
  sanitize (fenced (ws1 ++ braced body ++ ws2)) = braced body
  /\ sanitize (ws1 ++ braced body ++ ws2) = braced body.
Proof.
  intros H1 H2. split; [apply sanitize_fenced | apply sanitize_bare]; assumption.
Qed.

(** C4.  For every text [t] that is the JSON text of an object, the fenced
    form of [t] and [t] itself are sanitised to the same string, which
    [JSON.parse] reads as the very object it reads from [t]; so
    [getSpeechAnalysis] ends the same way on both: the same result is
    returned, or the same error is thrown. *)
Theorem fence_stripping_gives_the_same_result
        (E : Engine) (t : jsstring) (kvs : list (jsstring * json)) :
  JSON_parse t = Some (JObject kvs) ->
  sanitize (fenced t) = sanitize t
  /\ JSON_parse (sanitize (fenced t)) = Some (JObject kvs)
  /\ JSON_parse (sanitize t) = Some (JObject kvs)
  /\ getSpeechAnalysis E (Responded (fenced t))
     = getSpeechAnalysis E (Responded t).
Proof.
  intros H.
  destruct (object_text_core t kvs H)
    as (ws1 & body & ws2 & -> & H1 & H2 & Hp).
  destruct (sanitize_fenced_braced ws1 body ws2 H1 H2) as [Ef Eb].
  unfold getSpeechAnalysis, try_block. rewrite Ef, Eb. auto.
Qed.

Lemma fence_stripping_gives_the_same_result_witness :
  getSpeechAnalysis v8 (Responded (fenced (qlit " {'transcript':'hi'} ")))
  = getSpeechAnalysis v8 (Responded (qlit " {'transcript':'hi'} ")).
Proof.
  apply (@fence_stripping_gives_the_same_result v8
           (qlit " {'transcript':'hi'} ")
           [(lit "transcript", JString (lit "hi"))]).
  vm_compute. reflexivity.
Defined.

End Service.

(** ** The recording clock *)

Section FormattingFacts.
Import Formatting.

Lemma uint_codes_digits (d : Decimal.uint) : all_digits (uint_codes d).
Proof. induction d; cbn; constructor; auto. Qed.

Lemma number_of_uint_acc (d : Decimal.uint) (acc : nat) :
  fold_left (fun a c => (10 * a + digit_value c)%nat) (uint_codes d) acc
  = Nat.of_uint_acc d acc.
Proof.
  revert acc. induction d; intros acc; cbn [uint_codes fold_left Nat.of_uint_acc];
    rewrite ?IHd, ?Nat.tail_mul_spec; try reflexivity;
    f_equal; unfold digit_value; cbn; lia.
Qed.

Lemma number_of_toString (n : nat) : number_of (toString n) = n.
Proof.
  unfold number_of, toString. rewrite number_of_uint_acc.
  apply Unsigned.of_to.
Qed.

Lemma fold_zero_prefix (k : nat) (s : jsstring) :
  number_of (repeat 48%N k ++ s) = number_of s.
Proof.
  unfold number_of. rewrite fold_left_app.
  replace (fold_left _ (repeat 48%N k) 0%nat) with 0%nat; [reflexivity|].
  induction k; cbn; auto.
Qed.

Lemma number_of_padStart (t : nat) (n : nat) :
  number_of (padStart t 48%N (toString n)) = n.
Proof. unfold padStart. now rewrite fold_zero_prefix, number_of_toString. Qed.

Lemma padStart_digits (t : nat) (s : jsstring) :
  all_digits s -> all_digits (padStart t 48%N s).
Proof.
  intros H. unfold padStart. apply Forall_app. split; [|exact H].
  apply Forall_forall. intros c Hc. apply repeat_spec in Hc. now subst.
Qed.

Lemma two_digits_below_100 (s : jsstring) :
  all_digits s -> (List.length s <= 2)%nat -> (number_of s < 100)%nat.
Proof.
  intros H L. destruct s as [|a [|b [|c s]]]; [cbn; lia | | |cbn in L; lia].
  - inversion H as [|? ? Ha _]; subst. unfold number_of, digit_value. cbn.
    unfold Json.is_digit in Ha. apply andb_true_iff in Ha as [H1 H2].
    apply N.leb_le in H1, H2. lia.
  - inversion H as [|? ? Ha H']; subst. inversion H' as [|? ? Hb _]; subst.
    unfold number_of, digit_value. cbn.
    unfold Json.is_digit in Ha, Hb.
    apply andb_true_iff in Ha as [H1 H2]. apply andb_true_iff in Hb as [H3 H4].
    apply N.leb_le in H1, H2, H3, H4. lia.
Qed.

Lemma below_100_two_digits (n : nat) :
  (n < 100)%nat -> (List.length (toString n) <= 2)%nat.
Proof.
  intros H.
  assert (A : forallb (fun k => Nat.leb (List.length (toString k)) 2) (seq 0 100)
              = true) by (vm_compute; reflexivity).
  rewrite forallb_forall in A. apply Nat.leb_le, A, in_seq. lia.
Qed.

Lemma toString_nonempty (n : nat) : (1 <= List.length (toString n))%nat.
Proof.
  destruct (toString n) eqn:E; [|cbn; lia].
  pose proof (number_of_toString n) as H. rewrite E in H. cbn in H. subst n.
  discriminate E.
Qed.

Lemma padStart_length (t : nat) (c : codeunit) (s : jsstring) :
  List.length (padStart t c s) = Nat.max t (List.length s).
Proof. unfold padStart. rewrite length_app, repeat_length. lia. Qed.

Lemma toString_width (n : nat) :
  (List.length (toString n) <= 2)%nat <-> (n < 100)%nat.
Proof.
  split; [|apply below_100_two_digits].
  intros L. rewrite <- (number_of_toString n) at 1.
  apply two_digits_below_100; [apply uint_codes_digits | exact L].
Qed.

(** X1.  [formatTime] writes minutes, a colon and seconds: both fields are
    decimal digits, the minutes field has at least two of them and the
    seconds field exactly two, the seconds field reads as a number below 60,
    and sixty times the minutes field plus the seconds field is the number
    of seconds that was formatted. *)
Theorem formatTime_reads_back (seconds : nat) :
  exists mm ss,
    formatTime seconds = mm ++ lit ":" ++ ss
    /\ all_digits mm /\ all_digits ss
    /\ (2 <= List.length mm)%nat /\ List.length ss = 2%nat
    /\ (number_of ss < 60)%nat
    /\ (60 * number_of mm + number_of ss = seconds)%nat.
Proof.
  exists (padStart 2 48%N (toString (seconds / 60))),
         (padStart 2 48%N (toString (seconds mod 60))).
  assert (Hs : (seconds mod 60 < 60)%nat) by (apply Nat.mod_upper_bound; lia).
  repeat split.
  - apply padStart_digits, uint_codes_digits.
  - apply padStart_digits, uint_codes_digits.
  - rewrite padStart_length. lia.
  - rewrite padStart_length.
    assert ((List.length (toString (seconds mod 60)) <= 2)%nat)
      by (apply toString_width; lia). lia.
  - now rewrite number_of_padStart.
  - rewrite !number_of_padStart. symmetry. apply Nat.div_mod_eq.
Qed.

(** X2.  The clock is five characters wide exactly for durations below one
    hundred minutes; from 100:00 on the minutes field grows, since padStart
    never cuts. *)
Theorem formatTime_width (seconds : nat) :
  List.length (formatTime seconds) = 5%nat <-> (seconds < 60 * 100)%nat.
Proof.
  unfold formatTime. cbn zeta.
  rewrite !length_app, !padStart_length. change (List.length (lit ":")) with 1%nat.
  assert (Hs : (seconds mod 60 < 60)%nat) by (apply Nat.mod_upper_bound; lia).
  assert (L2 : (List.length (toString (seconds mod 60)) <= 2)%nat)
    by (apply toString_width; lia).
  pose proof (toString_width (seconds / 60)) as W.
  assert (D : (seconds / 60 < 100 <-> seconds < 60 * 100)%nat).
  { pose proof (Nat.div_mod_eq seconds 60) as E. split; intros H.
    - lia.
    - apply Nat.Div0.div_lt_upper_bound. exact H. }
  rewrite <- D, <- W. lia.
Qed.

End FormattingFacts.

(** ** Fences in general *)

Section FenceFacts.
Import Regex Sanitize Json GeminiService Fences.

Lemma matchN_seq (a b : node) (k : jsstring -> caps -> option caps)
      (s : jsstring) (cs : caps) :
  matchN (Seq a b) k s cs = matchN a (fun s' cs' => matchN b k s' cs') s cs.
Proof. reflexivity. Qed.

Lemma matchN_lit (l : jsstring) (k : jsstring -> caps -> option caps)
      (s : jsstring) (cs : caps) :
  matchN (Lit l) k s cs =
  match strip_prefix l s with Some s' => k s' cs | None => None end.
Proof. reflexivity. Qed.

Lemma star_lazy_sound {A} (p : codeunit -> bool) (k : jsstring -> option A)
      (s : jsstring) (r : A) :
  star_lazy p k s = Some r -> exists rest, extends s rest /\ k rest = Some r.
Proof.
  induction s as [|c s IH]; cbn.
  - destruct (k []) eqn:E; cbn; [|discriminate].
    intros [= <-]. exists []. split; [apply extends_refl | exact E].
  - destruct (k (c :: s)) eqn:E; cbn.
    + intros [= <-]. exists (c :: s). split; [apply extends_refl | exact E].
    + destruct (p c); [|discriminate]. intros H.
      destruct (IH H) as (rest & He & Hk). exists rest. split; [|exact Hk].
      apply consumes_extends, extends_cons, He.
Qed.

(** Whatever a node matches, its continuation is entered at a later
    position of the same input. *)
Lemma matchN_extends (n : node) :
  forall k s cs r,
    matchN n k s cs = Some r ->
    exists s' cs', extends s s' /\ k s' cs' = Some r.
Proof.
  induction n as [l | c | c | n IH | i n IH | a IHa b IHb | ];
    intros k s cs r; cbn [matchN].
  - destruct (strip_prefix l s) as [s'|] eqn:E; [|discriminate].
    intros H. exists s', cs. split; [|exact H].
    apply strip_prefix_sound in E. now exists l.
  - intros H. apply star_greedy_sound in H as (pre & rest & -> & _ & H).
    exists rest, cs. split; [now exists pre | exact H].
  - intros H. apply star_lazy_sound in H as (rest & He & H). eauto.
  - destruct (matchN n _ s _) as [r'|] eqn:E; cbn [orelse].
    + intros [= <-]. apply IH in E as (s' & cs' & He & Hk).
      destruct (Nat.eqb _ _); [discriminate|]. eauto.
    + intros H. exists s, cs. split; [apply extends_refl | exact H].
  - intros H. apply IH in H as (s' & cs' & He & Hk). eauto.
  - intros H. apply IHa in H as (s1 & cs1 & He1 & H).
    apply IHb in H as (s2 & cs2 & He2 & H).
    exists s2, cs2. split; [eapply extends_trans; eauto | exact H].
  - destruct s; [|discriminate]. intros H. exists [], cs.
    split; [apply extends_refl | exact H].
Qed.

(** A match of [fenceRegex] spans a text between two fences, and its
    group 2 is a part of that text with only white space between it and
    the closing fence. *)
Lemma fence_match_shape (s : jsstring) (m : caps) :
  match_anchored fenceRegex s = Some m ->
  exists pre g w,
    s = backticks ++ pre ++ g ++ w ++ backticks
    /\ all_space w /\ cap 2 m = Some g.
Proof.
  unfold match_anchored, fenceRegex. intros H.
  rewrite matchN_seq, matchN_lit in H.
  destruct (strip_prefix backticks s) as [s1|] eqn:E1; [|discriminate].
  apply strip_prefix_sound in E1. subst s.
  rewrite matchN_seq in H.
  apply matchN_extends in H as (s2 & c2 & (p2 & ->) & H).
  rewrite matchN_seq in H.
  apply matchN_extends in H as (s3 & c3 & (p3 & ->) & H).
  rewrite matchN_seq in H.
  apply matchN_extends in H as (s4 & c4 & (p4 & ->) & H).
  change (Seq (Group 2 (StarLazy Any))
              (Seq (Opt (Lit [10%N]))
                   (Seq (Star Space) (Seq (Lit backticks) Eol))))
    with fence_body in H.
  change (fun (_ : jsstring) (cs : caps) => Some cs) with K0 in H.
  rewrite fence_body_unfold in H.
  apply star_lazy_sound in H as (rest & (g & ->) & H).
  apply fence_tail_sound in H as (w & -> & Hw & ->).
  exists (p2 ++ p3 ++ p4), g, w. split; [|split].
  - now rewrite <- !app_assoc.
  - exact Hw.
  - rewrite consumed_app. apply cap_setcap.
Qed.

Lemma space_not_word (c : codeunit) : is_space c = true -> is_word c = false.
Proof.
  unfold is_space, is_word. intros H.
  apply not_true_is_false. intros W.
  repeat first [ rewrite orb_true_iff in H | rewrite andb_true_iff in H
               | rewrite N.leb_le in H | rewrite N.eqb_eq in H ].
  repeat first [ rewrite orb_true_iff in W | rewrite andb_true_iff in W
               | rewrite N.leb_le in W | rewrite N.eqb_eq in W ].
  lia.
Qed.

Lemma trimStart_head (s : jsstring) :
  trimStart s = [] \/
  exists b r, trimStart s = b :: r /\ is_space b = false.
Proof.
  induction s as [|c s IH]; cbn; [now left|].
  destruct (is_space c) eqn:E; [exact IH|]. right. eauto.
Qed.

Lemma trimStart_length (s : jsstring) :
  (List.length (trimStart s) <= List.length s)%nat.
Proof.
  induction s as [|c s IH]; cbn; [lia|].
  destruct (is_space c); cbn; lia.
Qed.

Lemma trimEnd_length (s : jsstring) :
  (List.length (trimEnd s) <= List.length s)%nat.
Proof.
  unfold trimEnd. rewrite length_rev.
  etransitivity; [apply trimStart_length|]. now rewrite length_rev.
Qed.

(** A non-empty text that is its own trim starts and ends off white
    space. *)
Lemma trimmed_ends (t : jsstring) :
  t <> [] -> trim t = t ->
  (exists b mid, t = b :: mid /\ is_space b = false)
  /\ (exists init e, t = init ++ [e] /\ is_space e = false).
Proof.
  intros Hne Ht. split.
  - destruct t as [|b mid]; [contradiction|].
    exists b, mid. split; [reflexivity|].
    destruct (is_space b) eqn:E; [|reflexivity]. exfalso.
    assert (L : (List.length (trim (b :: mid)) <= List.length mid)%nat).
    { unfold trim. cbn [trimStart]. rewrite E.
      etransitivity; [apply trimEnd_length | apply trimStart_length]. }
    rewrite Ht in L. cbn in L. lia.
  - unfold trim, trimEnd in Ht.
    destruct (trimStart_head (rev (trimStart t))) as [E | (b & r & E & Hb)];
      rewrite E in Ht; cbn [rev] in Ht.
    + now subst t.
    + exists (rev r), b. split; [now symmetry | exact Hb].
Qed.

(** Group 2 is the content: the lazy star stops at the first position from
    which only white space and the closing fence follow. *)
Lemma fence_body_general (core w : jsstring) (cs : caps) :
  (core = [] \/ exists init e, core = init ++ [e] /\ is_space e = false) ->
  all_space w ->
  matchN fence_body K0 (core ++ w ++ backticks) cs = Some (setcap 2 core cs).
Proof.
  intros Hcore Hw. rewrite fence_body_unfold.
  apply star_lazy_first.
  - apply Forall_forall. reflexivity.
  - intros pre1 pre2 E Hne.
    rewrite app_assoc. apply fence_tail_rejects.
    intros Hs. apply Forall_app in Hs as [Hs _].
    destruct Hcore as [-> | (init & e & -> & He)].
    + symmetry in E. apply app_eq_nil in E as [_ ->]. now apply Hne.
    + destruct (exists_last Hne) as (l & a & ->).
      rewrite app_assoc in E. apply app_inj_tail in E as [_ <-].
      apply Forall_app in Hs as [_ Hs].
      inversion Hs as [|? ? Ha _]. congruence.
  - rewrite consumed_app. now apply fence_tail_complete.
Qed.

Lemma fence_after_tag (ws1 core w : jsstring) (cs : caps) :
  all_space ws1 -> all_space w ->
  (core = [] /\ w = []
   \/ (exists b mid, core = b :: mid /\ is_space b = false)
      /\ (exists init e, core = init ++ [e] /\ is_space e = false)) ->
  matchN (Seq (Star Space) (Seq (Opt (Lit [10%N])) fence_body)) K0
         (ws1 ++ core ++ w ++ backticks) cs
  = Some (setcap 2 core cs).
Proof.
  intros H1 Hw Hcore.
  change (matchN (Seq (Star Space) (Seq (Opt (Lit [10%N])) fence_body)) K0
                 (ws1 ++ core ++ w ++ backticks) cs)
    with (star_greedy (cls_test Space)
            (fun s' => matchN (Seq (Opt (Lit [10%N])) fence_body) K0 s' cs)
            (ws1 ++ core ++ w ++ backticks)).
  apply star_greedy_max; [exact H1|].
  assert (Hhead : exists b rest, core ++ w ++ backticks = b :: rest
                                 /\ is_space b = false).
  { destruct Hcore as [[-> ->] | [(b & mid & -> & Hb) _]].
    - exists 96%N, [96%N; 96%N]. now split.
    - exists b, (mid ++ w ++ backticks). now split. }
  destruct Hhead as (b & rest & E & Hb).
  assert (Hbody : matchN fence_body K0 (b :: rest) cs = Some (setcap 2 core cs)).
  { rewrite <- E. apply fence_body_general; [|exact Hw].
    destruct Hcore as [[-> _] | [_ Hl]]; [now left | now right]. }
  rewrite E, star_greedy_stop by exact Hb.
  rewrite opt_lf_unfold. cbn [strip_prefix].
  destruct (N.eqb 10 b) eqn:E10.
  - apply N.eqb_eq in E10. subst b. discriminate Hb.
  - cbn [orelse]. exact Hbody.
Qed.

Lemma fence_opening_unfold (s : jsstring) :
  match_anchored fenceRegex (backticks ++ s) =
  orelse
    (star_greedy (cls_test Word)
       (fun s'' =>
          if Nat.eqb (List.length s'') (List.length s) then None
          else matchN (Seq (Star Space) (Seq (Opt (Lit [10%N])) fence_body))
                      K0 s'' (setcap 1 (consumed s s'') []))
       s)
    (matchN (Seq (Star Space) (Seq (Opt (Lit [10%N])) fence_body)) K0 s []).
Proof.
  unfold match_anchored, fenceRegex.
  rewrite matchN_seq, matchN_lit, strip_prefix_app. reflexivity.
Qed.

(** The match of [fenceRegex] on a fenced block, whatever the tag and the
    white space inside. *)
Lemma fence_match_general (tag ws1 core w : jsstring) :
  all_word tag -> all_space ws1 -> all_space w ->
  (core = [] /\ w = []
   \/ (exists b mid, core = b :: mid /\ is_space b = false)
      /\ (exists init e, core = init ++ [e] /\ is_space e = false)) ->
  ws1 <> [] \/ starts_off_word core ->
  exists cs,
    match_anchored fenceRegex (fenced_with tag ws1 core w) = Some cs
    /\ cap 2 cs = Some core.
Proof.
  intros Ht H1 Hw Hcore Hadj. unfold fenced_with.
  rewrite fence_opening_unfold.
  assert (Hhead : exists c rest, ws1 ++ core ++ w ++ backticks = c :: rest
                                 /\ is_word c = false).
  { destruct ws1 as [|c ws1].
    - destruct Hcore as [[-> ->] | [(b & mid & -> & Hb) _]].
      + exists 96%N, [96%N; 96%N]. now split.
      + exists b, (mid ++ w ++ backticks). split; [reflexivity|].
        destruct Hadj as [Hadj | Hadj]; [now contradiction Hadj | exact Hadj].
    - exists c, (ws1 ++ core ++ w ++ backticks). split; [reflexivity|].
      apply space_not_word. now inversion H1. }
  destruct Hhead as (c & rest & E & Hc).
  pose proof (fence_after_tag ws1 core w) as Hafter.
  rewrite E in *.
  destruct tag as [|t tag].
  - exists (setcap 2 core []). split; [|apply cap_setcap].
    cbn [app]. rewrite star_greedy_stop by exact Hc.
    rewrite Nat.eqb_refl. cbn [orelse]. now apply Hafter.
  - exists (setcap 2 core (setcap 1 (t :: tag) [])).
    split; [|apply cap_setcap].
    rewrite (@star_greedy_max _ (cls_test Word) _ (t :: tag) (c :: rest)
               (setcap 2 core (setcap 1 (t :: tag) []))).
    + reflexivity.
    + exact Ht.
    + rewrite star_greedy_stop by exact Hc.
      match goal with
      | |- (if ?b then _ else _) = _ => replace b with false
      end.
      * rewrite consumed_app. now apply Hafter.
      * symmetry. apply Nat.eqb_neq. rewrite length_app. cbn. lia.
Qed.

Lemma trim_pad (ws0 ws3 mid : jsstring) (b e : codeunit) :
  all_space ws0 -> all_space ws3 ->
  is_space b = false -> is_space e = false ->
  trim (ws0 ++ (b :: mid ++ [e]) ++ ws3) = b :: mid ++ [e].
Proof.
  intros H0 H3 Hb He. unfold trim.
  rewrite trimStart_spaces by assumption.
  cbn [app]. rewrite trimStart_stop by assumption.
  change (b :: (mid ++ [e]) ++ ws3) with ((b :: mid ++ [e]) ++ ws3).
  rewrite trimEnd_spaces by assumption.
  apply (trimEnd_stop (b :: mid) e He).
Qed.

Lemma fenced_with_shape (tag ws1 t ws2 : jsstring) :
  fenced_with tag ws1 t ws2 =
  96%N :: ([96%N; 96%N] ++ tag ++ ws1 ++ t ++ ws2 ++ [96%N; 96%N]) ++ [96%N].
Proof.
  unfold fenced_with.
  change backticks with ([96%N; 96%N] ++ [96%N]) at 2.
  rewrite <- !app_assoc. reflexivity.
Qed.

Lemma trim_fenced_with (ws0 tag ws1 t ws2 ws3 : jsstring) :
  all_space ws0 -> all_space ws3 ->
  trim (ws0 ++ fenced_with tag ws1 t ws2 ++ ws3) = fenced_with tag ws1 t ws2.
Proof.
  intros H0 H3. rewrite fenced_with_shape. now apply trim_pad.
Qed.

Lemma sanitize_no_fence (t : jsstring) :
  hd_error (trim t) <> Some 96%N -> sanitize t = trim t.
Proof.
  intros H. unfold sanitize. cbv zeta.
  destruct (match_anchored fenceRegex (trim t)) as [m|] eqn:E; [|reflexivity].
  apply fence_match_shape in E as (pre & g & w & E & _).
  rewrite E in H. now contradiction H.
Qed.

(** X3. Whatever white space surrounds the response, whatever word
    characters (or none) follow the opening fence as a tag, and whatever
    white space separates the fences from the content, the text handed to
    [JSON.parse] is the content itself, provided the content is non-empty
    and trimmed, and is told apart from the tag by white space or by a first
    character that is not a word character.  If the content does not itself
    begin with a backtick, the call ends exactly as it does on the bare
    content. *)
Theorem any_fence_is_stripped (ws0 tag ws1 core ws2 ws3 : jsstring) :
  all_space ws0 -> all_word tag -> all_space ws1 -> all_space ws2 ->
  all_space ws3 ->
  core <> [] -> trim core = core ->
  ws1 <> [] \/ starts_off_word core ->
  sanitize (ws0 ++ fenced_with tag ws1 core ws2 ++ ws3) = core
  /\ (hd_error core <> Some 96%N ->
      forall E,
        getSpeechAnalysis E (Responded (ws0 ++ fenced_with tag ws1 core ws2 ++ ws3))
        = getSpeechAnalysis E (Responded core)).
Proof.
  intros H0 Ht H1 H2 H3 Hne Htrim Hadj.
  assert (Hs : sanitize (ws0 ++ fenced_with tag ws1 core ws2 ++ ws3) = core).
  { unfold sanitize.
    rewrite trim_fenced_with by assumption.
    destruct (fence_match_general tag ws1 core ws2) as (cs & -> & ->); auto.
    { right. now apply trimmed_ends. }
    destruct core; [contradiction|]. cbn [nonempty]. exact Htrim. }
  split; [exact Hs|].
  intros Hhd E. unfold getSpeechAnalysis, try_block. cbv zeta.
  rewrite Hs, sanitize_no_fence; rewrite Htrim; [reflexivity | exact Hhd].
Qed.

Lemma any_fence_is_stripped_witness :
  sanitize (lit " " ++ fenced_with (lit "js") [] (lit "[1, 2]") (lit "  ")
            ++ [10%N])
  = lit "[1, 2]"
  /\ (hd_error (lit "[1, 2]") <> Some 96%N ->
      forall E,
        getSpeechAnalysis
          E (Responded (lit " " ++ fenced_with (lit "js") [] (lit "[1, 2]")
                                                (lit "  ")
                        ++ [10%N]))
        = getSpeechAnalysis E (Responded (lit "[1, 2]"))).
Proof.
  apply any_fence_is_stripped.
  - repeat constructor.
  - repeat constructor.
  - constructor.
  - repeat constructor.
  - repeat constructor.
  - discriminate.
  - reflexivity.
  - right. reflexivity.
Defined.

(** X4. A fenced block with nothing but white space between the fences is
    not stripped (group 2 is the empty string, which is falsy):
    [JSON.parse] is given the whole block, backticks included, and the call
    ends in the syntax error for that text. *)
Theorem empty_fence_is_not_stripped (E : Engine) (tag ws : jsstring) :
  all_word tag -> all_space ws ->
  sanitize (fenced_with tag ws [] []) = fenced_with tag ws [] []
  /\ getSpeechAnalysis E (Responded (fenced_with tag ws [] []))
     = Throws (catch_block
                 (ErrorObj (syntaxErrorMessage E (fenced_with tag ws [] [])))).
Proof.
  intros Ht Hw.
  assert (Hs : sanitize (fenced_with tag ws [] []) = fenced_with tag ws [] []).
  { unfold sanitize.
    pose proof (trim_fenced_with [] tag ws [] [] [] (Forall_nil _) (Forall_nil _))
      as Htrim.
    cbn [app] in Htrim. rewrite app_nil_r in Htrim. rewrite Htrim.
    destruct (fence_match_general tag ws [] []) as (cs & -> & ->); auto.
    - constructor.
    - right. exact I. }
  split; [exact Hs|].
  unfold getSpeechAnalysis, try_block. cbv zeta. rewrite Hs.
  assert (Hp : JSON_parse (fenced_with tag ws [] []) = None).
  { unfold fenced_with, JSON_parse. cbn [app backticks lit].
    reflexivity. }
  now rewrite Hp.
Qed.

Lemma empty_fence_is_not_stripped_witness :
  sanitize (fenced_with (lit "json") [10%N] [] [])
  = fenced_with (lit "json") [10%N] [] []
  /\ getSpeechAnalysis v8 (Responded (fenced_with (lit "json") [10%N] [] []))
     = Throws (catch_block
                 (ErrorObj (syntaxErrorMessage v8
                              (fenced_with (lit "json") [10%N] [] [])))).
Proof.
  apply empty_fence_is_not_stripped; repeat constructor.
Defined.

(** X5. The sanitiser leaves the trimmed response as it is unless that
    text lies between an opening and a closing fence of three backticks;
    and what it then hands on is the trim of a non-empty part of the text
    between the fences, with only white space between that part and the
    closing fence. *)
Theorem sanitize_strips_only_fences (text : jsstring) :
  sanitize text = trim text
  \/ exists pre g w,
       trim text = backticks ++ pre ++ g ++ w ++ backticks
       /\ g <> [] /\ all_space w /\ sanitize text = trim g.
Proof.
  unfold sanitize. cbv zeta.
  destruct (match_anchored fenceRegex (trim text)) as [m|] eqn:E; [|now left].
  apply fence_match_shape in E as (pre & g & w & E & Hw & ->).
  destruct g as [|c g]; [now left|]. right.
  exists pre, (c :: g), w. repeat split; auto. discriminate.
Qed.

Lemma trimStart_all_space (w : jsstring) : all_space w -> trimStart w = [].
Proof.
  intros H. induction H as [|c w Hc _ IH]; cbn; [reflexivity|].
  now rewrite Hc.
Qed.

Lemma trimStart_app_space (t w : jsstring) :
  all_space w ->
  trimStart (t ++ w) = trimStart t ++ w
  \/ (trimStart t = [] /\ trimStart (t ++ w) = []).
Proof.
  intros Hw. induction t as [|c t IH]; cbn.
  - right. split; [reflexivity | now apply trimStart_all_space].
  - destruct (is_space c); [exact IH | now left].
Qed.

Lemma trim_surrounded (ws0 t ws3 : jsstring) :
  all_space ws0 -> all_space ws3 -> trim (ws0 ++ t ++ ws3) = trim t.
Proof.
  intros H0 H3. unfold trim. rewrite trimStart_spaces by assumption.
  destruct (trimStart_app_space t ws3 H3) as [-> | [-> ->]].
  - now apply trimEnd_spaces.
  - reflexivity.
Qed.

(** X6. White space around the response text never matters: the call
    ends the same way with and without it, whatever the text is. *)
Theorem surrounding_space_is_ignored (E : Engine) (ws0 text ws3 : jsstring) :
  all_space ws0 -> all_space ws3 ->
  sanitize (ws0 ++ text ++ ws3) = sanitize text
  /\ getSpeechAnalysis E (Responded (ws0 ++ text ++ ws3))
     = getSpeechAnalysis E (Responded text).
Proof.
  intros H0 H3.
  assert (Hs : sanitize (ws0 ++ text ++ ws3) = sanitize text).
  { unfold sanitize. now rewrite trim_surrounded. }
  split; [exact Hs|].
  unfold getSpeechAnalysis, try_block. cbv zeta. now rewrite Hs.
Qed.

Lemma surrounding_space_is_ignored_witness :
  sanitize ([10%N; 32%N] ++ lit "not json" ++ [9%N]) = sanitize (lit "not json")
  /\ getSpeechAnalysis v8 (Responded ([10%N; 32%N] ++ lit "not json" ++ [9%N]))
     = getSpeechAnalysis v8 (Responded (lit "not json")).
Proof.
  apply surrounding_space_is_ignored; repeat constructor.
Defined.

End FenceFacts.

(** ** The page *)

Section PageFacts.
Import Json GeminiService App AudioUploader.
Import Page.

Variable E : Engine.

Lemma page_run_app (w : World) (es1 es2 : list Event) :
  run E w (es1 ++ es2) = run E (run E w es1) es2.
Proof. apply fold_left_app. Qed.

Lemma page_all_along_app p (w : World) (es1 es2 : list Event) :
  all_along E p w (es1 ++ es2) =
  all_along E p w es1 && all_along E p (run E w es1) es2.
Proof.
  revert w. induction es1 as [|e es1 IH]; intros w; cbn; [reflexivity|].
  rewrite IH, andb_assoc. reflexivity.
Qed.

(** Induction on the runs from a given state, from the last event. *)
Lemma page_run_ind (p : World -> Event -> bool) (P : World -> Prop)
      (w0 : World) :
  P w0 ->
  (forall w e, P w -> p w e = true -> P (step E w e)) ->
  forall es, all_along E p w0 es = true -> P (run E w0 es).
Proof.
  intros H0 Hstep es. induction es as [|e es IH] using rev_ind; intros Hes.
  - exact H0.
  - rewrite page_all_along_app in Hes. apply andb_true_iff in Hes as [H1 H2].
    rewrite page_run_app. cbn in *. rewrite andb_true_r in H2.
    apply Hstep; auto.
Qed.

(** *** What the service hands to the controller *)

Lemma catch_block_is_error (e : thrown) : exists m, catch_block e = ErrorObj m.
Proof. destruct e; cbn; eauto. Qed.

Lemma getSpeechAnalysis_outcomes (api : api_outcome) :
  (exists v, getSpeechAnalysis E api = Returns v /\ accepted v = true)
  \/ (exists e, getSpeechAnalysis E api = Throws (catch_block e)).
Proof.
  unfold getSpeechAnalysis.
  destruct (try_block E api) as [v|e] eqn:Et; [left | right; eauto].
  exists v. split; [reflexivity|].
  destruct api as [text| |e]; cbn in Et; try discriminate.
  destruct (JSON_parse (Sanitize.sanitize text)) as [p|]; [|discriminate].
  apply validate_returns in Et as [-> Ha]. exact Ha.
Qed.

Lemma accepted_truthy (v : json) : accepted v = true -> truthy v = true.
Proof.
  destruct v; try reflexivity; cbn; discriminate.
Qed.

(** *** What the controller holds in the runs of the page *)

Ltac cleared :=
  unfold page_invariant; cbn;
  repeat split; intros; try discriminate; try tauto;
  try match goal with
      | H : _ \/ _ |- _ => destruct H; discriminate
      end.

Lemma page_invariant_start (b : bool) : page_invariant (start b).
Proof. cleared. Qed.

Lemma page_invariant_step (w : World) (e : Event) :
  page_invariant w -> rendered w e = true -> page_invariant (step E w e).
Proof.
  intros J Hr.
  destruct w as [[st cs] u].
  destruct e as [m|f| | | |now|i api now|mime| | |data| |iso];
    try exact J.
  - (* mode button *) cleared.
  - (* a file is picked *) cleared.
  - (* the bin *) cleared.
  - (* analyze *)
    cbn in Hr. apply andb_true_iff in Hr as [Hr _].
    apply andb_true_iff in Hr as [Hf _].
    unfold App.has_file in Hf.
    destruct (App.file st) as [f|] eqn:Ef; [|discriminate].
    unfold step, in_app, App.step. cbn [app App.ui].
    rewrite (handleAnalyze_file now st f Ef).
    cleared.
  - (* a call settles *)
    unfold step, in_app, App.step. cbn [app App.ui App.calls].
    destruct (nth_error cs i) as [c|]; [|exact J].
    unfold page_invariant in *. cbn [app App.ui] in *.
    destruct J as (J1 & J2 & J3 & J4 & J5).
    destruct (getSpeechAnalysis_outcomes api) as [(v & -> & Hv) | (x & ->)].
    + cbn. repeat split; intros; try discriminate; auto;
        try match goal with
            | H : _ \/ _ |- _ => destruct H; discriminate
            end.
      * congruence.
      * eauto.
    + cbn. repeat split; intros; try discriminate; auto;
        try match goal with
            | H : _ \/ _ |- _ => destruct H; discriminate
            end.
      * apply (J4 v H).
      * apply (J4 v H).
      * injection H as <-. destruct (catch_block_is_error x) as [inner Hx].
        exists x, inner. split; [exact Hx|]. now rewrite Hx.
  - (* the recorder stops *) cleared.
Qed.

Lemma page_invariant_runs (b : bool) (es : list Event) :
  all_along E rendered (start b) es = true ->
  page_invariant (run E (start b) es).
Proof.
  apply page_run_ind; [apply page_invariant_start|].
  apply page_invariant_step.
Qed.

(** X7. In every run of the page that uses the rendered controls, stale
    settlements included, the right-hand column shows exactly one panel: the
    spinner while analysing, in ERROR the error panel with a message
    "Analysis Failed: ..." that wraps an Error of [getSpeechAnalysis], in
    SUCCESS the results of a value that passed the validation together with
    its duration, and in IDLE the placeholder. *)
Theorem page_shows_one_panel (b : bool) (es : list Event) :
  all_along E rendered (start b) es = true ->
  let st := ui (app (run E (start b) es)) in
  match appState st with
  | ANALYZING => panels st = [Spinner]
  | ERROR =>
      exists e inner,
        catch_block e = ErrorObj inner
        /\ panels st = [ErrorPanel (Some (lit "Analysis Failed: " ++ inner))]
  | SUCCESS =>
      exists v t, accepted v = true /\ panels st = [Results v (Some t)]
  | IDLE => panels st = [Placeholder (inputMode st)]
  end.
Proof.
  intros Hes. apply page_invariant_runs in Hes.
  cbv zeta. unfold page_invariant in Hes. cbv zeta in Hes.
  destruct Hes as (J1 & J2 & J3 & J4 & J5).
  unfold panels.
  destruct (appState (ui (app (run E (start b) es)))) eqn:Es.
  - destruct J1 as [-> _]; [now left|]. reflexivity.
  - reflexivity.
  - destruct (analysis _) as [v|] eqn:Ea; [|now contradiction J2].
    destruct (J4 v eq_refl) as (Hv & t & ->).
    exists v, t. split; [exact Hv|].
    now rewrite (accepted_truthy v Hv).
  - destruct (error _) as [m|] eqn:Ee; [|now contradiction J3].
    destruct (J5 m eq_refl) as (e & inner & He & ->).
    exists e, inner. split; [exact He | reflexivity].
Qed.

(** X8. The guard of [handleAnalyze] is never taken through the rendered
    controls: in every such run the analyze button is enabled only with a
    file present, so the message "Please select or record a file first." is
    never stored. *)
Theorem no_file_guard_is_never_taken (b : bool) (es : list Event) :
  all_along E rendered (start b) es = true ->
  error (ui (app (run E (start b) es))) <> Some no_file_message.
Proof.
  intros Hes. apply page_invariant_runs in Hes.
  destruct Hes as (_ & _ & _ & _ & J5). intros He.
  destruct (J5 _ He) as (e & inner & _ & Hm). discriminate Hm.
Qed.

(** *** A recorder that stops by itself *)

Lemma stuck_step (w : World) (e : Event) :
  stuck w = true -> rendered w e = true -> stuck (step E w e) = true.
Proof.
  unfold stuck. cbv zeta. intros Hs Hr.
  apply andb_true_iff in Hs as [Hs Hp]. apply andb_true_iff in Hs as [Hi Hm].
  apply Nat.eqb_eq in Hp.
  destruct w as [a [c br em]]. cbn in Hi, Hm, Hp.
  destruct c as [mr sr ch ir rec secs me]. cbn in Hi, Hm. subst rec.
  destruct mr; [discriminate|].
  destruct br as [ls ai ns ni sup pend]. cbn in Hp. subst pend.
  destruct e; try reflexivity.
  - (* the microphone button is not rendered *)
    cbn in Hr. rewrite !andb_false_r in Hr. cbn in Hr.
    rewrite ?andb_false_r in Hr. discriminate.
  - (* a timer fires *)
    cbn. destruct ai; reflexivity.
  - (* the stop event *)
    cbn. destruct ir, sr; reflexivity.
Qed.

(** X9. When the recorder fires its stop event while [isRecording] is
    still true (it stopped by itself, [handleStopRecording] was not run) and
    no microphone request is pending, no run of the rendered controls gets
    the page out of it: [isRecording] stays true, the stop button does
    nothing, and neither the microphone button nor the analyze button is
    ever enabled again. *)
Theorem self_stopped_recorder_blocks_the_page
        (w : World) (iso : jsstring) (es : list Event) :
  isRecording (comp (uploader w)) = true ->
  pendingRequests (browser (uploader w)) = 0%nat ->
  all_along E rendered (step E w (RecorderStops iso)) es = true ->
  let w' := run E (step E w (RecorderStops iso)) es in
  isRecording (comp (uploader w')) = true
  /\ step E w' ClickStop = w'
  /\ rendered w' ClickStart = false
  /\ (forall now, rendered w' (ClickAnalyze now) = false).
Proof.
  intros Hi Hp Hes. cbv zeta.
  assert (Hs : stuck (run E (step E w (RecorderStops iso)) es) = true).
  { revert Hes.
    apply (page_run_ind rendered (fun x => stuck x = true));
      [|apply stuck_step].
    unfold stuck. cbv zeta.
    destruct w as [a [c br em]]. cbn in Hi, Hp.
    destruct c as [mr sr ch ir rec secs me]. cbn in Hi. subst rec.
    destruct br as [ls ai ns ni sup pend]. cbn in Hp. subst pend.
    cbn. destruct ir, sr; reflexivity. }
  remember (run E (step E w (RecorderStops iso)) es) as w' eqn:Ew'.
  clear Ew' Hes Hi Hp.
  unfold stuck in Hs. cbv zeta in Hs.
  apply andb_true_iff in Hs as [Hs _]. apply andb_true_iff in Hs as [Hi Hm].
  destruct w' as [a [c br em]]. cbn in Hi, Hm.
  destruct c as [mr sr ch ir rec secs me]. cbn in Hi, Hm. subst rec.
  destruct mr; [discriminate|].
  repeat split.
  - cbn. now rewrite !andb_false_r.
  - intros now. cbn. now rewrite !andb_false_r.
Qed.

(** *** One recording *)

Lemma capture_run (es : list Event) :
  forall w,
    forallb is_capture es = true ->
    activeIntervals (browser (uploader w)) <> [] ->
    run E w es = {| app := app w; uploader := captured es (uploader w) |}.
Proof.
  induction es as [|e es IH]; intros w Hes Hai.
  - destruct w as [a [c br em]]. destruct c. unfold captured. cbn.
    now rewrite app_nil_r, Nat.add_0_r.
  - cbn [forallb] in Hes. apply andb_true_iff in Hes as [He Hes].
    cbn [run fold_left]. change (fold_left (step E) es) with (fun w => run E w es).
    cbv beta.
    destruct w as [a [c br em]]. destruct c as [mr sr ch ir rec secs me].
    destruct br as [ls ai ns ni sup pend]. cbn in Hai.
    destruct e; try discriminate He.
    + rewrite IH by assumption. unfold captured. cbn.
      rewrite <- app_assoc. reflexivity.
    + destruct ai as [|h ai]; [contradiction|].
      rewrite IH by assumption. unfold captured. cbn.
      now rewrite Nat.add_succ_r.
Qed.

(** X10. One recording, end to end.  From any state in which the
    microphone button is enabled, in a browser that supports recording: the
    click, the grant, any chunks and timer ticks, the click on stop (which
    is rendered then), any further chunks and ticks, and the stop event.
    While recording, the clock counts the ticks; at the end the controller
    is IDLE and holds one file, named after the time of the stop event, of
    the type the recorder negotiated (audio/webm if that is empty), whose
    content is all the chunks in the order they arrived, and the analyze
    button is enabled. *)
Theorem recording_reaches_the_controller
        (w : World) (mime iso : jsstring) (during after : list Event) :
  rendered w ClickStart = true ->
  supported (browser (uploader w)) = true ->
  forallb is_capture during = true ->
  forallb is_capture after = true ->
  let w1 := run E w ([ClickStart; MicGranted mime] ++ during) in
  let w2 := run E w (take mime during after iso) in
  (isRecording (comp (uploader w1)) = true
   /\ recordingSeconds (comp (uploader w1)) = ticks during
   /\ rendered w1 ClickStop = true)
  /\ file (ui (app w2))
     = Some {| file_name := lit "recording-" ++ iso ++ lit ".webm";
               file_type := if nonempty mime then mime else default_mime;
               file_bits := List.concat (chunks during ++ chunks after) |}
  /\ appState (ui (app w2)) = IDLE
  /\ isRecording (comp (uploader w2)) = false
  /\ (forall now, rendered w2 (ClickAnalyze now) = true).
Proof.
  intros Hr Hsup Hd Ha. cbv zeta. unfold take.
  rewrite !page_run_app.
  destruct w as [[st cs] [c br em]].
  destruct c as [mr sr ch ir rec secs me].
  destruct br as [ls ai ns ni sup pend]. cbn in Hsup. subst sup.
  cbn in Hr.
  destruct (has_file st) eqn:Hf; [discriminate|].
  destruct (recording_mode st) eqn:Hm; [|discriminate].
  cbn [run fold_left app]. cbn [step in_uploader AudioUploader.step uploader
    Page.app handleStartRecording browser supported].
  cbn [with_pending pendingRequests comp emitted].
  rewrite (capture_run during) by (try assumption; cbn; discriminate).
  cbn [uploader Page.app].
  split.
  { cbn. rewrite Hf, Hm. repeat split. }
  cbn [step in_uploader AudioUploader.step uploader Page.app].
  match goal with
  | |- context [Page.run E ?x after] =>
      rewrite (capture_run after x) by (try assumption; cbn; discriminate)
  end.
  cbn. unfold recording_file, stop_mimeType. cbn. repeat split.
Qed.

(** *** The spinner *)

Lemma spinner_invariant_step (w : World) (e : Event) :
  spinner_invariant w -> spinner_invariant (step E w e).
Proof.
  intros J. destruct w as [[st cs] u].
  destruct e as [m|f| | | |now|i api now|mime| | |data| |iso];
    try exact J; try (intros H; discriminate H).
  - (* analyze *)
    unfold step, in_app, App.step. cbn [Page.app ui calls].
    destruct (file st) as [f|] eqn:Ef.
    + rewrite (handleAnalyze_file now st f Ef). intros _.
      exists cs, {| call_file := f; startTime := now |}. now split.
    + rewrite (handleAnalyze_no_file now st Ef). exact J.
  - (* a call settles *)
    unfold step, in_app, App.step. cbn [Page.app ui calls].
    destruct (nth_error cs i) as [c|]; [|exact J].
    intros H. destruct (getSpeechAnalysis E api); discriminate H.
Qed.

(** X11. In every run of the page, whatever the events, the spinner is
    shown only while a call is in flight, and the call dispatched last is
    the one for the file on display. *)
Theorem spinner_means_call_in_flight (b : bool) (es : list Event) :
  let w := run E (start b) es in
  appState (ui (Page.app w)) = ANALYZING ->
  exists cs c,
    calls (Page.app w) = cs ++ [c]
    /\ file (ui (Page.app w)) = Some (call_file c).
Proof.
  cbv zeta. change (spinner_invariant (run E (start b) es)).
  induction es as [|e es IH] using rev_ind.
  - intros H. discriminate H.
  - rewrite page_run_app. apply spinner_invariant_step, IH.
Qed.

End PageFacts.

Lemma page_shows_one_panel_witness :
  exists e inner,
    GeminiService.catch_block e = GeminiService.ErrorObj inner
    /\ Page.panels
         (App.ui (Page.app
            (Page.run GeminiService.v8 (Page.start true)
               [Page.ClickMode App.record; Page.ClickStart;
                Page.MicGranted AudioUploader.opus;
                Page.DataAvailable [1%N]; Page.ClickStop;
                Page.RecorderStops (lit "t"); Page.ClickAnalyze 0;
                Page.ApiSettles 0 (GeminiService.Responded (lit "oops")) 1])))
       = [Page.ErrorPanel (Some (lit "Analysis Failed: " ++ inner))].
Proof.
  apply (page_shows_one_panel GeminiService.v8 true
           [Page.ClickMode App.record; Page.ClickStart;
            Page.MicGranted AudioUploader.opus;
            Page.DataAvailable [1%N]; Page.ClickStop;
            Page.RecorderStops (lit "t"); Page.ClickAnalyze 0;
            Page.ApiSettles 0 (GeminiService.Responded (lit "oops")) 1]).
  reflexivity.
Defined.

Lemma no_file_guard_is_never_taken_witness :
  App.error
    (App.ui (Page.app
       (Page.run GeminiService.v8 (Page.start true)
          [Page.PickFile (App.clip (lit "a.wav")); Page.ClickAnalyze 0;
           Page.ClickRemove;
           Page.ApiSettles 0 (GeminiService.Rejected GeminiService.NonError) 1])))
  <> Some App.no_file_message.
Proof.
  apply (no_file_guard_is_never_taken GeminiService.v8 true
           [Page.PickFile (App.clip (lit "a.wav")); Page.ClickAnalyze 0;
            Page.ClickRemove;
            Page.ApiSettles 0 (GeminiService.Rejected GeminiService.NonError) 1]).
  reflexivity.
Defined.

Lemma self_stopped_recorder_blocks_the_page_witness :
  let w := Page.run GeminiService.v8 (Page.start true)
             [Page.ClickMode App.record; Page.ClickStart;
              Page.MicGranted AudioUploader.opus] in
  let w' := Page.run GeminiService.v8
              (Page.step GeminiService.v8 w (Page.RecorderStops (lit "t")))
              [Page.ClickRemove; Page.ClickStop; Page.ClickMode App.upload;
               Page.PickFile (App.clip (lit "a.wav"))] in
  AudioUploader.isRecording (AudioUploader.comp (Page.uploader w')) = true
  /\ Page.step GeminiService.v8 w' Page.ClickStop = w'
  /\ Page.rendered w' Page.ClickStart = false
  /\ (forall now, Page.rendered w' (Page.ClickAnalyze now) = false).
Proof.
  apply (self_stopped_recorder_blocks_the_page GeminiService.v8
           (Page.run GeminiService.v8 (Page.start true)
              [Page.ClickMode App.record; Page.ClickStart;
               Page.MicGranted AudioUploader.opus])
           (lit "t")
           [Page.ClickRemove; Page.ClickStop; Page.ClickMode App.upload;
            Page.PickFile (App.clip (lit "a.wav"))]);
    reflexivity.
Defined.

Lemma recording_reaches_the_controller_witness :
  let w := Page.step GeminiService.v8 (Page.start true)
             (Page.ClickMode App.record) in
  let during := [Page.Tick; Page.DataAvailable [1%N; 2%N]; Page.Tick] in
  let after := [Page.DataAvailable [3%N]] in
  let w1 := Page.run GeminiService.v8 w
              ([Page.ClickStart; Page.MicGranted AudioUploader.opus] ++ during) in
  let w2 := Page.run GeminiService.v8 w
              (Page.take AudioUploader.opus during after (lit "t")) in
  (AudioUploader.isRecording (AudioUploader.comp (Page.uploader w1)) = true
   /\ AudioUploader.recordingSeconds (AudioUploader.comp (Page.uploader w1))
      = 2%nat
   /\ Page.rendered w1 Page.ClickStop = true)
  /\ App.file (App.ui (Page.app w2))
     = Some {| file_name := lit "recording-t.webm";
               file_type := AudioUploader.opus;
               file_bits := [1%N; 2%N; 3%N] |}
  /\ App.appState (App.ui (Page.app w2)) = App.IDLE
  /\ AudioUploader.isRecording (AudioUploader.comp (Page.uploader w2)) = false
  /\ (forall now, Page.rendered w2 (Page.ClickAnalyze now) = true).
Proof.
  apply (recording_reaches_the_controller GeminiService.v8
           (Page.step GeminiService.v8 (Page.start true)
              (Page.ClickMode App.record))
           AudioUploader.opus (lit "t")
           [Page.Tick; Page.DataAvailable [1%N; 2%N]; Page.Tick]
           [Page.DataAvailable [3%N]]);
    reflexivity.
Defined.

Lemma spinner_means_call_in_flight_witness :
  exists cs c,
    App.calls (Page.app (Page.run GeminiService.v8 (Page.start true)
                 [Page.PickFile (App.clip (lit "a.wav")); Page.ClickAnalyze 0]))
    = cs ++ [c]
    /\ App.file (App.ui (Page.app (Page.run GeminiService.v8 (Page.start true)
                 [Page.PickFile (App.clip (lit "a.wav")); Page.ClickAnalyze 0])))
       = Some (App.call_file c).
Proof.
  apply (spinner_means_call_in_flight GeminiService.v8 true
           [Page.PickFile (App.clip (lit "a.wav")); Page.ClickAnalyze 0]).
  reflexivity.
Defined.

(** ** The guard of [handleAnalyze] and the analyze button *)

Section GuardFacts.
Import Json GeminiService.


End GuardFacts.


(** ** Recording in a browser without [getUserMedia] *)

Section Unsupported.
Import AudioUploader.

Lemma unsupported_step (w : World) (e : Event) :
  supported (browser w) = false ->
  liveStreams (browser w) = [] -> activeIntervals (browser w) = [] ->
  pendingRequests (browser w) = 0%nat ->
  streamRef (comp w) = None -> recordingIntervalRef (comp w) = None ->
  mediaRecorderRef (comp w) = None ->
  isRecording (comp w) = false ->
  browser (step w e) = browser w
  /\ streamRef (comp (step w e)) = None
  /\ recordingIntervalRef (comp (step w e)) = None
  /\ mediaRecorderRef (comp (step w e)) = None
  /\ isRecording (comp (step w e)) = false
  /\ recordingSeconds (comp (step w e)) = recordingSeconds (comp w)
  /\ micError (comp (step w e)) =
     match e with
     | StartRecording => Some unsupported_message
     | _ => micError (comp w)
     end.
Proof.
  destruct w as [c br em]. destruct c as [mr sr ch ir rec secs me].
  destruct br as [ls ai ns ni sup pend]. cbn.
  intros -> -> -> -> -> -> -> ->.
  destruct e; cbn; repeat split.
Qed.

(** X12. In a browser without [navigator.mediaDevices.getUserMedia] no
    run of the component, whatever the events, ever takes a stream, starts
    a timer, leaves a request pending or shows a recording; and once the
    microphone button has been clicked the message "Audio recording is not
    supported by your browser." stays on display. *)
Theorem unsupported_browser_never_records (es : list Event) :
  let w := run (start false) es in
  liveStreams (browser w) = []
  /\ activeIntervals (browser w) = []
  /\ pendingRequests (browser w) = 0%nat
  /\ streamRef (comp w) = None
  /\ mediaRecorderRef (comp w) = None
  /\ isRecording (comp w) = false
  /\ recordingSeconds (comp w) = 0%nat
  /\ micError (comp w)
     = if existsb (fun e => match e with StartRecording => true | _ => false end) es
       then Some unsupported_message else None.
Proof.
  cbv zeta.
  assert (H : browser (run (start false) es) = browser (start false)
              /\ streamRef (comp (run (start false) es)) = None
              /\ recordingIntervalRef (comp (run (start false) es)) = None
              /\ mediaRecorderRef (comp (run (start false) es)) = None
              /\ isRecording (comp (run (start false) es)) = false
              /\ recordingSeconds (comp (run (start false) es)) = 0%nat
              /\ micError (comp (run (start false) es))
                 = if existsb (fun e => match e with
                                        | StartRecording => true
                                        | _ => false
                                        end) es
                   then Some unsupported_message else None).
  { induction es as [|e es IH] using rev_ind; [cbn; repeat split|].
    rewrite recorder_run_app. cbn [run fold_left].
    destruct IH as (Hb & Hs & Hi & Hm & Hr & Hsec & Hmic).
    destruct (unsupported_step (run (start false) es) e)
      as (Hb' & Hs' & Hi' & Hm' & Hr' & Hsec' & Hmic');
      try assumption; try (rewrite Hb; reflexivity).
    rewrite Hb', Hsec', Hmic', Hb, Hsec, Hmic.
    repeat split; try assumption.
    rewrite existsb_app. cbn [existsb]. rewrite orb_false_r.
    destruct e; rewrite ?orb_false_r, ?orb_true_r; reflexivity. }
  destruct H as (Hb & Hs & Hi & Hm & Hr & Hsec & Hmic).
  rewrite Hb. cbn. repeat split; assumption.
Qed.

End Unsupported.

(** ** The inline data of a file *)

Section EncodingFacts.
Import Encoding.
Open Scope N_scope.

Lemma list_ind3 {A} (P : list A -> Prop) :
  P [] -> (forall a, P [a]) -> (forall a b, P [a; b]) ->
  (forall a b c rest, P rest -> P (a :: b :: c :: rest)) ->
  forall l, P l.
Proof.
  intros H0 H1 H2 H3.
  assert (H : forall l, P l /\ (forall a, P (a :: l))
                        /\ (forall a b, P (a :: b :: l))).
  { induction l as [|x l (IH0 & IH1 & IH2)]; [auto|].
    repeat split; auto. }
  intros l. apply H.
Qed.

Lemma b64_char_cases (n : N) :
  let c := b64_char n in
  (65 <= c <= 90) \/ (97 <= c <= 122) \/ (48 <= c <= 57) \/ c = 43 \/ c = 47.
Proof.
  cbv zeta. unfold b64_char.
  destruct (N.ltb_spec n 26); [lia|].
  destruct (N.ltb_spec n 52); [lia|].
  destruct (N.ltb_spec n 62); [lia|].
  destruct (N.eqb_spec n 62); lia.
Qed.

Lemma btoa_alphabet (P : codeunit -> Prop) (bytes : list N) :
  P 61 -> (forall n, P (b64_char n)) -> Forall P (btoa bytes).
Proof.
  intros Hpad Hchar.
  induction bytes as [|a|a b|a b c rest IH] using list_ind3; cbn [btoa];
    repeat constructor; auto.
Qed.

Lemma btoa_comma_free (bytes : list N) : comma_free (btoa bytes).
Proof.
  unfold comma_free. intros Hin.
  pose proof (btoa_alphabet (fun c => c <> 44) bytes) as H.
  rewrite Forall_forall in H. apply (H ltac:(discriminate)) in Hin; auto.
  intros n. pose proof (b64_char_cases n) as Hc. cbv zeta in Hc. lia.
Qed.

Lemma b64_value_char (n : N) : n < 64 -> b64_value (b64_char n) = n.
Proof.
  intros Hn. unfold b64_char.
  destruct (N.ltb_spec n 26).
  { unfold b64_value.
    destruct (N.leb_spec 65 (65 + n)); [|lia].
    destruct (N.leb_spec (65 + n) 90); [|lia]. cbn [andb]. lia. }
  destruct (N.ltb_spec n 52).
  { unfold b64_value.
    destruct (N.leb_spec 65 (97 + (n - 26))); [|lia].
    destruct (N.leb_spec (97 + (n - 26)) 90); [lia|]. cbn [andb].
    destruct (N.leb_spec 97 (97 + (n - 26))); [|lia].
    destruct (N.leb_spec (97 + (n - 26)) 122); [|lia]. cbn [andb]. lia. }
  destruct (N.ltb_spec n 62).
  { unfold b64_value.
    destruct (N.leb_spec 65 (48 + (n - 52))); [lia|]. cbn [andb].
    destruct (N.leb_spec 97 (48 + (n - 52))); [lia|]. cbn [andb].
    destruct (N.leb_spec 48 (48 + (n - 52))); [|lia].
    destruct (N.leb_spec (48 + (n - 52)) 57); [|lia]. cbn [andb]. lia. }
  destruct (N.eqb_spec n 62); [subst; reflexivity|].
  assert (n = 63) as -> by lia. reflexivity.
Qed.

Lemma b64_char_not_pad (n : N) : (b64_char n =? 61) = false.
Proof.
  apply N.eqb_neq. pose proof (b64_char_cases n) as Hc. cbv zeta in Hc. lia.
Qed.

(** The arithmetic of one group. *)
Lemma sextets (a b c : N) :
  a < 256 -> b < 256 -> c < 256 ->
  a / 4 < 64
  /\ (a mod 4) * 16 + b / 16 < 64
  /\ (b mod 16) * 4 + c / 64 < 64
  /\ c mod 64 < 64
  /\ (a / 4) * 4 + ((a mod 4) * 16 + b / 16) / 16 = a
  /\ (((a mod 4) * 16 + b / 16) mod 16) * 16 + ((b mod 16) * 4 + c / 64) / 4 = b
  /\ (((b mod 16) * 4 + c / 64) mod 4) * 64 + c mod 64 = c.
Proof.
  intros Ha Hb Hc.
  pose proof (N.div_mod a 4 ltac:(discriminate)) as Ea.
  pose proof (N.mod_lt a 4 ltac:(discriminate)) as La.
  pose proof (N.div_mod b 16 ltac:(discriminate)) as Eb.
  pose proof (N.mod_lt b 16 ltac:(discriminate)) as Lb.
  pose proof (N.div_mod c 64 ltac:(discriminate)) as Ec.
  pose proof (N.mod_lt c 64 ltac:(discriminate)) as Lc.
  assert (Hb16 : b / 16 < 16) by (apply N.Div0.div_lt_upper_bound; lia).
  assert (Hc64 : c / 64 < 4) by (apply N.Div0.div_lt_upper_bound; lia).
  assert (Ha4 : a / 4 < 64) by (apply N.Div0.div_lt_upper_bound; lia).
  assert (D1 : ((a mod 4) * 16 + b / 16) / 16 = a mod 4).
  { symmetry. apply (N.div_unique _ 16 (a mod 4) (b / 16)); lia. }
  assert (M1 : ((a mod 4) * 16 + b / 16) mod 16 = b / 16).
  { symmetry. apply (N.mod_unique _ 16 (a mod 4) (b / 16)); lia. }
  assert (D2 : ((b mod 16) * 4 + c / 64) / 4 = b mod 16).
  { symmetry. apply (N.div_unique _ 4 (b mod 16) (c / 64)); lia. }
  assert (M2 : ((b mod 16) * 4 + c / 64) mod 4 = c / 64).
  { symmetry. apply (N.mod_unique _ 4 (b mod 16) (c / 64)); lia. }
  rewrite D1, M1, D2, M2. repeat split; lia.
Qed.

(** [atob] undoes [btoa]. *)
Lemma atob_btoa (bytes : list N) : bytes_ok bytes -> atob (btoa bytes) = bytes.
Proof.
  unfold bytes_ok.
  induction bytes as [|a|a b|a b c rest IH] using list_ind3; intros Hb.
  - reflexivity.
  - inversion Hb as [|? ? Ha _]; subst.
    destruct (sextets a 0 0 Ha) as (S1 & S2 & _ & _ & E1 & _); try lia.
    cbn [btoa atob]. cbv zeta. change (61 =? 61) with true. cbv iota.
    rewrite !b64_value_char; auto.
    + f_equal. change (0 / 16) with 0 in E1. now rewrite N.add_0_r in E1.
    + change (0 / 16) with 0 in S2. now rewrite N.add_0_r in S2.
  - inversion Hb as [|? ? Ha Hb']; subst.
    inversion Hb' as [|? ? Hb2 _]; subst.
    destruct (sextets a b 0 Ha Hb2) as (S1 & S2 & S3 & _ & E1 & E2 & _);
      try lia.
    change (0 / 64) with 0 in *. rewrite N.add_0_r in *.
    cbn [btoa atob]. cbv zeta. rewrite b64_char_not_pad.
    change (61 =? 61) with true. cbv iota.
    rewrite !b64_value_char; auto. now rewrite E1, E2.
  - inversion Hb as [|? ? Ha Hb']; subst.
    inversion Hb' as [|? ? Hb2 Hb'']; subst.
    inversion Hb'' as [|? ? Hc Hrest]; subst.
    destruct (sextets a b c Ha Hb2 Hc) as (S1 & S2 & S3 & S4 & E1 & E2 & E3).
    cbn [btoa atob]. cbv zeta. rewrite !b64_char_not_pad.
    rewrite !b64_value_char; auto. rewrite E1, E2, E3, IH; auto.
Qed.

Lemma split_on_nonempty (sep : codeunit) (s : jsstring) : split_on sep s <> [].
Proof.
  destruct s as [|c s]; cbn; [discriminate|].
  destruct (c =? sep); [discriminate|].
  destruct (split_on sep s); discriminate.
Qed.

Lemma split_on_first (sep : codeunit) (a r : jsstring) :
  ~ In sep a -> split_on sep (a ++ sep :: r) = a :: split_on sep r.
Proof.
  induction a as [|c a IH]; intros Ha; cbn.
  - now rewrite N.eqb_refl.
  - destruct (N.eqb_spec c sep) as [->|_]; [exfalso; apply Ha; now left|].
    rewrite IH; [reflexivity|]. intros Hin. apply Ha. now right.
Qed.

Lemma split_on_none (sep : codeunit) (a : jsstring) :
  ~ In sep a -> split_on sep a = [a].
Proof.
  induction a as [|c a IH]; intros Ha; cbn; [reflexivity|].
  destruct (N.eqb_spec c sep) as [->|_]; [exfalso; apply Ha; now left|].
  rewrite IH; [reflexivity|]. intros Hin. apply Ha. now right.
Qed.

Lemma second_part (header payload : jsstring) :
  comma_free header ->
  nth_error (split_on 44 (header ++ 44 :: payload)) 1
  = hd_error (split_on 44 payload).
Proof.
  intros Hh. rewrite split_on_first by exact Hh. reflexivity.
Qed.

Lemma data_url_header (media : jsstring) (bytes : list N) :
  data_url media bytes
  = (lit "data:" ++ media ++ lit ";base64") ++ 44 :: btoa bytes.
Proof.
  unfold data_url. change (lit ";base64,") with (lit ";base64" ++ [44]).
  now rewrite <- !app_assoc.
Qed.

(** X13. For a file whose data URL carries a media type without a comma,
    the inline part holds the base64 text of the content, which decodes
    back to the bytes of the file, and the MIME type of the file; the
    ArrayBuffer fallback gives the same data. *)
Theorem inline_data_is_the_file (f : File) (media : jsstring) :
  comma_free media -> bytes_ok (file_bits f) ->
  let part := fileToGenerativePart f (AsString (data_url media (file_bits f))) in
  data part = Some (btoa (file_bits f))
  /\ option_map atob (data part) = Some (file_bits f)
  /\ mimeType part = file_type f
  /\ fileToGenerativePart f (AsBuffer (file_bits f)) = part.
Proof.
  intros Hm Hb. cbv zeta.
  assert (Hd : data (fileToGenerativePart
                       f (AsString (data_url media (file_bits f))))
               = Some (btoa (file_bits f))).
  { cbn [fileToGenerativePart data]. rewrite data_url_header.
    rewrite second_part.
    - now rewrite split_on_none by apply btoa_comma_free.
    - unfold comma_free. rewrite !in_app_iff. intros [H | [H | H]].
      + cbn in H. repeat (destruct H as [H|H]; [discriminate H|]). exact H.
      + now apply Hm.
      + cbn in H. repeat (destruct H as [H|H]; [discriminate H|]). exact H. }
  repeat split.
  - exact Hd.
  - rewrite Hd. cbn [option_map]. now rewrite atob_btoa.
  - unfold fileToGenerativePart at 2. cbn [data mimeType] in *.
    cbn [fileToGenerativePart data] in Hd. unfold fileToGenerativePart.
    now rewrite Hd.
Qed.

Lemma inline_data_is_the_file_witness :
  let f := {| file_name := lit "a.wav"; file_type := lit "audio/wav";
              file_bits := [82; 73; 70; 70; 255] |} in
  let part := fileToGenerativePart f (AsString (data_url (lit "audio/wav")
                                                         (file_bits f))) in
  data part = Some (lit "UklGRv8=")
  /\ option_map atob (data part) = Some (file_bits f)
  /\ mimeType part = file_type f
  /\ fileToGenerativePart f (AsBuffer (file_bits f)) = part.
Proof.
  apply (inline_data_is_the_file
           {| file_name := lit "a.wav"; file_type := lit "audio/wav";
              file_bits := [82; 73; 70; 70; 255] |} (lit "audio/wav")).
  - unfold comma_free. cbn. intuition discriminate.
  - repeat constructor.
Defined.

(** X14. [split(',')[1]] is the text between the first and the second
    comma of the data URL: when the media type itself contains a comma, the
    data sent is the rest of the media type followed by ";base64", not the
    content of the file; and when the result has no comma at all, the data
    is [undefined]. *)
Theorem comma_in_media_type_replaces_data
        (f : File) (before after : jsstring) (bytes : list N) :
  comma_free before -> comma_free after ->
  data (fileToGenerativePart
          f (AsString (data_url (before ++ 44 :: after) bytes)))
  = Some (after ++ lit ";base64")
  /\ data (fileToGenerativePart f (AsString before)) = None.
Proof.
  intros Hb Ha. split.
  - cbn [fileToGenerativePart data]. unfold data_url.
    replace (lit "data:" ++ (before ++ 44 :: after) ++ lit ";base64," ++ btoa bytes)
      with ((lit "data:" ++ before) ++ 44 :: ((after ++ lit ";base64") ++ 44 :: btoa bytes)).
    + rewrite second_part.
      * rewrite split_on_first; [reflexivity|].
        unfold comma_free in *. rewrite in_app_iff. intros [H | H].
        -- now apply Ha.
        -- cbn in H. repeat (destruct H as [H|H]; [discriminate H|]). exact H.
      * unfold comma_free in *. rewrite in_app_iff. intros [H | H].
        -- cbn in H. repeat (destruct H as [H|H]; [discriminate H|]). exact H.
        -- now apply Hb.
    + change (lit ";base64,") with (lit ";base64" ++ [44]).
      rewrite <- !app_assoc. cbn [app]. rewrite <- ?app_assoc. reflexivity.
  - cbn [fileToGenerativePart data].
    now rewrite split_on_none by exact Hb.
Qed.

Lemma comma_in_media_type_replaces_data_witness :
  data (fileToGenerativePart
          (App.clip (lit "a.webm"))
          (AsString (data_url (lit "audio/webm;codecs=opus,vorbis") [1; 2; 3])))
  = Some (lit "vorbis;base64")
  /\ data (fileToGenerativePart (App.clip (lit "a.webm")) (AsString (lit "data:")))
     = None.
Proof.
  apply (comma_in_media_type_replaces_data
           (App.clip (lit "a.webm")) (lit "audio/webm;codecs=opus")
           (lit "vorbis") [1; 2; 3]);
    unfold comma_free; cbn; intuition discriminate.
Defined.

End EncodingFacts.

(** ** The file card and the grammar tab *)

Section DisplayFacts.
Import Json GeminiService Formatting FileCard AnalysisDisplay.

Lemma Math_round_kilobytes (size : nat) :
  Math_round (inject_Z (Z.of_nat size) / 1024)
  = ((2 * Z.of_nat size + 1024) / 2048)%Z.
Proof.
  unfold Math_round, Qdiv, Qinv, Qmult, Qplus, Qfloor, inject_Z.
  cbn -[Z.mul Z.div Z.add Z.of_nat]. f_equal. lia.
Qed.

(** X15. The size on the file card is the number of kilobytes nearest to
    the size of the file, a tie going up, in decimal digits followed by
    " KB": it is off by at most 512 bytes, and it reads "0 KB" exactly for
    the files of less than 512 bytes. *)
Theorem size_label_is_nearest_kilobyte (size : nat) :
  exists digits,
    size_label size = digits ++ lit " KB"
    /\ all_digits digits
    /\ (1024 * number_of digits <= size + 512)%nat
    /\ (size + 512 < 1024 * number_of digits + 1024)%nat
    /\ (number_of digits = 0%nat <-> (size < 512)%nat).
Proof.
  unfold size_label. rewrite Math_round_kilobytes.
  set (k := Z.to_nat ((2 * Z.of_nat size + 1024) / 2048)).
  exists (toString k). split; [reflexivity|].
  split; [apply uint_codes_digits|].
  rewrite number_of_toString.
  assert (Hk : Z.of_nat k = ((2 * Z.of_nat size + 1024) / 2048)%Z).
  { unfold k. rewrite Z2Nat.id; [reflexivity|].
    apply Z.div_pos; lia. }
  pose proof (Z.div_mod (2 * Z.of_nat size + 1024) 2048 ltac:(lia)) as Hd.
  pose proof (Z.mod_pos_bound (2 * Z.of_nat size + 1024) 2048 ltac:(lia)) as Hm.
  rewrite <- Hk in Hd. lia.
Qed.

Lemma rows_without_null (E : Engine) (l : list json) :
  ~ In JNull l -> rows E l = inr (map row_of l).
Proof.
  induction l as [|x l IH]; intros H; [reflexivity|].
  cbn [rows map]. rewrite IH by (intros Hin; apply H; now right).
  destruct x; try reflexivity. exfalso. apply H. now left.
Qed.

Lemma rows_with_null (E : Engine) (l : list json) :
  In JNull l ->
  rows E l = inl (ErrorObj (typeErrorMessage E (lit "null") (lit "original"))).
Proof.
  induction l as [|x l IH]; intros H; [contradiction|].
  destruct H as [-> | H]; [reflexivity|].
  cbn [rows]. rewrite (IH H). destruct x; reflexivity.
Qed.

(** X16. The validation does not protect the grammar tab.  For every
    result that [getSpeechAnalysis] can return, [grammarAnalysis] is an
    array, and the grammar tab shows "no issues" for the empty one and one
    card per entry otherwise, each field being the property of the entry or
    undefined, unless some entry is [null]: then rendering the tab throws
    the TypeError of reading [original] of null.  Such a result exists: the
    response [null_issue_response] is returned as valid. *)
Theorem null_issue_breaks_grammar_tab (E : Engine) :
  (forall v, accepted v = true ->
     exists l,
       get v (lit "grammarAnalysis") = Some (JArray l)
       /\ (In JNull l ->
           grammar_view E l
           = inl (ErrorObj (typeErrorMessage E (lit "null") (lit "original"))))
       /\ (~ In JNull l ->
           grammar_view E l
           = inr (match l with [] => NoIssues | _ => Issues (map row_of l) end)))
  /\ exists v,
       getSpeechAnalysis E (Responded null_issue_response) = Returns v
       /\ get v (lit "grammarAnalysis") = Some (JArray [JNull]).
Proof.
  split.
  - intros v Hv. apply accepted_spec_valid in Hv.
    destruct Hv as (_ & _ & (l & Hl) & _).
    exists l. split; [exact Hl|]. split.
    + intros Hin. unfold grammar_view.
      destruct l as [|x l]; [contradiction|].
      now rewrite rows_with_null.
    + intros Hin. unfold grammar_view.
      destruct l as [|x l]; [reflexivity|].
      now rewrite rows_without_null.
  - eexists. split; vm_compute; reflexivity.
Qed.

End DisplayFacts.
